(** * parquet::arrow reader: a shallow embedding of [src/parquet/arrow/reader.cc]

    The development follows the source file top to bottom:
    - the INT96 timestamp kernel ([impala_timestamp_to_nanoseconds]);
    - [ParallelFor], as an interleaving step relation over the worker threads;
    - the file iterators, the leaf reader [PrimitiveImpl] and the nested
      readers [ListImpl] and [StructImpl] behind the [ColumnReader::Impl]
      interface;
    - the [FileReader::Impl] entry points that size a batch and read a table;
    - [PrimitiveImpl::WrapIntoListArray].

    Conventions.  C++ integers are [Z]; where the source can wrap, the
    wrap-around is written out ([to_int64]).  Buffers are lists and indices
    into them are [nat].  A read outside a buffer, which is undefined
    behaviour in the source, is the outcome [Undefined] of the model.
    Allocation is assumed to succeed.  The checks of debug builds
    ([DCHECK]) are not part of the model; where a property depends on one,
    it is a hypothesis of the theorem. *)

From Stdlib Require Import ZArith Lia Bool.
From stdpp Require Import base list strings.

Local Open Scope Z_scope.

(** ** arrow::Status *)

Inductive StatusCode :=
| OutOfMemory | KeyError | TypeError | Invalid | IOError | UnknownError
| NotImplemented.

Inductive Status :=
| OK
| Error (code : StatusCode) (msg : string).

Definition ok (s : Status) : bool :=
  match s with OK => true | Error _ _ => false end.




(** ** INT96 timestamps *)

Module Timestamp.

(** [struct Int96 { uint32_t value[3]; }] *)
Record Int96 := mkInt96 { value0 : Z; value1 : Z; value2 : Z }.

Definition uint32 (z : Z) : Prop := 0 <= z < 2 ^ 32.

Definition Int96_wf (t : Int96) : Prop :=
  uint32 (value0 t) /\ uint32 (value1 t) /\ uint32 (value2 t).

(** The 96 bits of the value, [value[0]] lowest (little-endian layout). *)
Definition bits (t : Int96) : Z :=
  Z.lor (value0 t) (Z.lor (Z.shiftl (value1 t) 32) (Z.shiftl (value2 t) 64)).

(** Two's complement reading of the low 64 bits: the value an [int64_t]
    holds after a wrapping operation. *)
Definition to_int64 (z : Z) : Z := (z + 2 ^ 63) mod 2 ^ 64 - 2 ^ 63.

Definition int64 (z : Z) : Prop := - 2 ^ 63 <= z < 2 ^ 63.

Definition kJulianToUnixEpochDays : Z := 2440588.
Definition kNanosecondsInADay : Z := 86400 * 1000 * 1000 * 1000.

(** [impala_timestamp.value[2]] widened to [int64_t], and the first eight
    bytes of the value read back as one [int64_t]. *)
Definition days_since_julian (t : Int96) : Z := Z.shiftr (bits t) 64.
Definition nanos_of_day (t : Int96) : Z := to_int64 (Z.land (bits t) (Z.ones 64)).

Definition impala_timestamp_to_nanoseconds (impala_timestamp : Int96) : Z :=
  let days_since_epoch :=
    to_int64 (value2 impala_timestamp - kJulianToUnixEpochDays) in
  let nanoseconds :=
    to_int64 (value0 impala_timestamp + Z.shiftl (value1 impala_timestamp) 32) in
  to_int64 (to_int64 (days_since_epoch * kNanosecondsInADay) + nanoseconds).

(** [ReadNonNullableBatch<::arrow::TimestampType, Int96Type>]: the values
    the column reader returned are converted one by one into the data
    buffer, from slot [valid_bits_idx_] on, and the index moves past them. *)
Record DataBuffer := mkDataBuffer {
  data_buffer_ : list Z;
  valid_bits_idx_ : nat
}.

Fixpoint write_converted (values : list Int96) (out_ptr : nat) (buf : list Z)
  : list Z :=
  match values with
  | [] => buf
  | v :: values' =>
      write_converted values' (S out_ptr)
        (<[out_ptr := impala_timestamp_to_nanoseconds v]> buf)
  end.

Definition ReadNonNullableBatch_Int96 (values : list Int96) (st : DataBuffer)
  : DataBuffer :=
  {| data_buffer_ := write_converted values (valid_bits_idx_ st) (data_buffer_ st);
     valid_bits_idx_ := (valid_bits_idx_ st + length values)%nat |}.

End Timestamp.

(** ** ParallelFor

    The worker lambda, cut at its accesses to the shared variables.  A
    worker is at the loop test ([AtLoop]), between the test and
    [task_counter.fetch_add(1)] ([Fetching]), inside [func(task_id)]
    ([Running]), about to take [error_mtx] with a failed status
    ([Reporting]) or out of the loop ([Finished]).  The critical section
    under the mutex is one step.  A schedule is the order in which the
    workers take their steps. *)

Module ParallelFor.

Inductive pc :=
| AtLoop
| Fetching
| Running (task_id : nat)
| Reporting (s : Status)
| Finished.

Record state := mkState {
  task_counter : nat;
  error_occurred : bool;
  error : Status;
  thread_pool : list pc
}.

(** What an observer of the shared variables sees: a worker got a task
    from the counter (and the value the flag had at that moment), or a
    worker stored its status under the mutex. *)
Inductive event :=
| Claim (thread_id task_id : nat) (flag : bool)
| Report (thread_id : nat) (s : Status).

Section Worker.
Variable num_tasks : nat.
Variable func : nat -> Status.

Definition set_pc (st : state) (thread_id : nat) (p : pc) : state :=
  mkState (task_counter st) (error_occurred st) (error st)
          (<[thread_id := p]> (thread_pool st)).

(** One step of worker [thread_id]; [None] when it has none to take. *)
Definition step (thread_id : nat) (st : state) : option (state * list event) :=
  match thread_pool st !! thread_id with
  | None => None
  | Some AtLoop =>
      (* while (!error_occurred) *)
      if error_occurred st
      then Some (set_pc st thread_id Finished, [])
      else Some (set_pc st thread_id Fetching, [])
  | Some Fetching =>
      (* task_id = task_counter.fetch_add(1); if (task_id >= num_tasks) break; *)
      let task_id := task_counter st in
      let st' := mkState (S task_id) (error_occurred st) (error st)
                         (thread_pool st) in
      if (num_tasks <=? task_id)%nat
      then Some (set_pc st' thread_id Finished, [])
      else Some (set_pc st' thread_id (Running task_id),
                 [Claim thread_id task_id (error_occurred st)])
  | Some (Running task_id) =>
      (* Status s = func(task_id); if (!s.ok()) ... *)
      let s := func task_id in
      if ok s
      then Some (set_pc st thread_id AtLoop, [])
      else Some (set_pc st thread_id (Reporting s), [])
  | Some (Reporting s) =>
      (* lock; error_occurred = true; error = s; break; *)
      Some (mkState (task_counter st) true s
                    (<[thread_id := Finished]> (thread_pool st)),
            [Report thread_id s])
  | Some Finished => None
  end.

(** Run a schedule; an entry naming a worker that cannot step is skipped. *)
Fixpoint run (schedule : list nat) (st : state) (trace : list event)
  : state * list event :=
  match schedule with
  | [] => (st, trace)
  | thread_id :: schedule' =>
      match step thread_id st with
      | Some (st', evs) => run schedule' st' (trace ++ evs)
      | None => run schedule' st trace
      end
  end.

Definition init (nthreads : nat) : state :=
  mkState 0 false OK (replicate nthreads AtLoop).

Definition is_Finished (p : pc) : bool :=
  match p with Finished => true | _ => false end.

Definition joined (st : state) : bool := forallb is_Finished (thread_pool st).

(** [ParallelFor(nthreads, num_tasks, func)] under a schedule: the value
    returned once every worker has been joined; [None] while the
    schedule leaves a worker unfinished. *)
Definition ParallelFor (nthreads : nat) (schedule : list nat)
  : option (Status * list event) :=
  let '(st, trace) := run schedule (init nthreads) [] in
  if joined st
  then Some (if error_occurred st then error st else OK, trace)
  else None.

End Worker.

(** Readings of a trace. *)
Definition reports (trace : list event) : list Status :=
  omap (fun e => match e with Report _ s => Some s | _ => None end) trace.

Definition first_report (trace : list event) : option Status := head (reports trace).
Definition last_report (trace : list event) : option Status := last (reports trace).

Definition claims (trace : list event) : list (nat * bool) :=
  omap (fun e => match e with Claim _ t f => Some (t, f) | _ => None end) trace.

(** Tasks claimed when the flag was already set. *)
Definition late_claims (trace : list event) : list nat :=
  omap (fun e => match e with Claim _ t true => Some t | _ => None end) trace.

(** The tasks handed out, in the order of the counter. *)
Definition claimed (trace : list event) : list nat := (claims trace).*1.

Definition is_Fetching (p : pc) : bool :=
  match p with Fetching => true | _ => false end.

(** Workers between the loop test and the counter. *)
Fixpoint fetching (pool : list pc) : nat :=
  match pool with
  | [] => 0
  | p :: pool' => ((if is_Fetching p then 1 else 0) + fetching pool')%nat
  end.

(** A status some claimed task failed with. *)
Definition failure_of (func : nat -> Status) (trace : list event) (s : Status) : Prop :=
  ok s = false /\ exists task_id, task_id ∈ claimed trace /\ s = func task_id.

(** What holds of the shared variables and the trace after any number of
    steps of [nthreads] workers. *)
Record invariant (func : nat -> Status) (nthreads : nat)
       (st : state) (trace : list event) : Prop := mkInvariant {
  inv_pool : length (thread_pool st) = nthreads;
  inv_clear : error_occurred st = false ->
              reports trace = [] /\ late_claims trace = [];
  inv_set : error_occurred st = true ->
            last_report trace = Some (error st)
            /\ (length (late_claims trace) + fetching (thread_pool st) + 1
                <= nthreads)%nat;
  inv_reports : Forall (failure_of func trace) (reports trace);
  inv_workers : Forall (fun p => match p with
                                 | Running task_id => task_id ∈ claimed trace
                                 | Reporting s => failure_of func trace s
                                 | _ => True
                                 end) (thread_pool st)
}.

(** Two tasks that both fail, and a schedule of two workers in which
    worker 1 has passed the loop test when worker 0 stores its error. *)
Definition two_failures (task_id : nat) : Status :=
  match task_id with
  | O => Error IOError "first"
  | _ => Error Invalid "second"
  end.

Definition overtaking : list nat := [0; 0; 1; 0; 0; 1; 1; 1]%nat.

End ParallelFor.

(** ** The column readers *)

Module Reader.

(** [arrow::Type::type] and [arrow::TimeUnit], as far as
    [PrimitiveImpl::NextBatch] tells them apart. *)
Inductive TimeUnit := SECOND | MILLI | MICRO | NANO.

Inductive TypeId :=
| NA | BOOL | UINT8 | INT8 | UINT16 | INT16 | UINT32 | INT32 | UINT64 | INT64
| HALF_FLOAT | FLOAT | DOUBLE | STRING | BINARY
| FIXED_SIZE_BINARY (byte_width : Z)
| DATE32 | DATE64
| TIMESTAMP (unit : TimeUnit)
| TIME32 | TIME64 | INTERVAL | DECIMAL.

(** The shape of an [arrow::Array]: lengths, validity, offsets and
    children.  The value buffers of the leaves are left out. *)
#[local] Unset Elimination Schemes.
Inductive Array :=
| NullArray (length : Z)
| PrimitiveArray (type : TypeId) (length : Z)
                 (null_bitmap : option (list bool)) (null_count : Z)
| ListArray (length : Z) (offsets : list Z) (values : Array)
            (null_bitmap : option (list bool)) (null_count : Z)
| StructArray (length : Z) (children : list Array)
              (null_bitmap : option (list bool)) (null_count : Z).
#[local] Set Elimination Schemes.

Definition array_length (a : Array) : Z :=
  match a with
  | NullArray n => n
  | PrimitiveArray _ n _ _ => n
  | ListArray n _ _ _ _ => n
  | StructArray n _ _ _ => n
  end.

(** Validity of slot [i]: an absent bitmap means every slot is valid. *)
Definition valid_bit (null_bitmap : option (list bool)) (i : nat) : option bool :=
  match null_bitmap with
  | None => Some true
  | Some bits => bits !! i
  end.

(** What [NextBatch] hands back: [Status::OK()] with an array, [OK] with
    [*out = nullptr], an error status, or undefined behaviour. *)
Inductive Result :=
| Batch (out : Array)
| Exhausted
| Failed (code : StatusCode) (msg : string)
| Undefined.

(** A (definition level, repetition level) pair of a leaf column. *)
Definition Level : Type := Z * Z.

Definition countb {A} (f : A -> bool) (l : list A) : Z :=
  Z.of_nat (length (filter (fun x => f x = true) l)).

(** [ColumnDescriptor], with the facts the leaf reader asks of the schema
    node.  [spaced_null] is the physical reader's choice of the
    definition levels below the maximum that [ReadBatchSpaced] gives a
    (null) slot. *)
Record ColumnDescriptor := mkDescr {
  max_definition_level : Z;
  max_repetition_level : Z;
  is_optional : bool;
  repeated_parent : bool;
  top_parent_def_level : Z;
  spaced_null : Z -> bool
}.

(** Modelled from the spec: the physical column-chunk reader
    ([parquet::ColumnReader], not in this file).  A chunk is the levels it
    has not handed out yet; [read_batch(n)] hands out the next [n] of
    them, or all that is left; [has_next()] tells whether any is left.  The
    reader is assumed not to throw. *)
Record ColumnReader := mkColumnReader { unread : list Level }.

(** Modelled from the spec: a level carries a value when the column has no
    definition levels or the level is the maximum one. *)
Definition is_value (descr : ColumnDescriptor) (l : Level) : bool :=
  (max_definition_level descr =? 0) || (l.1 =? max_definition_level descr).

(** Modelled from the spec: the levels the spaced read writes a slot for,
    a value or a null. *)
Definition is_slot (descr : ColumnDescriptor) (l : Level) : bool :=
  is_value descr l || spaced_null descr l.1.

(** Modelled from the spec: [ReadBatch] gives the levels read
    ([levels_read] is their number), the number of values among them, and
    the reader afterwards. *)
Definition ReadBatch (descr : ColumnDescriptor) (batch_size : Z) (r : ColumnReader)
  : list Level * Z * ColumnReader :=
  let n := Z.to_nat batch_size in
  let levels := take n (unread r) in
  (levels, countb (is_value descr) levels, mkColumnReader (drop n (unread r))).

(** Modelled from the spec: [ReadBatchSpaced] gives the levels read, and
    one validity bit per slot written.  [values_read] is the number of
    slots, nulls included, as the array lengths of the specification's
    scenarios require; [null_count] is the number of zero bits. *)
Definition ReadBatchSpaced (descr : ColumnDescriptor) (batch_size : Z) (r : ColumnReader)
  : list Level * list bool * ColumnReader :=
  let n := Z.to_nat batch_size in
  let levels := take n (unread r) in
  (levels,
   omap (fun l => if is_slot descr l then Some (is_value descr l) else None) levels,
   mkColumnReader (drop n (unread r))).

(** Modelled from the spec: [HasNext] tells whether a level is left. *)
Definition HasNext (r : ColumnReader) : bool :=
  match unread r with [] => false | _ => true end.

(** Modelled from the spec: the file ([ParquetFileReader] and its
    metadata, not in this file), as far as the readers look at it. *)
Record ParquetFileReader := mkFile {
  num_columns : Z;
  num_row_groups : nat;
  GetColumnRoot : Z -> Z;             (* the top-level field a leaf column is under *)
  num_values : nat -> Z -> Z;         (* RowGroup(j)->ColumnChunk(c)->num_values() *)
  Column : nat -> Z -> ColumnReader   (* RowGroup(j)->Column(c) *)
}.

(** [FileColumnIterator].  The iterator is kept as the chunks it has yet
    to hand out: for [AllRowGroupsIterator] those of the row groups from
    [next_row_group_] on, for [SingleRowGroupIterator] the one chunk
    until [done_]. *)
Record FileColumnIterator := mkIterator {
  column_index_ : Z;
  pending_ : list ColumnReader
}.

Definition AllRowGroupsIterator (column_index : Z) (reader : ParquetFileReader)
  : FileColumnIterator :=
  mkIterator column_index
             ((fun j => Column reader j column_index) <$> seq 0 (num_row_groups reader)).

Definition SingleRowGroupIterator (column_index : Z) (row_group_number : nat)
           (reader : ParquetFileReader) : FileColumnIterator :=
  mkIterator column_index [Column reader row_group_number column_index].

Definition Next (it : FileColumnIterator) : option ColumnReader * FileColumnIterator :=
  match pending_ it with
  | [] => (None, it)
  | r :: rest => (Some r, mkIterator (column_index_ it) rest)
  end.

(** *** PrimitiveImpl *)

Record PrimitiveImpl := mkPrimitiveImpl {
  input_ : FileColumnIterator;
  descr_ : ColumnDescriptor;
  column_reader_ : option ColumnReader;
  field_type : TypeId;              (* field_->type()->id(), with unit or width *)
  def_levels_buffer_ : list Z;
  rep_levels_buffer_ : list Z
}.

Definition NextRowGroup (p : PrimitiveImpl) : PrimitiveImpl :=
  let '(r, it) := Next (input_ p) in
  mkPrimitiveImpl it (descr_ p) r (field_type p)
                  (def_levels_buffer_ p) (rep_levels_buffer_ p).

(** The constructor: attach the first column chunk. *)
Definition new_PrimitiveImpl (input : FileColumnIterator) (descr : ColumnDescriptor)
           (type : TypeId) : PrimitiveImpl :=
  NextRowGroup (mkPrimitiveImpl input descr None type [] []).

(** The local variables of a read loop. *)
Record ReadLoop := mkReadLoop {
  values_to_read : Z;
  levels_seen : list Level;   (* what was written to the level buffers;
                                 [total_levels_read] is its length *)
  valid_bits : list bool;     (* one bit per slot written *)
  valid_bits_idx_ : Z;
  null_count_ : Z;
  loop_reader : option ColumnReader;
  loop_input : FileColumnIterator
}.

Inductive LoopResult :=
| LoopExit (st : ReadLoop)
| LoopUndefined
| OutOfFuel.

(** The end of a loop body:
    [if (!column_reader_->HasNext()) NextRowGroup();] *)
Definition next_if_drained (r : ColumnReader) (it : FileColumnIterator)
  : option ColumnReader * FileColumnIterator :=
  if HasNext r then (Some r, it) else Next it.

(** An upper bound on the iterations a read loop can make: every
    iteration hands out a level or leaves a chunk. *)
Definition loop_fuel (r : option ColumnReader) (it : FileColumnIterator) : nat :=
  match r with
  | None => 1
  | Some r =>
      S (S (length (unread r))
         + foldr (fun c n => S (length (unread c)) + n) 0 (pending_ it))%nat
  end.

(** The loop of [TypedReadBatch]:
    [while ((values_to_read > 0) && column_reader_)].  With
    [max_definition_level() == 0] the body is [ReadNonNullableBatch],
    otherwise [ReadNullableBatch], which writes the levels it reads behind
    those already in the level buffers; these hold [batch_size] levels. *)
Fixpoint TypedReadBatch_loop (fuel : nat) (descr : ColumnDescriptor) (batch_size : Z)
         (st : ReadLoop) : LoopResult :=
  match fuel with
  | O => OutOfFuel
  | S fuel' =>
      match loop_reader st with
      | None => LoopExit st
      | Some reader =>
          if values_to_read st <=? 0 then LoopExit st
          else if max_definition_level descr =? 0 then
            let '(levels, values_read, reader') :=
              ReadBatch descr (values_to_read st) reader in
            let '(r, it) := next_if_drained reader' (loop_input st) in
            TypedReadBatch_loop fuel' descr batch_size
              (mkReadLoop (values_to_read st - Z.of_nat (length levels))
                          (levels_seen st) (valid_bits st)
                          (valid_bits_idx_ st + values_read) (null_count_ st)
                          r it)
          else
            let '(levels, bits, reader') :=
              ReadBatchSpaced descr (values_to_read st) reader in
            if batch_size <? Z.of_nat (length (levels_seen st) + length levels)
            then LoopUndefined
            else
              let '(r, it) := next_if_drained reader' (loop_input st) in
              TypedReadBatch_loop fuel' descr batch_size
                (mkReadLoop (values_to_read st - Z.of_nat (length bits))
                            (levels_seen st ++ levels) (valid_bits st ++ bits)
                            (valid_bits_idx_ st + Z.of_nat (length bits))
                            (null_count_ st + countb negb bits)
                            r it)
      end
  end.

(** The builder calls of [ReadByteArrayBatch] for one level:
    [AppendNull] ([Some false]), [Append] ([Some true]) or neither. *)
Definition byte_array_slot (descr : ColumnDescriptor) (l : Level) : option bool :=
  if is_optional descr
     && (l.1 <? max_definition_level descr)
     && (top_parent_def_level descr <=? l.1)
  then Some false
  else if l.1 =? max_definition_level descr then Some true
  else None.

(** The same for [ReadFLBABatch]. *)
Definition flba_slot (descr : ColumnDescriptor) (l : Level) : option bool :=
  if is_optional descr
     && ((repeated_parent descr && (l.1 =? max_definition_level descr - 1))
         || (negb (repeated_parent descr) && (l.1 <? max_definition_level descr)))
  then Some false
  else if l.1 =? max_definition_level descr then Some true
  else None.

(** The loop of [ReadByteArrayBatch] and of [ReadFLBABatch], which differ
    in the builder calls [slot] only.  [valid_bits] is the builder. *)
Fixpoint builder_loop (fuel : nat) (slot : ColumnDescriptor -> Level -> option bool)
         (descr : ColumnDescriptor) (st : ReadLoop) : LoopResult :=
  match fuel with
  | O => OutOfFuel
  | S fuel' =>
      match loop_reader st with
      | None => LoopExit st
      | Some reader =>
          if values_to_read st <=? 0 then LoopExit st
          else
            let '(levels, values_read, reader') :=
              ReadBatch descr (values_to_read st) reader in
            let '(r, it) := next_if_drained reader' (loop_input st) in
            let st' :=
              if max_definition_level descr =? 0 then
                mkReadLoop (values_to_read st - Z.of_nat (length levels))
                           (levels_seen st)
                           (valid_bits st ++ replicate (length levels) true)
                           (valid_bits_idx_ st) (null_count_ st) r it
              else
                mkReadLoop (values_to_read st - Z.of_nat (length levels))
                           (levels_seen st ++ levels)
                           (valid_bits st ++ omap (slot descr) levels)
                           (valid_bits_idx_ st) (null_count_ st) r it in
            builder_loop fuel' slot descr st'
      end
  end.

(** The level buffers after a read: resized to [total_levels_read] when
    the column has levels of that kind, untouched otherwise. *)
Definition after_read (p : PrimitiveImpl) (st : ReadLoop) : PrimitiveImpl :=
  mkPrimitiveImpl (loop_input st) (descr_ p) (loop_reader st) (field_type p)
    (if 0 <? max_definition_level (descr_ p)
     then (levels_seen st).*1 else def_levels_buffer_ p)
    (if 0 <? max_repetition_level (descr_ p)
     then (levels_seen st).*2 else rep_levels_buffer_ p).

Definition start_loop (batch_size : Z) (p : PrimitiveImpl) : ReadLoop :=
  mkReadLoop batch_size [] [] 0 0 (column_reader_ p) (input_ p).

(** [TypedReadBatch<ArrowType, ParquetType>]; the boolean specialisation
    has the same shape.  The loop is run with [loop_fuel], which is
    enough for it to exit. *)
Definition TypedReadBatch (batch_size : Z) (p : PrimitiveImpl) : Result * PrimitiveImpl :=
  match TypedReadBatch_loop (loop_fuel (column_reader_ p) (input_ p)) (descr_ p)
                            batch_size (start_loop batch_size p) with
  | LoopExit st =>
      (Batch (if 0 <? max_definition_level (descr_ p)
              then PrimitiveArray (field_type p) (valid_bits_idx_ st)
                                  (Some (valid_bits st)) (null_count_ st)
              else PrimitiveArray (field_type p) (valid_bits_idx_ st) None 0),
       after_read p st)
  | LoopUndefined | OutOfFuel => (Undefined, p)
  end.

(** [builder.Finish(out)] *)
Definition Finish (type : TypeId) (builder : list bool) : Array :=
  PrimitiveArray type (Z.of_nat (length builder)) (Some builder) (countb negb builder).

Definition builder_read (slot : ColumnDescriptor -> Level -> option bool)
           (batch_size : Z) (p : PrimitiveImpl) : Result * PrimitiveImpl :=
  match builder_loop (loop_fuel (column_reader_ p) (input_ p)) slot (descr_ p)
                     (start_loop batch_size p) with
  | LoopExit st => (Batch (Finish (field_type p) (valid_bits st)), after_read p st)
  | LoopUndefined | OutOfFuel => (Undefined, p)
  end.

Definition ReadByteArrayBatch := builder_read byte_array_slot.
Definition ReadFLBABatch := builder_read flba_slot.

(** [PrimitiveImpl::NextBatch] *)
Definition PrimitiveImpl_NextBatch (batch_size : Z) (p : PrimitiveImpl)
  : Result * PrimitiveImpl :=
  match column_reader_ p with
  | None => (Exhausted, p)      (* Exhausted all row groups. *)
  | Some _ =>
      match field_type p with
      | NA => (Batch (NullArray batch_size), p)
      | BOOL | UINT8 | INT8 | UINT16 | INT16 | UINT32 | INT32 | UINT64 | INT64
      | FLOAT | DOUBLE | DATE32 | DATE64 | TIME32 | TIME64 =>
          TypedReadBatch batch_size p
      | STRING | BINARY => ReadByteArrayBatch batch_size p
      | FIXED_SIZE_BINARY _ => ReadFLBABatch batch_size p
      | TIMESTAMP MILLI | TIMESTAMP MICRO | TIMESTAMP NANO =>
          TypedReadBatch batch_size p
      | TIMESTAMP SECOND => (Failed NotImplemented "TimeUnit not supported", p)
      | HALF_FLOAT | INTERVAL | DECIMAL =>
          (Failed NotImplemented "No support for reading columns of type", p)
      end
  end.

(** *** ListImpl *)

(** [ListImpl::GetDefLevels], on the child's level streams.
    [def_group] is the [do ... while] over one list, entered after
    [i++]: [defs] and [reps] are the child's streams from [i] on.  The
    repetition stream is read at every [i] below the length of the
    definition stream; [None] when it is too short for that. *)
Fixpoint def_group (child_max_repetition list_def_level : Z) (def_level : Z)
         (defs reps : list Z) : option (list Z) :=
  match defs with
  | [] => Some [Z.min def_level list_def_level]
  | d :: defs' =>
      match reps with
      | [] => None
      | r :: reps' =>
          if child_max_repetition <=? r
          then def_group child_max_repetition list_def_level
                         (Z.max def_level d) defs' reps'
          else
            cons (Z.min def_level list_def_level)
              <$> def_group child_max_repetition list_def_level
                            (Z.max (-1) d) defs' reps'
      end
  end.

Definition ListImpl_GetDefLevels (child_max_repetition list_def_level : Z)
           (child_def_levels child_rep_levels : list Z) : option (list Z) :=
  match child_def_levels with
  | [] => Some []
  | d :: defs' =>
      def_group child_max_repetition list_def_level (Z.max (-1) d)
                defs' (tail child_rep_levels)
  end.

(** [ListImpl::GetRepLevels] *)
Fixpoint rep_group (child_max_repetition list_rep_level : Z) (level : Z)
         (reps : list Z) : list Z :=
  match reps with
  | [] => [level]
  | r :: reps' =>
      if child_max_repetition <=? r
      then rep_group child_max_repetition list_rep_level (Z.min level r) reps'
      else level :: rep_group child_max_repetition list_rep_level
                              (Z.min list_rep_level r) reps'
  end.

Definition ListImpl_GetRepLevels (child_max_repetition list_rep_level : Z)
           (child_rep_levels : list Z) : list Z :=
  match child_rep_levels with
  | [] => []
  | r :: reps' =>
      rep_group child_max_repetition list_rep_level (Z.min list_rep_level r) reps'
  end.

(** [ListImpl::DefLevelsToNullArray], on the list's own definition
    levels: the bits appended and [null_count]. *)
Fixpoint list_null_bits (list_def_level min_space_def_level : Z)
         (def_levels_data : list Z) : list bool * Z :=
  match def_levels_data with
  | [] => ([], 0)
  | d :: ds =>
      let '(bits, null_count) :=
        list_null_bits list_def_level min_space_def_level ds in
      if list_def_level <=? d then (true :: bits, null_count)
      else if min_space_def_level <=? d then (false :: bits, null_count + 1)
      else (bits, null_count)
  end.

Definition null_bitmap_of (bits : list bool) (null_count : Z) : option (list bool) :=
  if null_count =? 0 then None else Some bits.

(** [ListImpl::RepLevelsToOffsetsArray].  [walk] is the rest of the
    [do ... while] over the values of one list after its first step:
    [rest] is the child's repetition stream from [child_level_idx] on. *)
Fixpoint walk (list_rep_level : Z) (rest : list Z)
         (child_level_idx child_val_idx : nat) : nat * nat :=
  match rest with
  | r :: rest' =>
      if list_rep_level <? r
      then walk list_rep_level rest' (S child_level_idx) (S child_val_idx)
      else (child_level_idx, child_val_idx)
  | [] => (child_level_idx, child_val_idx)
  end.

(** The [for] loop over the list's definition levels; the offsets
    appended after the first.  [None] when [child_def_levels] is read
    past its end. *)
Fixpoint offsets_loop (list_def_level list_rep_level min_space_def_level : Z)
         (child_def_levels child_rep_levels : list Z)
         (def_levels_data : list Z)
         (child_level_idx child_val_idx : nat) : option (list Z) :=
  match def_levels_data with
  | [] => Some []
  | d :: ds =>
      idxs ← (if d =? list_def_level then
                cd ← child_def_levels !! child_level_idx;
                if list_def_level <? cd
                then Some (walk list_rep_level
                                (drop (S child_level_idx) child_rep_levels)
                                (S child_level_idx) (S child_val_idx))
                else Some (S child_level_idx, child_val_idx)
              else Some (S child_level_idx, child_val_idx));
      rest ← offsets_loop list_def_level list_rep_level min_space_def_level
                          child_def_levels child_rep_levels ds idxs.1 idxs.2;
      Some (if min_space_def_level <=? d
            then Z.of_nat idxs.2 :: rest else rest)
  end.

Definition RepLevelsToOffsetsArray (list_def_level list_rep_level min_space_def_level : Z)
           (def_levels_data child_def_levels child_rep_levels : list Z)
  : option (list Z) :=
  cons 0 <$> offsets_loop list_def_level list_rep_level min_space_def_level
                          child_def_levels child_rep_levels def_levels_data 0 0.

(** *** StructImpl *)

(** The inner loop of [StructImpl::GetDefLevels] for one child, from
    position [i] for [n] positions; [None] when the child's stream is
    read past its end. *)
Fixpoint fold_child_def (struct_def_level : Z) (child_def_levels : list Z)
         (n i : nat) (result_levels : list Z) : option (list Z) :=
  match n with
  | O => Some result_levels
  | S n' =>
      match child_def_levels !! i, result_levels !! i with
      | Some cd, Some r =>
          fold_child_def struct_def_level child_def_levels n' (S i)
            (<[i := Z.max r (Z.min cd struct_def_level)]> result_levels)
      | _, _ => None
      end
  end.

(** [StructImpl::GetDefLevels], on the children's definition streams.
    The debug-build check that the children agree is not part of it. *)
Definition StructImpl_GetDefLevels (struct_def_level : Z)
           (children_def_levels : list (list Z)) : option (list Z) :=
  match children_def_levels with
  | [] => Some []
  | first :: _ =>
      let child_length := length first in
      foldl (fun acc child_def_levels =>
               result_levels ← acc;
               fold_child_def struct_def_level child_def_levels child_length 0
                              result_levels)
            (Some (replicate child_length (-1))) children_def_levels
  end.

(** The 16-bit value [memset] leaves when it fills a buffer with the
    byte [c]. *)
Definition to_int16 (z : Z) : Z := (z + 2 ^ 15) mod 2 ^ 16 - 2 ^ 15.
Definition memset_int16 (c : Z) : Z := to_int16 (257 * (c mod 256)).

Fixpoint fold_child_rep (child_rep_levels : list Z) (n i : nat)
         (result_levels : list Z) : option (list Z) :=
  match n with
  | O => Some result_levels
  | S n' =>
      match child_rep_levels !! i, result_levels !! i with
      | Some cr, Some r =>
          fold_child_rep child_rep_levels n' (S i) (<[i := Z.min r cr]> result_levels)
      | _, _ => None
      end
  end.

(** [StructImpl::GetRepLevels] *)
Definition StructImpl_GetRepLevels (max_repetition : Z)
           (children_rep_levels : list (list Z)) : option (list Z) :=
  match children_rep_levels with
  | [] => Some []
  | first :: _ =>
      let child_length := length first in
      foldl (fun acc child_rep_levels =>
               result_levels ← acc;
               fold_child_rep child_rep_levels child_length 0 result_levels)
            (Some (replicate child_length (memset_int16 max_repetition)))
            children_rep_levels
  end.

(** [StructImpl::DefLevelsToNullArray], on the merged definition levels. *)
Fixpoint struct_null_bits (struct_def_level top_parent_def_level : Z)
         (def_levels_data : list Z) : list bool * Z :=
  match def_levels_data with
  | [] => ([], 0)
  | d :: ds =>
      let '(bits, null_count) :=
        struct_null_bits struct_def_level top_parent_def_level ds in
      if d <? struct_def_level then
        if top_parent_def_level <=? d then (false :: bits, null_count + 1)
        else (bits, null_count)
      else (true :: bits, null_count)
  end.

(** *** The reader tree behind [ColumnReader::Impl]

    [min_space_def_level_] of a list and [top_parent_def_level_] of a
    struct are the values of [GetTopNonRepeatedParentLevel] (not in this
    file) on the reader's schema node. *)
#[local] Unset Elimination Schemes.
Inductive Impl :=
| Primitive (p : PrimitiveImpl)
| ListOf (child_ : Impl)
         (list_def_level_ list_rep_level_ min_space_def_level_ : Z)
| StructOf (children_ : list Impl)
           (struct_def_level_ struct_rep_level_ top_parent_def_level_ : Z).
#[local] Set Elimination Schemes.

Definition max_def_level (t : Impl) : Z :=
  match t with
  | Primitive p => max_definition_level (descr_ p)
  | ListOf _ list_def_level _ _ => list_def_level
  | StructOf _ struct_def_level _ _ => struct_def_level
  end.

Definition max_rep_level (t : Impl) : Z :=
  match t with
  | Primitive p => max_repetition_level (descr_ p)
  | ListOf _ _ list_rep_level _ => list_rep_level
  | StructOf _ _ struct_rep_level _ => struct_rep_level
  end.

(** [GetRepLevels] and [GetDefLevels]; [None] is a read outside a
    buffer.  A list keeps its two streams in a cache that every
    [NextBatch] clears first, so the streams are always those computed
    from the child's current ones. *)
Fixpoint GetRepLevels (t : Impl) : option (list Z) :=
  match t with
  | Primitive p => Some (rep_levels_buffer_ p)
  | ListOf child _ list_rep_level _ =>
      child_rep_levels ← GetRepLevels child;
      Some (ListImpl_GetRepLevels (max_rep_level child) list_rep_level
                                  child_rep_levels)
  | StructOf children _ _ _ =>
      streams ← mapM GetRepLevels children;
      StructImpl_GetRepLevels
        (match children with c :: _ => max_rep_level c | [] => 0 end) streams
  end.

Fixpoint GetDefLevels (t : Impl) : option (list Z) :=
  match t with
  | Primitive p => Some (def_levels_buffer_ p)
  | ListOf child list_def_level _ _ =>
      child_def_levels ← GetDefLevels child;
      child_rep_levels ← GetRepLevels child;
      ListImpl_GetDefLevels (max_rep_level child) list_def_level
                            child_def_levels child_rep_levels
  | StructOf children struct_def_level _ _ =>
      streams ← mapM GetDefLevels children;
      StructImpl_GetDefLevels struct_def_level streams
  end.

(** The rest of [ListImpl::NextBatch] once the child has given an array:
    [t] is the list reader after the child's read. *)
Definition ListImpl_assemble (t child : Impl)
           (list_def_level list_rep_level min_space_def_level : Z)
           (child_array : Array) : Result :=
  match GetDefLevels t, GetDefLevels child, GetRepLevels child with
  | Some def_levels_data, Some child_def_levels, Some child_rep_levels =>
      let '(bits, null_count) :=
        list_null_bits list_def_level min_space_def_level def_levels_data in
      match RepLevelsToOffsetsArray list_def_level list_rep_level
                                    min_space_def_level def_levels_data
                                    child_def_levels child_rep_levels with
      | Some offsets =>
          Batch (ListArray (Z.of_nat (length offsets) - 1) offsets child_array
                           (null_bitmap_of bits null_count) null_count)
      | None => Undefined
      end
  | _, _, _ => Undefined
  end.

(** The rest of [StructImpl::NextBatch] once every child has given an
    array: [t] is the struct reader after the children's reads. *)
Definition StructImpl_assemble (t : Impl) (struct_def_level top_parent_def_level : Z)
           (children_arrays : list Array) : Result :=
  match GetDefLevels t with
  | Some def_levels_data =>
      let '(bits, null_count) :=
        struct_null_bits struct_def_level top_parent_def_level def_levels_data in
      match children_arrays with
      | first :: _ =>
          Batch (StructArray (array_length first) children_arrays
                             (null_bitmap_of bits null_count) null_count)
      | [] => Undefined       (* children_arrays[0] *)
      end
  | None => Undefined
  end.

(** The loop over the children in [StructImpl::NextBatch], [next] being
    a child's [NextBatch]: the arrays gathered, or what the first child
    without an array returned; the children behind that one are not
    asked. *)
Definition gather (next : Impl -> Result * Impl)
  : list Impl -> (Result + list Array) * list Impl :=
  fix gather (cs : list Impl) :=
    match cs with
    | [] => (inr [], [])
    | c :: cs' =>
        let '(r, c') := next c in
        match r with
        | Batch child_array =>
            let '(rest, cs'') := gather cs' in
            (match rest with
             | inr arrays => inr (child_array :: arrays)
             | inl stop => inl stop
             end, c' :: cs'')
        | other => (inl other, c' :: cs')
        end
    end.

(** [NextBatch], with the reader as it is left. *)
Fixpoint NextBatch (batch_size : Z) (t : Impl) : Result * Impl :=
  match t with
  | Primitive p =>
      let '(r, p') := PrimitiveImpl_NextBatch batch_size p in (r, Primitive p')
  | ListOf child list_def_level list_rep_level min_space_def_level =>
      let '(r, child') := NextBatch batch_size child in
      let t' := ListOf child' list_def_level list_rep_level min_space_def_level in
      match r with
      | Batch child_array =>
          (ListImpl_assemble t' child' list_def_level list_rep_level
                             min_space_def_level child_array, t')
      | other => (other, t')
      end
  | StructOf children struct_def_level struct_rep_level top_parent_def_level =>
      let '(r, children') := gather (NextBatch batch_size) children in
      let t' := StructOf children' struct_def_level struct_rep_level
                         top_parent_def_level in
      match r with
      | inr children_arrays =>
          (StructImpl_assemble t' struct_def_level top_parent_def_level
                               children_arrays, t')
      | inl stop => (stop, t')
      end
  end.

(** *** Readings of a reader tree *)

Fixpoint leaves (t : Impl) : list PrimitiveImpl :=
  match t with
  | Primitive p => [p]
  | ListOf child _ _ _ => leaves child
  | StructOf children _ _ _ => concat (leaves <$> children)
  end.

(** The column chunks a leaf has not finished: the one attached and those
    the iterator still holds. *)
Definition chunks_left (r : option ColumnReader) (it : FileColumnIterator)
  : list ColumnReader :=
  match r with
  | Some r => r :: pending_ it
  | None => pending_ it
  end.

Definition unread_in (chunks : list ColumnReader) : nat :=
  sum_list ((fun r => length (unread r)) <$> chunks).

Definition unread_levels (p : PrimitiveImpl) : nat :=
  unread_in (chunks_left (column_reader_ p) (input_ p)).

(** Every level of every leaf has been read. *)
Definition drained (t : Impl) : Prop :=
  Forall (fun p => unread_levels p = 0%nat) (leaves t).

(** A leaf without a chunk attached has an iterator without chunks: what
    the constructor sets up and every read keeps. *)
Definition attached (r : option ColumnReader) (it : FileColumnIterator) : Prop :=
  r = None -> pending_ it = [].

Definition leaf_attached (p : PrimitiveImpl) : Prop :=
  attached (column_reader_ p) (input_ p).

(** The fuel a loop state asks for, and the levels it has yet to read. *)
Definition fuel_of (st : ReadLoop) : nat := loop_fuel (loop_reader st) (loop_input st).
Definition unread_of (st : ReadLoop) : nat :=
  unread_in (chunks_left (loop_reader st) (loop_input st)).

(** The leaves a program can hold: made by the constructor, then read
    any number of times. *)
Inductive leaf_reachable : PrimitiveImpl -> Prop :=
| reach_new input descr type :
    leaf_reachable (new_PrimitiveImpl input descr type)
| reach_next batch_size p :
    leaf_reachable p ->
    leaf_reachable (PrimitiveImpl_NextBatch batch_size p).2.

(** A result that is an array, unless the behaviour is undefined. *)
Definition gives_array (r : Result) : Prop :=
  match r with Batch _ | Undefined => True | _ => False end.

(** The types [PrimitiveImpl::NextBatch] reads with one of the read loops. *)
Definition readable (type : TypeId) : bool :=
  match type with
  | NA | HALF_FLOAT | INTERVAL | DECIMAL | TIMESTAMP SECOND => false
  | _ => true
  end.

(** A leaf that a batch of [batch_size] reads to its end. *)
Definition leaf_ready (batch_size : Z) (p : PrimitiveImpl) : Prop :=
  leaf_attached p
  /\ readable (field_type p) = true
  /\ Z.of_nat (unread_levels p) <= batch_size.

(** One leaf before and after a read: still attached, no level handed
    back. *)
Definition leaf_step (p p' : PrimitiveImpl) : Prop :=
  leaf_attached p' /\ (unread_levels p' <= unread_levels p)%nat.

(** Every leaf has a column chunk attached. *)
Definition started (t : Impl) : Prop :=
  Forall (fun p => column_reader_ p <> None) (leaves t).

(** A batch of [batch_size] gives an array, short of undefined behaviour,
    and an array only with every level read. *)
Definition drains (batch_size : Z) (t : Impl) : Prop :=
  gives_array (NextBatch batch_size t).1
  /\ ((exists a, (NextBatch batch_size t).1 = Batch a) ->
      drained (NextBatch batch_size t).2).

(** The merge of position [i] of a struct's definition levels: the
    running maximum over the children's streams. *)
Definition merged_at (struct_def_level : Z) (i : nat) (start : Z)
           (streams : list (list Z)) : Z :=
  foldl (fun acc child_def_levels =>
           Z.max acc (Z.min (default 0 (child_def_levels !! i)) struct_def_level))
        start streams.

(** The merged definition levels of a struct that get a validity bit:
    those of a struct that is there, or null with its place there. *)
Definition slot_levels (struct_def_level top_parent_def_level : Z)
           (def_levels_data : list Z) : list Z :=
  filter (fun d => struct_def_level <= d \/ top_parent_def_level <= d)
         def_levels_data.

(** Consecutive entries do not decrease. *)
Definition non_decreasing (l : list Z) : Prop :=
  forall i x y, l !! i = Some x -> l !! S i = Some y -> x <= y.

(** A leaf over the given column chunks. *)
Definition leaf (type : TypeId) (descr : ColumnDescriptor)
           (chunks : list (list Level)) : Impl :=
  Primitive (new_PrimitiveImpl (mkIterator 0 (mkColumnReader <$> chunks)) descr type).

(** *** Example readers *)

(** [optional group xs (LIST) { repeated group list { optional int32
    element; } } }] holding the four records [null], [[]], [[1, null, 3]]
    and [[4]]; the physical reader gives a null slot to the level 2 of a
    null element. *)
Definition list_of_optional_ints : Impl :=
  ListOf (leaf INT32 (mkDescr 3 1 true true 2 (fun d => d =? 2))
               [[(0, 0); (1, 0); (3, 0); (2, 1); (3, 1); (3, 0)]])
         1 0 0.

(** [optional group xs (LIST) { repeated group list { optional group
    element { required binary k (UTF8); } } }] holding the one record
    [[null, {k: "a"}]]: the levels of [k] are (2,0) for the null struct
    and (3,1) for the value. *)
Definition list_of_optional_struct : Impl :=
  ListOf (StructOf [leaf STRING (mkDescr 3 1 false false 3 (fun _ => false))
                         [[(2, 0); (3, 1)]]]
                   3 1 2)
         1 0 0.

(** The struct reader of [optional group xs (LIST) { repeated group list
    { optional group element { required binary k (UTF8); optional
    fixed_len_byte_array(4) v; } } }] over the three records [null],
    [[null]] and [[{k: "a", v: "bbbb"}]]. *)
Definition struct_in_list_children : list Impl :=
  [leaf STRING (mkDescr 3 1 false false 3 (fun _ => false))
        [[(0, 0); (2, 0); (3, 0)]];
   leaf (FIXED_SIZE_BINARY 4) (mkDescr 4 1 true false 3 (fun _ => false))
        [[(0, 0); (2, 0); (4, 0)]]].

Definition struct_in_list : Impl := StructOf struct_in_list_children 3 1 2.

(** Its children after a batch of three. *)
Definition struct_in_list_children_read : list Impl :=
  (gather (NextBatch 3) struct_in_list_children).2.

End Reader.

(** ** FileReader::Impl *)

Module FileReader.
Import Reader.

(** [static_cast<int>] of a 64-bit value. *)
Definition to_int (z : Z) : Z := (z + 2 ^ 31) mod 2 ^ 32 - 2 ^ 31.

(** The inner loop of the full-file branch of [ReadSchemaField]: the
    values of one column over all the row groups. *)
Definition column_batch_size (reader : ParquetFileReader) (column_idx : Z) : Z :=
  foldl (fun column_batch_size j => column_batch_size + num_values reader j column_idx)
        0 (seq 0 (num_row_groups reader)).

(** [batch_size] as [ReadSchemaField] computes it for the top-level field
    [node]; a negative [row_group_index] asks for all the row groups. *)
Definition batch_size (reader : ParquetFileReader) (node : Z) (indices : list Z)
           (row_group_index : Z) : Z :=
  if row_group_index <? 0 then
    foldl (fun batch_size column_idx =>
             if GetColumnRoot reader column_idx =? node
             then Z.max batch_size (column_batch_size reader column_idx)
             else batch_size (* column doesn't belong to this tree *))
          0 indices
  else
    foldl (fun batch_size column_idx =>
             Z.max batch_size
                   (num_values reader (Z.to_nat row_group_index) column_idx))
          0 indices.

(** What [GetReaderForNode] gave for the field: an error, no reader (no
    requested column is under the field) or the reader tree. *)
Inductive Built :=
| BuildFailed (code : StatusCode) (msg : string)
| NoReader
| Built_ (reader_impl : Impl).

(** [ReadSchemaField(i, indices, out, row_group_index)], with the reader
    tree of the field as [GetReaderForNode] built it.  The tree as the
    read leaves it is returned along with the result. *)
Definition ReadSchemaField (reader : ParquetFileReader) (built : Built)
           (i : Z) (indices : list Z) (row_group_index : Z)
  : Result * option Impl :=
  match built with
  | BuildFailed code msg => (Failed code msg, None)
  | NoReader => (Exhausted, None)
  | Built_ reader_impl =>
      let '(r, t) :=
        NextBatch (to_int (batch_size reader i indices row_group_index))
                  reader_impl in
      (r, Some t)
  end.

(** Modelled from the spec: [ColumnIndicesToFieldIndices]
    (parquet/util/schema-util.h, not in this file) computes the requested
    top-level field indices from the column indices via the schema, each
    field once, and refuses a column index that is not in the schema. *)
Definition ColumnIndicesToFieldIndices (reader : ParquetFileReader)
           (indices : list Z) : option (list Z) :=
  if forallb (fun c => (0 <=? c) && (c <? num_columns reader)) indices
  then Some (foldl (fun out c =>
                      let field_idx := GetColumnRoot reader c in
                      if bool_decide (field_idx ∈ out) then out
                      else out ++ [field_idx])
                   [] indices)
  else None.

(** The sequential loop [for (i...) RETURN_NOT_OK(ReadColumnFunc(i))]. *)
Fixpoint read_columns (ReadColumnFunc : nat -> Status) (i n : nat) : Status :=
  match n with
  | O => OK
  | S n' =>
      match ReadColumnFunc i with
      | OK => read_columns ReadColumnFunc (S i) n'
      | err => err
      end
  end.

(** The common body of [ReadTable(indices, table)] and
    [ReadRowGroup(row_group_index, indices, out)].  [GetSchema] is the
    schema mapper's status on the indices and [read_field f] the status
    of the read of top-level field [f] ([ReadSchemaField] and the store
    of its column); [schedule] orders the workers when the read is
    parallel.  [None]: the schedule ends before the workers do. *)
Definition read_fields (reader : ParquetFileReader) (read_field : Z -> Status)
           (num_threads_ : Z) (schedule : list nat) (indices : list Z)
  : option Status :=
  match ColumnIndicesToFieldIndices reader indices with
  | None => Some (Error Invalid "Invalid column index")
  | Some field_indices =>
      let ReadColumnFunc (i : nat) : Status :=
        match field_indices !! i with
        | Some f => read_field f
        | None => OK
        end in
      let num_fields := length field_indices in
      let nthreads := Z.min num_threads_ (Z.of_nat num_fields) in
      if nthreads =? 1
      then Some (read_columns ReadColumnFunc 0 num_fields)
      else fst <$> ParallelFor.ParallelFor num_fields ReadColumnFunc
                                           (Z.to_nat nthreads) schedule
  end.

Definition ReadTable (reader : ParquetFileReader) (GetSchema : list Z -> Status)
           (read_field : Z -> Status) (num_threads_ : Z) (schedule : list nat)
           (indices : list Z) : option Status :=
  match GetSchema indices with
  | Error code msg => Some (Error code msg)
  | OK => read_fields reader read_field num_threads_ schedule indices
  end.


(** *** Two readings of "the batch size of a full-file read" *)

Definition Zsum (l : list Z) : Z := foldr Z.add 0 l.
Definition Zmax0 (l : list Z) : Z := foldr Z.max 0 l.

(** The requested leaf columns under the top-level field [node]. *)
Definition subtree_columns (reader : ParquetFileReader) (node : Z) (indices : list Z)
  : list Z :=
  filter (fun c => GetColumnRoot reader c = node) indices.

(** The maximum over the leaves of the subtree of the sum across the row
    groups of the column-chunk value count. *)
Definition max_of_sums (reader : ParquetFileReader) (node : Z) (indices : list Z) : Z :=
  Zmax0 ((fun c => Zsum ((fun j => num_values reader j c)
                            <$> seq 0 (num_row_groups reader)))
           <$> subtree_columns reader node indices).

(** The sum across the row groups of the maximum column-chunk value count
    over the leaves of the subtree. *)
Definition sum_of_maxima (reader : ParquetFileReader) (node : Z) (indices : list Z) : Z :=
  Zsum ((fun j => Zmax0 ((fun c => num_values reader j c)
                            <$> subtree_columns reader node indices))
          <$> seq 0 (num_row_groups reader)).

(** The file's metadata counts what its column chunks hold. *)
Definition metadata_consistent (reader : ParquetFileReader) : Prop :=
  forall j c, (j < num_row_groups reader)%nat ->
    num_values reader j c = Z.of_nat (length (unread (Column reader j c))).

(** A leaf as [GetColumn] makes it for a read of all the row groups. *)
Definition fresh_leaf (reader : ParquetFileReader) (column_index : Z)
           (descr : ColumnDescriptor) (type : TypeId) : PrimitiveImpl :=
  new_PrimitiveImpl (AllRowGroupsIterator column_index reader) descr type.

(** The leaves of a reader tree built for the top-level field [node] on
    all the row groups: fresh leaves of requested columns under the field,
    of types the read loops read. *)
Definition built_for (reader : ParquetFileReader) (node : Z) (indices : list Z)
           (t : Impl) : Prop :=
  Forall (fun p => exists c descr type,
              p = fresh_leaf reader c descr type
              /\ c ∈ indices
              /\ GetColumnRoot reader c = node
              /\ readable type = true)
         (leaves t).

(** *** An example file

    [required group s { required group a (LIST) { repeated group list {
    required int32 element; } } required group b (LIST) { ... } }] in
    two row groups of one record each: [a] has three elements in the
    first and one in the second, [b] one and three. *)
Definition crossed_levels (j : nat) (c : Z) : list Level :=
  if bool_decide (Z.of_nat j = c)
  then [(1, 0); (1, 1); (1, 1)]
  else [(1, 0)].

Definition crossed : ParquetFileReader :=
  mkFile 2 2 (fun _ => 0)
         (fun j c => Z.of_nat (length (crossed_levels j c)))
         (fun j c => mkColumnReader (crossed_levels j c)).

Definition element_descr : ColumnDescriptor :=
  mkDescr 1 1 false true 1 (fun _ => false).

Definition crossed_reader (type_of_b : TypeId) : Impl :=
  StructOf [ListOf (Primitive (fresh_leaf crossed 0 element_descr INT32)) 0 0 0;
            ListOf (Primitive (fresh_leaf crossed 1 element_descr type_of_b)) 0 0 0]
           0 0 0.

End FileReader.

(** ** PrimitiveImpl::WrapIntoListArray *)

Module Wrap.
Import Reader.

(** An [arrow::Field], by its nullability and the fields of its type. *)
#[local] Unset Elimination Schemes.
Inductive Field := mkField (nullable : bool) (children : list Field).
#[local] Set Elimination Schemes.

(** The walk down the field: the nullability of the field and of each
    only child below it; [None] at a type with more than one child. *)
Fixpoint walk_nullable (current_field : Field) : option (list bool) :=
  match current_field with
  | mkField n [] => Some [n]
  | mkField n [child] => cons n <$> walk_nullable child
  | mkField n _ => None
  end.

Fixpoint empty_def_levels (nullable : list bool) (list_depth : nat) (def_level : Z)
  : list Z :=
  match list_depth, nullable with
  | S depth', n :: nullable' =>
      let def_level := if n then def_level + 1 else def_level in
      def_level :: empty_def_levels nullable' depth' (def_level + 1)
  | _, _ => []
  end.

(** The builders, one of each kind per list level. *)
Record Builders := mkBuilders {
  offset_builders : list (list Z);
  valid_bits_builders : list (list bool);
  null_counts : list Z
}.

Definition append {A} (j : nat) (x : A) (builders : list (list A)) : list (list A) :=
  alter (fun b => b ++ [x]) j builders.

(** [offset_builders[j]->Append(...)] of either loop. *)
Definition append_offset (list_depth : nat) (values_offset : Z) (j : nat)
           (b : Builders) : Builders :=
  let offset :=
    if (S j =? list_depth)%nat then values_offset
    else Z.of_nat (length (default [] (offset_builders b !! S j))) in
  mkBuilders (append j offset (offset_builders b)) (valid_bits_builders b)
             (null_counts b).

(** The loop [for (j = rep_level; j < list_depth; j++)] with its two
    [break]s; [fuel] is [list_depth - j]. *)
Fixpoint open_lists (fuel : nat) (nullable : list bool) (empty_def_level : list Z)
         (list_depth : nat) (values_offset def_level : Z) (j : nat) (b : Builders)
  : Builders :=
  match fuel with
  | O => b
  | S fuel' =>
      let b := append_offset list_depth values_offset j b in
      let e := default 0 (empty_def_level !! j) in
      let n := default false (nullable !! j) in
      if (e - 1 =? def_level) && n then
        mkBuilders (offset_builders b) (append j false (valid_bits_builders b))
                   (alter Z.succ j (null_counts b))
      else
        let b := mkBuilders (offset_builders b)
                            (append j true (valid_bits_builders b))
                            (null_counts b) in
        if e =? def_level then b
        else open_lists fuel' nullable empty_def_level list_depth values_offset
                        def_level (S j) b
  end.

(** The loop over the levels; [None] when a level is read past the end of
    its buffer or a negative repetition level indexes the builders. *)
Fixpoint levels_loop (max_repetition_level values_def_level : Z)
         (nullable : list bool) (empty_def_level : list Z) (list_depth : nat)
         (def_levels rep_levels : list Z) (n i : nat)
         (values_offset : Z) (b : Builders) : option (Z * Builders) :=
  match n with
  | O => Some (values_offset, b)
  | S n' =>
      match def_levels !! i, rep_levels !! i with
      | Some def_level, Some rep_level =>
          if rep_level <? 0 then None
          else
            let b :=
              if rep_level <? max_repetition_level
              then open_lists (list_depth - Z.to_nat rep_level) nullable
                              empty_def_level list_depth values_offset def_level
                              (Z.to_nat rep_level) b
              else b in
            let values_offset :=
              if values_def_level <=? def_level then values_offset + 1
              else values_offset in
            levels_loop max_repetition_level values_def_level nullable
                        empty_def_level list_depth def_levels rep_levels
                        n' (S i) values_offset b
      | _, _ => None
      end
  end.

(** "Add the final offset to all lists", [j] upwards. *)
Fixpoint final_offsets (fuel : nat) (list_depth : nat) (values_offset : Z) (j : nat)
         (b : Builders) : Builders :=
  match fuel with
  | O => b
  | S fuel' =>
      final_offsets fuel' list_depth values_offset (S j)
                    (append_offset list_depth values_offset j b)
  end.

(** The last loop, [j] from [list_depth - 1] down to [0]: [output]
    wrapped in one [ListArray] per list level; [j] counts the levels
    left. *)
Fixpoint wrap_output (j : nat) (b : Builders) (output : Array) : Array :=
  match j with
  | O => output
  | S j' =>
      let offsets := default [] (offset_builders b !! j') in
      wrap_output j' b
        (ListArray (Z.of_nat (length offsets) - 1) offsets output
                   (Some (default [] (valid_bits_builders b !! j')))
                   (default 0 (null_counts b !! j')))
  end.

(** The outcome of a call: the status, the array behind the
    out-parameter [array] when the call returns, and the local [output]
    the call had built when it returned [OK]. *)
Inductive Outcome :=
| Returned (s : Status) (array : option Array) (output : option Array)
| WrapUndefined.

(** [WrapIntoListArray(def_levels, rep_levels, total_levels_read, array)].
    [schema_status] and [current_field] are what [FromParquetSchema] gave
    for the column. *)
Definition WrapIntoListArray (descr : ColumnDescriptor)
           (schema_status : Status) (current_field : Field)
           (def_levels rep_levels : list Z) (total_levels_read : nat)
           (array : option Array) : Outcome :=
  match schema_status with
  | Error code msg => Returned (Error code msg) array None
  | OK =>
      if 0 <? max_repetition_level descr then
        match walk_nullable current_field with
        | None =>
            Returned (Error NotImplemented
                            "Fields with more than one child are not supported.")
                     array None
        | Some nullable =>
            let list_depth := (length nullable - 1)%nat in
            let values_def_level :=
              if default false (last nullable)
              then max_definition_level descr - 1
              else max_definition_level descr in
            let empty_def_level := empty_def_levels nullable list_depth 0 in
            let b0 := mkBuilders (replicate list_depth []) (replicate list_depth [])
                                 (replicate list_depth 0) in
            match levels_loop (max_repetition_level descr) values_def_level
                              nullable empty_def_level list_depth
                              def_levels rep_levels total_levels_read 0 0 b0 with
            | None => WrapUndefined
            | Some (values_offset, b) =>
                let b := final_offsets list_depth list_depth values_offset 0 b in
                match array, list_depth with
                | None, S _ => WrapUndefined        (* output->type() on nullptr *)
                | None, O => Returned OK array None
                | Some a, _ =>
                    let output := wrap_output list_depth b a in
                    (* //*array = output; *)
                    Returned OK array (Some output)
                end
            end
        end
      else Returned OK array None
  end.

(** The array [depth] list levels below [a]. *)
Fixpoint unwrap (depth : nat) (a : Array) : option Array :=
  match depth with
  | O => Some a
  | S depth' =>
      match a with
      | ListArray _ _ values _ _ => unwrap depth' values
      | _ => None
      end
  end.

End Wrap.

(** ** Readings of the workers of ParallelFor *)

Module Workers.
Import ParallelFor.



(** What the counter guarantees after any number of steps: the tasks are
    handed out in order, each once; while no error is stored, a worker has
    only left the loop past the last task, and a task handed out has
    succeeded unless a worker is still at it. *)
Record handed_out (num_tasks : nat) (func : nat -> Status)
       (st : state) (trace : list event) : Prop := mkHandedOut {
  ho_claimed : claimed trace = seq 0 (Nat.min (task_counter st) num_tasks);
  ho_finished : error_occurred st = false ->
                Finished ∈ thread_pool st -> (num_tasks < task_counter st)%nat;
  ho_ok : error_occurred st = false ->
          forall task_id, task_id ∈ claimed trace ->
            ok (func task_id) = true
            \/ Running task_id ∈ thread_pool st
            \/ exists s, Reporting s ∈ thread_pool st
}.

End Workers.

(** ** Readings of a leaf read *)

Module LeafReads.
Import Reader.

(** The levels a leaf has yet to read, in the order it will read them:
    those of the chunk attached, then those of the chunks the iterator
    still holds. *)
Definition levels_of (chunks : list ColumnReader) : list Level :=
  concat (unread <$> chunks).

Definition levels_left (p : PrimitiveImpl) : list Level :=
  levels_of (chunks_left (column_reader_ p) (input_ p)).

Definition levels_left_of (st : ReadLoop) : list Level :=
  levels_of (chunks_left (loop_reader st) (loop_input st)).

(** The slot [ReadBatchSpaced] writes for a level: a value ([Some true]),
    a null ([Some false]) or none. *)
Definition spaced_slot (descr : ColumnDescriptor) (l : Level) : option bool :=
  if is_slot descr l then Some (is_value descr l) else None.

(** The slot the read path of a type writes for a level of a column with
    definition levels. *)
Definition slot_of (type : TypeId) (descr : ColumnDescriptor) : Level -> option bool :=
  match type with
  | STRING | BINARY => byte_array_slot descr
  | FIXED_SIZE_BINARY _ => flba_slot descr
  | _ => spaced_slot descr
  end.


(** The read paths look at the definition level only. *)
Definition def_slot (type : TypeId) (descr : ColumnDescriptor) (def_level : Z)
  : option bool :=
  slot_of type descr (def_level, 0).

(** An optional flat column ([optional int32 x]) in two row groups, with
    the values [1, null] and [3, 4]; the physical reader gives a null its
    slot. *)
Definition optional_ints : PrimitiveImpl :=
  new_PrimitiveImpl (mkIterator 0 [mkColumnReader [(1, 0); (0, 0)];
                                   mkColumnReader [(1, 0); (1, 0)]])
                    (mkDescr 1 0 true false 0 (fun _ => true)) INT32.


End LeafReads.

(** ** FileReader::Impl: the column readers it makes *)

Module Columns.
Import Reader FileReader.

(** The schema as the readers ask it of the file: the descriptor of a
    leaf column ([schema()->Column(i)]) and the type of the field
    [NodeToField] makes of its node. *)
Record SchemaDescriptor := mkSchema {
  descr_of : Z -> ColumnDescriptor;
  type_of : Z -> TypeId
}.

(** [GetColumn(i, out, row_group_index)]: a leaf reader over all the row
    groups for a negative [row_group_index], over the one row group
    otherwise. *)
Definition GetColumn (reader : ParquetFileReader) (schema : SchemaDescriptor)
           (i : Z) (row_group_index : Z) : PrimitiveImpl :=
  let iterator :=
    if row_group_index <? 0
    then AllRowGroupsIterator i reader
    else SingleRowGroupIterator i (Z.to_nat row_group_index) reader in
  new_PrimitiveImpl iterator (descr_of schema i) (type_of schema i).

(** [ReadColumn(i, out)]: one batch as large as the metadata says the
    column is. *)
Definition ReadColumn (reader : ParquetFileReader) (schema : SchemaDescriptor) (i : Z)
  : Result * PrimitiveImpl :=
  let batch_size :=
    foldl (fun batch_size j => batch_size + num_values reader j i)
          0 (seq 0 (num_row_groups reader)) in
  PrimitiveImpl_NextBatch (to_int batch_size) (GetColumn reader schema i (-1)).

(** The schema of the example file [crossed]: two columns of 32-bit
    integers, the elements of two lists. *)
Definition crossed_schema : SchemaDescriptor :=
  mkSchema (fun _ => element_descr) (fun _ => INT32).

End Columns.

(** ** FileReader::Impl::GetReaderForNode *)

Module Nodes.
Import Reader FileReader Columns.

(** A node of the Parquet schema ([parquet::schema::Node]), as far as
    [GetReaderForNode] looks at it.  A primitive node carries the index
    the schema gives it ([schema()->ColumnIndex]). *)
Inductive Repetition := REQUIRED | OPTIONAL | REPEATED.

Inductive LogicalType := NONE | MAP | MAP_KEY_VALUE | LIST | OTHER.

#[local] Unset Elimination Schemes.
Inductive Node :=
| PrimitiveNode (repetition : Repetition) (column_index : Z)
| GroupNode (repetition : Repetition) (logical_type : LogicalType)
            (fields : list Node).
#[local] Set Elimination Schemes.

Definition is_required (node : Node) : bool :=
  match node with
  | PrimitiveNode REQUIRED _ | GroupNode REQUIRED _ _ => true
  | _ => false
  end.

(** The loop over the fields of a struct, [build] being the call of
    [GetReaderForNode] on a field: the readers of the fields that have
    one, in the order of the fields; [None] when a call is undefined. *)
Definition collect (build : Node -> option (option Impl))
  : list Node -> option (list Impl) :=
  fix collect (fields : list Node) :=
    match fields with
    | [] => Some []
    | field :: fields' =>
        child_reader ← build field;
        children ← collect fields';
        Some (match child_reader with
              | Some child => child :: children
              | None => children
              end)
    end.

(** Every struct reader of a tree has a child. *)
Fixpoint has_children (t : Impl) : bool :=
  match t with
  | Primitive _ => true
  | ListOf child _ _ _ => has_children child
  | StructOf children _ _ _ =>
      match children with [] => false | _ :: _ => forallb has_children children end
  end.

Section GetReaderForNode.
Variable reader : ParquetFileReader.
Variable schema : SchemaDescriptor.
(** [IsStruct] (parquet/util/schema-util.h) and
    [GetTopNonRepeatedParentLevel] are not in this file. *)
Variable IsStruct : Node -> bool.
Variable GetTopNonRepeatedParentLevel : Node -> Z -> Z.
Variable indices : list Z.
Variable row_group_index : Z.

(** [GetReaderForNode(node, indices, parent_def_level, parent_rep_level,
    out, row_group_index)].  The status is always [OK]; the result is
    [*out]: [Some None] for [nullptr], and [None] when the call is
    undefined (a group that is not a struct without a first field that is
    a group, or a list whose repeated group has no field).  The levels are
    [int16_t] where the source narrows them. *)
Fixpoint GetReaderForNode (node : Node) (parent_def_level parent_rep_level : Z)
  : option (option Impl) :=
  let def_level :=
    if is_required node then parent_def_level else parent_def_level + 1 in
  match node with
  | PrimitiveNode _ column_index =>
      if bool_decide (column_index ∈ indices)
      then Some (Some (Primitive (GetColumn reader schema column_index row_group_index)))
      else Some None
  | GroupNode _ logical_type fields =>
      if IsStruct node then
        children ← collect (fun field =>
                              GetReaderForNode field (to_int16 def_level)
                                               parent_rep_level) fields;
        Some (match children with
              | [] => None
              | _ :: _ =>
                  Some (StructOf children (to_int16 def_level) parent_rep_level
                                 (GetTopNonRepeatedParentLevel node (to_int16 def_level)))
              end)
      else
        match fields with
        | (GroupNode _ _ rep_fields as rep_group) :: _ =>
            child_reader ←
              match logical_type with
              | LIST =>
                  match rep_fields with
                  | element_node :: _ =>
                      (* Repeated level always increases max def level *)
                      let list_def_level := to_int16 (def_level + 1) in
                      GetReaderForNode element_node list_def_level
                                       (to_int16 (parent_rep_level + 1))
                  | [] => None
                  end
              | _ =>
                  (* The repeated group is itself a struct *)
                  GetReaderForNode rep_group (to_int16 def_level)
                                   (to_int16 (parent_rep_level + 1))
              end;
            Some (match child_reader with
                  | Some child =>
                      Some (ListOf child (to_int16 def_level) parent_rep_level
                                   (GetTopNonRepeatedParentLevel node
                                                                 (to_int16 def_level)))
                  | None => None
                  end)
        | _ => None
        end
  end.

(** The leaf columns the walk of [GetReaderForNode] comes to below a
    node, in the order it comes to them. *)
Fixpoint reached (node : Node) : list Z :=
  match node with
  | PrimitiveNode _ column_index => [column_index]
  | GroupNode _ logical_type fields =>
      if IsStruct node then concat (reached <$> fields)
      else
        match fields with
        | (GroupNode _ _ rep_fields as rep_group) :: _ =>
            match logical_type with
            | LIST =>
                match rep_fields with
                | element_node :: _ => reached element_node
                | [] => []
                end
            | _ => reached rep_group
            end
        | _ => []
        end
  end.

(** What the reader built for a node holds ([None]: no reader): a leaf
    for each requested column the walk comes to, in that order, and no
    struct without children. *)
Definition covers (node : Node) (built : option Impl) : Prop :=
  from_option leaves [] built
  = (fun c => GetColumn reader schema c row_group_index)
      <$> filter (fun c => c ∈ indices) (reached node)
  /\ from_option has_children true built = true.


End GetReaderForNode.

(** The schema of the example file [crossed], [required group s {
    required group a (LIST) { repeated group list { required int32
    element; } } required group b (LIST) { ... } }], with a reading of
    [IsStruct] that takes the groups without a logical type for structs. *)
Definition crossed_node : Node :=
  GroupNode REQUIRED NONE
    [GroupNode REQUIRED LIST [GroupNode REPEATED NONE [PrimitiveNode REQUIRED 0]];
     GroupNode REQUIRED LIST [GroupNode REPEATED NONE [PrimitiveNode REQUIRED 1]]].

Definition plain_group (node : Node) : bool :=
  match node with
  | GroupNode _ NONE _ => true
  | _ => false
  end.

End Nodes.

(** ** Readings of the level streams *)

Module LevelStreams.
Import Reader.

(** The lists a child's repetition levels tell apart: one for the first
    level and one for each later level below the child's maximal
    repetition level, which starts a new list. *)
Definition lists_started (child_max_repetition : Z) (child_rep_levels : list Z) : nat :=
  match child_rep_levels with
  | [] => 0
  | _ :: rest => S (length (filter (fun r => r < child_max_repetition) rest))
  end.

(** The merge of position [i] of a struct's repetition levels: the
    running minimum over the children's streams. *)
Definition min_at (i : nat) (start : Z) (streams : list (list Z)) : Z :=
  foldl (fun acc child_rep_levels => Z.min acc (default 0 (child_rep_levels !! i)))
        start streams.

(** What the levels of a column of list elements look like when the
    lists are written as Parquet encodes them: a level that goes on with
    a list (its repetition level is the element's maximal one) is defined
    above the list's definition level, and so is the level before it; a
    level at or below the list's, which stands for an empty or a null
    list, stands alone.  The reader does not check this. *)
Fixpoint elements_defined (child_max_repetition list_def_level : Z)
         (levels : list Level) : bool :=
  match levels with
  | l :: rest =>
      match rest with
      | l' :: _ =>
          (if child_max_repetition <=? l'.2
           then (list_def_level <? l.1) && (list_def_level <? l'.1)
           else true)
          && elements_defined child_max_repetition list_def_level rest
      | [] => true
      end
  | [] => true
  end.

(** The same, level by level. *)
Definition continued_above (child_max_repetition list_def_level : Z)
           (levels : list Level) : Prop :=
  forall i l l',
    levels !! i = Some l -> levels !! S i = Some l' ->
    child_max_repetition <= l'.2 ->
    list_def_level < l.1 /\ list_def_level < l'.1.

(** The element column of [optional group xs (LIST) { repeated group
    list { optional int32 element; } } }] with the records [null],
    [[1, 2, null]] and [[]]. *)
Definition int_lists : PrimitiveImpl :=
  new_PrimitiveImpl
    (mkIterator 0 [mkColumnReader [(0, 0); (3, 0); (3, 1); (2, 1); (1, 0)]])
    (mkDescr 3 1 true true 2 (fun d => d =? 2)) INT32.

End LevelStreams.

(** ** Dates: [ReadNonNullableBatch<::arrow::Date64Type, Int32Type>] *)

Module Dates.
Import Timestamp.

Definition int32 (z : Z) : Prop := - 2 ^ 31 <= z < 2 ^ 31.

(** [static_cast<int64_t>(values[i]) * 86400000]: the days of a 32-bit
    date as milliseconds, in [int64_t]. *)
Definition date32_to_milliseconds (days : Z) : Z := to_int64 (days * 86400000).

(** The loop that converts the values read into the data buffer, from
    slot [out_ptr] on. *)
Fixpoint write_milliseconds (values : list Z) (out_ptr : nat) (buf : list Z) : list Z :=
  match values with
  | [] => buf
  | v :: values' =>
      write_milliseconds values' (S out_ptr) (<[out_ptr := date32_to_milliseconds v]> buf)
  end.

Definition ReadNonNullableBatch_Date64 (values : list Z) (st : DataBuffer) : DataBuffer :=
  {| data_buffer_ := write_milliseconds values (valid_bits_idx_ st) (data_buffer_ st);
     valid_bits_idx_ := (valid_bits_idx_ st + length values)%nat |}.

End Dates.

(** * Properties of the reader *)

Section TimestampFacts.
Import Timestamp.

Lemma to_int64_range z : int64 (to_int64 z).
Proof. unfold int64, to_int64. pose proof (Z.mod_pos_bound (z + 2 ^ 63) (2 ^ 64)). lia. Qed.

Lemma to_int64_id z : int64 z -> to_int64 z = z.
Proof. unfold int64, to_int64. intros H. rewrite Z.mod_small; lia. Qed.

Lemma to_int64_congr x y : x mod 2 ^ 64 = y mod 2 ^ 64 -> to_int64 x = to_int64 y.
Proof.
  intros H. unfold to_int64.
  rewrite (Z.add_mod x), (Z.add_mod y), H by lia. reflexivity.
Qed.

Lemma to_int64_mod z : to_int64 z mod 2 ^ 64 = z mod 2 ^ 64.
Proof.
  unfold to_int64.
  rewrite Zminus_mod, Z.mod_mod by lia.
  rewrite <- Zminus_mod. f_equal. lia.
Qed.

Lemma to_int64_add x y : to_int64 (to_int64 x + to_int64 y) = to_int64 (x + y).
Proof.
  apply to_int64_congr.
  rewrite Z.add_mod, !to_int64_mod, <- Z.add_mod by lia. reflexivity.
Qed.

Lemma to_int64_mul_l x k : to_int64 (to_int64 x * k) = to_int64 (x * k).
Proof.
  apply to_int64_congr.
  rewrite Z.mul_mod, to_int64_mod, <- Z.mul_mod by lia. reflexivity.
Qed.

Lemma lor_shifted a b n :
  0 <= n -> 0 <= a < 2 ^ n -> Z.lor a (b * 2 ^ n) = a + b * 2 ^ n.
Proof.
  intros Hn Ha.
  assert (Hland : Z.land a (b * 2 ^ n) = 0).
  { apply Z.bits_inj'; intros k Hk. rewrite Z.land_spec, Z.bits_0.
    destruct (Z.lt_ge_cases k n).
    - rewrite Z.mul_pow2_bits_low by lia. apply andb_false_r.
    - replace (Z.testbit a k) with false; [reflexivity|].
      symmetry. apply Z.testbit_false; [lia|].
      rewrite Z.div_small; [reflexivity|].
      split; [lia|]. apply Z.lt_le_trans with (2 ^ n); [lia|].
      apply Z.pow_le_mono_r; lia. }
  rewrite <- Z.lxor_lor, <- Z.add_nocarry_lxor; auto.
Qed.

Lemma bits_sum t :
  Int96_wf t -> bits t = value0 t + 2 ^ 32 * value1 t + 2 ^ 64 * value2 t.
Proof.
  intros (H0 & H1 & H2). unfold bits, uint32 in *.
  rewrite !Z.shiftl_mul_pow2 by lia.
  rewrite (lor_shifted (value1 t * 2 ^ 32) (value2 t) 64) by lia.
  replace (value1 t * 2 ^ 32 + value2 t * 2 ^ 64)
    with ((value1 t + value2 t * 2 ^ 32) * 2 ^ 32) by lia.
  rewrite lor_shifted by lia. lia.
Qed.

Lemma days_since_julian_value2 t : Int96_wf t -> days_since_julian t = value2 t.
Proof.
  intros H. unfold days_since_julian. rewrite bits_sum by assumption.
  destruct H as (H0 & H1 & H2). unfold uint32 in *.
  rewrite Z.shiftr_div_pow2 by lia.
  replace (value0 t + 2 ^ 32 * value1 t + 2 ^ 64 * value2 t)
    with ((value0 t + 2 ^ 32 * value1 t) + value2 t * 2 ^ 64) by lia.
  rewrite Z.div_add by lia. rewrite Z.div_small; lia.
Qed.

Lemma nanos_of_day_words t :
  Int96_wf t -> nanos_of_day t = to_int64 (value0 t + Z.shiftl (value1 t) 32).
Proof.
  intros H. unfold nanos_of_day. rewrite bits_sum by assumption.
  destruct H as (H0 & H1 & H2). unfold uint32 in *.
  rewrite Z.land_ones, Z.shiftl_mul_pow2 by lia.
  apply to_int64_congr. rewrite Z.mod_mod by lia.
  replace (value0 t + 2 ^ 32 * value1 t + 2 ^ 64 * value2 t)
    with ((value0 t + value1 t * 2 ^ 32) + value2 t * 2 ^ 64) by lia.
  apply Z.mod_add. lia.
Qed.

Lemma impala_timestamp_wraps t :
  Int96_wf t ->
  impala_timestamp_to_nanoseconds t
  = to_int64 ((days_since_julian t - 2440588) * 86400000000000 + nanos_of_day t).
Proof.
  intros H. unfold impala_timestamp_to_nanoseconds.
  rewrite days_since_julian_value2, nanos_of_day_words by assumption.
  rewrite to_int64_mul_l, to_int64_add.
  apply to_int64_congr.
  change kJulianToUnixEpochDays with 2440588.
  change kNanosecondsInADay with 86400000000000.
  rewrite (Z.add_mod _ (to_int64 _)), to_int64_mod, <- Z.add_mod by lia.
  reflexivity.
Qed.

Lemma write_converted_below values : forall out_ptr buf j,
  (j < out_ptr)%nat -> write_converted values out_ptr buf !! j = buf !! j.
Proof.
  induction values as [|v values IH]; intros out_ptr buf j Hj; simpl; [reflexivity|].
  rewrite IH by lia. apply list_lookup_insert_ne. lia.
Qed.

Lemma write_converted_length values : forall out_ptr buf,
  length (write_converted values out_ptr buf) = length buf.
Proof.
  induction values as [|v values IH]; intros; simpl; [reflexivity|].
  rewrite IH. apply length_insert.
Qed.

Lemma write_converted_at values : forall out_ptr buf i v,
  (out_ptr + length values <= length buf)%nat ->
  values !! i = Some v ->
  write_converted values out_ptr buf !! (out_ptr + i)%nat
  = Some (impala_timestamp_to_nanoseconds v).
Proof.
  induction values as [|w values IH]; intros out_ptr buf i v Hlen Hi; [discriminate|].
  simpl in *. destruct i as [|i]; simpl in Hi.
  - injection Hi as ->. rewrite Nat.add_0_r, write_converted_below by lia.
    apply list_lookup_insert_eq. lia.
  - replace (out_ptr + S i)%nat with (S out_ptr + i)%nat by lia.
    apply IH; [rewrite length_insert; lia | assumption].
Qed.

(** Claim C6.  Reading a nanosecond timestamp stored as INT96
    ([ReadNonNullableBatch<TimestampType, Int96Type>]) converts each value
    read into the data buffer as the int64
    [(days_since_julian - 2440588) * 86400000000000 + nanos_of_day], the days
    being the high 32 bits and the nanoseconds the low 64 bits of the
    value: the slot holds that number reduced to 64 bits, hence the number
    itself whenever it is an int64.  The value with days 2440589 and
    nanoseconds 1 gives 86400000000001. *)
Theorem int96_timestamp_nanoseconds (values : list Int96) (st : DataBuffer) :
  Forall Int96_wf values ->
  (valid_bits_idx_ st + length values <= length (data_buffer_ st))%nat ->
  valid_bits_idx_ (ReadNonNullableBatch_Int96 values st)
  = (valid_bits_idx_ st + length values)%nat
  /\ (forall i v,
        values !! i = Some v ->
        let nanoseconds :=
          (days_since_julian v - 2440588) * 86400000000000 + nanos_of_day v in
        data_buffer_ (ReadNonNullableBatch_Int96 values st)
          !! (valid_bits_idx_ st + i)%nat = Some (to_int64 nanoseconds)
        /\ (int64 nanoseconds -> to_int64 nanoseconds = nanoseconds))
  /\ (forall t,
        Int96_wf t -> days_since_julian t = 2440589 -> nanos_of_day t = 1 ->
        impala_timestamp_to_nanoseconds t = 86400000000001).
Proof.
  intros Hwf Hlen. split; [reflexivity|]. split.
  - intros i v Hv nanoseconds. split.
    + unfold ReadNonNullableBatch_Int96; simpl.
      rewrite (write_converted_at _ _ _ _ v) by assumption.
      f_equal. apply impala_timestamp_wraps.
      rewrite Forall_lookup in Hwf. eauto.
    + apply to_int64_id.
  - intros t Ht Hdays Hnanos.
    rewrite impala_timestamp_wraps, Hdays, Hnanos by assumption. reflexivity.
Qed.

Lemma int96_timestamp_nanoseconds_witness :
  Forall Int96_wf [mkInt96 1 0 2440589]
  /\ data_buffer_ (ReadNonNullableBatch_Int96 [mkInt96 1 0 2440589]
                                               (mkDataBuffer [0; 0] 1))
     !! 1%nat = Some 86400000000001
  /\ impala_timestamp_to_nanoseconds (mkInt96 1 0 2440589) = 86400000000001.
Proof.
  assert (Hwf : Forall Int96_wf [mkInt96 1 0 2440589]).
  { repeat constructor; simpl; lia. }
  assert (Hlen : (1 + 1 <= 2)%nat) by lia.
  destruct (int96_timestamp_nanoseconds
              [mkInt96 1 0 2440589] (mkDataBuffer [0; 0] 1) Hwf Hlen)
    as (_ & Hslot & Hex).
  split; [exact Hwf|]. split.
  - exact (proj1 (Hslot 0%nat (mkInt96 1 0 2440589) eq_refl)).
  - apply Hex; [repeat constructor; simpl; lia | reflexivity | reflexivity].
Defined.

End TimestampFacts.

Section ParallelForFacts.
Import ParallelFor.
Variable num_tasks : nat.
Variable func : nat -> Status.
Local Open Scope nat_scope.

Lemma reports_app tr evs : reports (tr ++ evs) = reports tr ++ reports evs.
Proof. apply omap_app. Qed.

Lemma late_claims_app tr evs : late_claims (tr ++ evs) = late_claims tr ++ late_claims evs.
Proof. apply omap_app. Qed.

Lemma claimed_app tr evs : claimed (tr ++ evs) = claimed tr ++ claimed evs.
Proof. unfold claimed, claims. rewrite omap_app. apply fmap_app. Qed.

Lemma failure_of_app tr evs s : failure_of func tr s -> failure_of func (tr ++ evs) s.
Proof.
  intros (Hok & t & Ht & Hs). split; [assumption|]. exists t. split; [|assumption].
  rewrite claimed_app. apply elem_of_app. by left.
Qed.

Lemma fetching_insert pool i p q :
  pool !! i = Some q ->
  fetching (<[i := p]> pool) + (if is_Fetching q then 1 else 0)
  = fetching pool + (if is_Fetching p then 1 else 0).
Proof.
  revert i. induction pool as [|x pool IH]; intros [|i] H; simpl in *; try discriminate.
  - injection H as ->. lia.
  - specialize (IH i H). lia.
Qed.

Lemma fetching_bound pool i q :
  pool !! i = Some q ->
  fetching pool + (if is_Fetching q then 0 else 1) <= length pool.
Proof.
  revert i. induction pool as [|x pool IH]; intros [|i] H; simpl in *; try discriminate.
  - injection H as ->.
    assert (fetching pool <= length pool).
    { clear. induction pool as [|y pool IH]; simpl; [lia|]. destruct (is_Fetching y); lia. }
    destruct (is_Fetching q); lia.
  - specialize (IH i H). destruct (is_Fetching x); lia.
Qed.

Lemma workers_insert (P : pc -> Prop) pool i p :
  Forall P pool -> P p -> Forall P (<[i := p]> pool).
Proof.
  intros Hall Hp. apply Forall_insert; assumption.
Qed.

Lemma step_invariant nthreads thread_id st trace st' evs :
  invariant func nthreads st trace ->
  step num_tasks func thread_id st = Some (st', evs) ->
  invariant func nthreads st' (trace ++ evs).
Proof.
  intros [Hpool Hclear Hset Hreports Hworkers] Hstep.
  unfold step in Hstep.
  destruct (thread_pool st !! thread_id) as [p|] eqn:Hp; [|discriminate].
  assert (Hmono : Forall (fun p => match p with
                                 | Running task_id => task_id ∈ claimed (trace ++ evs)
                                 | Reporting s => failure_of func (trace ++ evs) s
                                 | _ => True
                                 end) (thread_pool st)).
  { eapply Forall_impl; [exact Hworkers|]. intros [] H; simpl; auto.
    - rewrite claimed_app. apply elem_of_app. by left.
    - by apply failure_of_app. }
  assert (Hrep : Forall (failure_of func (trace ++ evs)) (reports trace)).
  { eapply Forall_impl; [exact Hreports|]. intros s H. by apply failure_of_app. }
  pose proof (fetching_insert (thread_pool st) thread_id) as Hins.
  pose proof (fetching_bound (thread_pool st) thread_id p Hp) as Hbound.
  destruct p as [| |task_id|s|]; simpl in Hstep.
  - (* the loop test *)
    destruct (error_occurred st) eqn:Hflag; injection Hstep as <- <-;
      rewrite app_nil_r in *; (split; simpl;
        [ rewrite length_insert; assumption
        | rewrite Hflag; try discriminate; auto
        | rewrite Hflag; try discriminate
        | assumption
        | apply workers_insert; [assumption | exact I] ]).
    intros _. destruct (Hset eq_refl) as [Hlast Hn]. split; [assumption|].
    specialize (Hins Finished AtLoop Hp). simpl in Hins. lia.
  - (* the counter *)
    destruct (num_tasks <=? task_counter st) eqn:Hcmp; injection Hstep as <- <-.
    + rewrite app_nil_r in *. split; simpl;
        [ rewrite length_insert; assumption | auto | | assumption
        | apply workers_insert; [assumption | exact I] ].
      intros Hflag. destruct (Hset Hflag) as [Hlast Hn]. split; [assumption|].
      specialize (Hins Finished Fetching Hp). simpl in Hins. lia.
    + split; simpl.
      * rewrite length_insert; assumption.
      * intros Hflag. destruct (Hclear Hflag) as [Hr Hl].
        rewrite reports_app, late_claims_app, Hr, Hl, Hflag. auto.
      * intros Hflag. destruct (Hset Hflag) as [Hlast Hn].
        unfold last_report in *. rewrite reports_app, late_claims_app, Hflag. simpl.
        rewrite app_nil_r, length_app. split; [assumption|].
        specialize (Hins (Running (task_counter st)) Fetching Hp). simpl in *. lia.
      * rewrite reports_app. simpl. rewrite app_nil_r. assumption.
      * apply workers_insert; [assumption|]. simpl.
        rewrite claimed_app. apply elem_of_app. right. simpl. apply list_elem_of_here.
  - (* the task *)
    destruct (ok (func task_id)) eqn:Hok; injection Hstep as <- <-;
      rewrite app_nil_r in *; (split; simpl;
        [ rewrite length_insert; assumption | auto | | assumption | ]).
    + intros Hflag. destruct (Hset Hflag) as [Hlast Hn]. split; [assumption|].
      specialize (Hins AtLoop (Running task_id) Hp). simpl in Hins. lia.
    + apply workers_insert; [assumption | exact I].
    + intros Hflag. destruct (Hset Hflag) as [Hlast Hn]. split; [assumption|].
      specialize (Hins (Reporting (func task_id)) (Running task_id) Hp).
      simpl in Hins. lia.
    + apply workers_insert; [assumption|]. simpl.
      rewrite Forall_lookup in Hworkers. specialize (Hworkers _ _ Hp). simpl in Hworkers.
      split; [assumption|]. exists task_id. auto.
  - (* the critical section *)
    injection Hstep as <- <-.
    rewrite Forall_lookup in Hworkers. pose proof (Hworkers _ _ Hp) as Hs. simpl in Hs.
    split; simpl.
    + rewrite length_insert; assumption.
    + discriminate.
    + intros _. unfold last_report. rewrite reports_app, late_claims_app. simpl.
      rewrite last_snoc, app_nil_r. split; [reflexivity|].
      specialize (Hins Finished (Reporting s) Hp). simpl in *.
      destruct (error_occurred st) eqn:Hflag.
      * destruct (Hset eq_refl) as [_ Hn]. lia.
      * destruct (Hclear eq_refl) as [_ ->]. simpl. lia.
    + rewrite reports_app. apply Forall_app. split; [assumption|].
      constructor; [|constructor]. by apply failure_of_app.
    + apply workers_insert; [assumption | exact I].
  - discriminate.
Qed.

Lemma run_invariant nthreads schedule : forall st trace,
  invariant func nthreads st trace ->
  invariant func nthreads (run num_tasks func schedule st trace).1
            (run num_tasks func schedule st trace).2.
Proof.
  induction schedule as [|thread_id schedule IH]; intros st trace Hinv; simpl; [assumption|].
  destruct (step num_tasks func thread_id st) as [[st' evs]|] eqn:Hstep.
  - apply IH. eapply step_invariant; eassumption.
  - apply IH. assumption.
Qed.

Lemma init_invariant nthreads : invariant func nthreads (init nthreads) [].
Proof.
  split; simpl.
  - apply length_replicate.
  - auto.
  - discriminate.
  - constructor.
  - apply Forall_replicate. exact I.
Qed.

(** Claim C8, as amended.  When [ParallelFor] returns, after all workers
    are joined, its status is the one stored last under the mutex ([OK]
    when none was stored); every stored status is the failure of a task
    that was claimed; and at most [nthreads - 1] tasks are claimed after
    the flag is set, by workers that had passed the loop test before. *)
Theorem parallel_for_reports_last_failure nthreads schedule r trace :
  ParallelFor num_tasks func nthreads schedule = Some (r, trace) ->
  r = default OK (last_report trace)
  /\ Forall (failure_of func trace) (reports trace)
  /\ length (late_claims trace) <= nthreads - 1.
Proof.
  unfold ParallelFor. intros H.
  pose proof (run_invariant nthreads schedule _ _ (init_invariant nthreads)) as Hinv.
  destruct (run num_tasks func schedule (init nthreads) []) as [st tr].
  destruct (joined st); [|discriminate]. injection H as <- <-.
  destruct Hinv as [Hpool Hclear Hset Hreports _]. simpl in *.
  destruct (error_occurred st).
  - destruct (Hset eq_refl) as [-> Hn]. repeat split; [assumption | lia].
  - destruct (Hclear eq_refl) as [Hr Hl]. unfold last_report. rewrite Hr, Hl.
    repeat split; [constructor | simpl; lia].
Qed.

End ParallelForFacts.

Section ParallelForExamples.
Import ParallelFor.

Lemma parallel_for_reports_last_failure_witness :
  ParallelFor 2 two_failures 2 overtaking
  = Some (Error Invalid "second",
          [Claim 0 0 false; Report 0 (Error IOError "first");
           Claim 1 1 true; Report 1 (Error Invalid "second")])
  /\ Error Invalid "second"
     = default OK (last_report
                     [Claim 0 0 false; Report 0 (Error IOError "first");
                      Claim 1 1 true; Report 1 (Error Invalid "second")])
  /\ (length (late_claims
                [Claim 0 0 false; Report 0 (Error IOError "first");
                 Claim 1 1 true; Report 1 (Error Invalid "second")])
      <= 2 - 1)%nat.
Proof.
  split; [reflexivity|].
  pose proof (parallel_for_reports_last_failure 2 two_failures 2 overtaking
                _ _ eq_refl) as (Hr & _ & Hl).
  split; [exact Hr | exact Hl].
Defined.

(** Claim C8 fails as stated: both tasks fail, the status returned is the
    one stored second, not the first to set the flag, and task 1 is
    claimed when the flag is already set. *)
Lemma parallel_for_first_error_lost :
  exists trace,
    ParallelFor 2 two_failures 2 overtaking = Some (Error Invalid "second", trace)
    /\ first_report trace = Some (Error IOError "first")
    /\ late_claims trace = [1%nat].
Proof. eexists. repeat split. Qed.

End ParallelForExamples.

Section LeafFacts.
Import Reader.

Lemma unread_in_cons r chunks :
  unread_in (r :: chunks) = (length (unread r) + unread_in chunks)%nat.
Proof. reflexivity. Qed.

Lemma loop_fuel_chunks r it :
  loop_fuel (Some r) it
  = S (S (length (unread r))
       + foldr (fun c n => S (length (unread c)) + n) 0 (pending_ it))%nat.
Proof. reflexivity. Qed.

(** The end of a loop body keeps the iterator attached and the unread
    levels, and costs no fuel; it gains fuel when the chunk is empty. *)
Lemma next_if_drained_spec r it :
  attached (next_if_drained r it).1 (next_if_drained r it).2
  /\ unread_in (chunks_left (next_if_drained r it).1 (next_if_drained r it).2)
     = unread_in (chunks_left (Some r) it)
  /\ (loop_fuel (next_if_drained r it).1 (next_if_drained r it).2
      <= loop_fuel (Some r) it)%nat
  /\ (unread r = [] ->
      loop_fuel (next_if_drained r it).1 (next_if_drained r it).2
      < loop_fuel (Some r) it)%nat.
Proof.
  unfold next_if_drained, HasNext, Next, attached, unread_in, chunks_left, loop_fuel.
  destruct (unread r) as [|l ls] eqn:Hr.
  - destruct (pending_ it) as [|r2 rest] eqn:Hp; simpl; rewrite ?Hp, ?Hr; simpl;
      repeat split; intros; try discriminate; try lia.
  - simpl. rewrite ?Hr. simpl. repeat split; intros; try discriminate; try lia.
Qed.

Lemma read_shrinks (v : Z) r :
  0 < v ->
  (length (drop (Z.to_nat v) (unread r)) <= length (unread r))%nat
  /\ (unread r <> [] ->
      length (drop (Z.to_nat v) (unread r)) < length (unread r))%nat.
Proof.
  intros Hv. rewrite length_drop. split; [lia|].
  intros Hne. destruct (unread r); [congruence|]. simpl. lia.
Qed.

(** What one pass of a loop body does to reader and iterator. *)
Lemma body_step (v : Z) r it :
  0 < v ->
  let r' := mkColumnReader (drop (Z.to_nat v) (unread r)) in
  let n := next_if_drained r' it in
  attached n.1 n.2
  /\ (unread_in (chunks_left n.1 n.2) + length (take (Z.to_nat v) (unread r))
      = unread_in (chunks_left (Some r) it))%nat
  /\ (loop_fuel n.1 n.2 < loop_fuel (Some r) it)%nat.
Proof.
  intros Hv r' n.
  destruct (next_if_drained_spec r' it) as (Hatt & Hun & Hle & Hlt).
  destruct (read_shrinks v r Hv) as (Hs1 & Hs2).
  fold n in Hatt, Hun, Hle, Hlt.
  split; [exact Hatt|]. split.
  - rewrite Hun. unfold chunks_left. rewrite !unread_in_cons. simpl.
    rewrite length_take, length_drop. lia.
  - rewrite loop_fuel_chunks in *. simpl in *.
    destruct (unread r) as [|l ls] eqn:Hr.
    + rewrite drop_nil in *. specialize (Hlt eq_refl). simpl in *. lia.
    + specialize (Hs2 ltac:(discriminate)). simpl in *. lia.
Qed.

Lemma loop_fuel_pos r it : (1 <= loop_fuel r it)%nat.
Proof. destruct r; simpl; lia. Qed.

Lemma length_omap_le {A B} (f : A -> option B) l : (length (omap f l) <= length l)%nat.
Proof. induction l as [|x l IH]; [reflexivity|]. csimpl. destruct (f x); simpl; lia. Qed.

(** With the fuel [loop_fuel] gives, the loop of [TypedReadBatch] comes to
    its end (or to the overflow of the level buffers), keeps the iterator
    attached and hands no level back. *)
Lemma typed_loop_exit descr B fuel : forall st,
  (fuel_of st <= fuel)%nat ->
  attached (loop_reader st) (loop_input st) ->
  match TypedReadBatch_loop fuel descr B st with
  | OutOfFuel => False
  | LoopUndefined => True
  | LoopExit st' =>
      attached (loop_reader st') (loop_input st')
      /\ (unread_of st' <= unread_of st)%nat
  end.
Proof.
  induction fuel as [|fuel IH]; intros st Hfuel Hatt.
  - pose proof (loop_fuel_pos (loop_reader st) (loop_input st)). unfold fuel_of in Hfuel. lia.
  - destruct st as [v seen bits idx nulls r it]. unfold fuel_of, unread_of in *.
    cbn [TypedReadBatch_loop loop_reader loop_input values_to_read] in *.
    destruct r as [r|]; [|split; [assumption | simpl; lia]].
    destruct (Z.leb_spec v 0) as [Hv|Hv]; [split; [assumption | simpl; lia]|].
    destruct (body_step v r it Hv) as (Hatt' & Hun & Hlt).
    destruct (max_definition_level descr =? 0); unfold ReadBatch, ReadBatchSpaced;
      cbn [levels_seen valid_bits valid_bits_idx_ null_count_ loop_input];
      [|destruct (_ <? _); [exact I|]];
      destruct (next_if_drained _ it) as [r' it'] eqn:Hnext; simpl in Hatt', Hun, Hlt, Hfuel;
      match goal with |- context [TypedReadBatch_loop fuel descr B ?st'] =>
        specialize (IH st' ltac:(simpl; lia) Hatt');
        destruct (TypedReadBatch_loop fuel descr B st') as [st''| |];
          [|exact I|exact IH]
      end;
      destruct IH as [Ha Hu]; (split; [exact Ha | simpl in *; lia]).
Qed.

Lemma builder_loop_exit slot descr fuel : forall st,
  (fuel_of st <= fuel)%nat ->
  attached (loop_reader st) (loop_input st) ->
  exists st',
    builder_loop fuel slot descr st = LoopExit st'
    /\ attached (loop_reader st') (loop_input st')
    /\ (unread_of st' <= unread_of st)%nat.
Proof.
  induction fuel as [|fuel IH]; intros st Hfuel Hatt.
  - pose proof (loop_fuel_pos (loop_reader st) (loop_input st)). unfold fuel_of in Hfuel. lia.
  - destruct st as [v seen bits idx nulls r it]. unfold fuel_of, unread_of in *.
    cbn [builder_loop loop_reader loop_input values_to_read] in *.
    destruct r as [r|]; [|eexists; split; [reflexivity|]; split; [assumption | simpl; lia]].
    destruct (Z.leb_spec v 0) as [Hv|Hv];
      [eexists; split; [reflexivity|]; split; [assumption | simpl; lia]|].
    destruct (body_step v r it Hv) as (Hatt' & Hun & Hlt).
    unfold ReadBatch.
    cbn [levels_seen valid_bits valid_bits_idx_ null_count_ loop_input].
    destruct (next_if_drained _ it) as [r' it'] eqn:Hnext; simpl in Hatt', Hun, Hlt, Hfuel.
    match goal with |- context [builder_loop fuel slot descr ?st'] =>
      destruct (IH st') as (st'' & Heq & Ha & Hu)
    end.
    { destruct (max_definition_level descr =? 0); simpl; lia. }
    { destruct (max_definition_level descr =? 0); exact Hatt'. }
    exists st''. split; [exact Heq|]. split; [exact Ha|].
    destruct (max_definition_level descr =? 0); simpl in *; lia.
Qed.

(** A batch as large as the levels left reads them all. *)
Lemma typed_loop_drains descr B fuel : forall st,
  (fuel_of st <= fuel)%nat ->
  attached (loop_reader st) (loop_input st) ->
  Z.of_nat (unread_of st) <= values_to_read st ->
  Z.of_nat (length (levels_seen st) + unread_of st) <= B ->
  exists st',
    TypedReadBatch_loop fuel descr B st = LoopExit st'
    /\ unread_of st' = 0%nat.
Proof.
  induction fuel as [|fuel IH]; intros st Hfuel Hatt Hv HB.
  - pose proof (loop_fuel_pos (loop_reader st) (loop_input st)). unfold fuel_of in Hfuel. lia.
  - destruct st as [v seen bits idx nulls r it]. unfold fuel_of, unread_of in *.
    cbn [TypedReadBatch_loop loop_reader loop_input values_to_read levels_seen] in *.
    destruct r as [r|].
    2: { eexists; split; [reflexivity|]. simpl. rewrite (Hatt eq_refl). reflexivity. }
    destruct (Z.leb_spec v 0) as [Hv0|Hv0].
    { eexists; split; [reflexivity|]. simpl in *. lia. }
    destruct (body_step v r it Hv0) as (Hatt' & Hun & Hlt).
    destruct (max_definition_level descr =? 0); unfold ReadBatch, ReadBatchSpaced;
      cbn [levels_seen valid_bits valid_bits_idx_ null_count_ loop_input].
    + destruct (next_if_drained _ it) as [r' it'] eqn:Hnext; simpl in Hatt', Hun, Hlt, Hfuel.
      apply IH; simpl in *; try assumption; lia.
    + destruct (Z.ltb_spec B (Z.of_nat (length seen + length (take (Z.to_nat v) (unread r)))))
        as [Hover|_].
      { destruct (next_if_drained _ it) as [r' it'] eqn:Hnext; simpl in *. lia. }
      destruct (next_if_drained _ it) as [r' it'] eqn:Hnext; simpl in Hatt', Hun, Hlt, Hfuel.
      pose proof (length_omap_le
                    (fun l => if is_slot descr l then Some (is_value descr l) else None)
                    (take (Z.to_nat v) (unread r))).
      apply IH; simpl in *; try assumption; rewrite ?length_app; lia.
Qed.

Lemma builder_loop_drains slot descr fuel : forall st,
  (fuel_of st <= fuel)%nat ->
  attached (loop_reader st) (loop_input st) ->
  Z.of_nat (unread_of st) <= values_to_read st ->
  exists st',
    builder_loop fuel slot descr st = LoopExit st'
    /\ unread_of st' = 0%nat.
Proof.
  induction fuel as [|fuel IH]; intros st Hfuel Hatt Hv.
  - pose proof (loop_fuel_pos (loop_reader st) (loop_input st)). unfold fuel_of in Hfuel. lia.
  - destruct st as [v seen bits idx nulls r it]. unfold fuel_of, unread_of in *.
    cbn [builder_loop loop_reader loop_input values_to_read levels_seen] in *.
    destruct r as [r|].
    2: { eexists; split; [reflexivity|]. simpl. rewrite (Hatt eq_refl). reflexivity. }
    destruct (Z.leb_spec v 0) as [Hv0|Hv0].
    { eexists; split; [reflexivity|]. simpl in *. lia. }
    destruct (body_step v r it Hv0) as (Hatt' & Hun & Hlt).
    unfold ReadBatch.
    cbn [levels_seen valid_bits valid_bits_idx_ null_count_ loop_input].
    destruct (next_if_drained _ it) as [r' it'] eqn:Hnext; simpl in Hatt', Hun, Hlt, Hfuel.
    apply IH; destruct (max_definition_level descr =? 0); simpl in *; try assumption; lia.
Qed.

Lemma TypedReadBatch_spec n p :
  leaf_attached p ->
  leaf_attached (TypedReadBatch n p).2
  /\ (unread_levels (TypedReadBatch n p).2 <= unread_levels p)%nat
  /\ gives_array (TypedReadBatch n p).1.
Proof.
  intros Hatt. unfold TypedReadBatch.
  pose proof (typed_loop_exit (descr_ p) n (loop_fuel (column_reader_ p) (input_ p))
                (start_loop n p) (Nat.le_refl _) Hatt) as H.
  destruct (TypedReadBatch_loop _ _ _ _) as [st| |]; simpl.
  - destruct H as [Ha Hu]. repeat split; assumption.
  - repeat split; [assumption | lia].
  - destruct H.
Qed.

Lemma builder_read_spec slot n p :
  leaf_attached p ->
  leaf_attached (builder_read slot n p).2
  /\ (unread_levels (builder_read slot n p).2 <= unread_levels p)%nat
  /\ gives_array (builder_read slot n p).1.
Proof.
  intros Hatt. unfold builder_read.
  destruct (builder_loop_exit slot (descr_ p) (loop_fuel (column_reader_ p) (input_ p))
              (start_loop n p) (Nat.le_refl _) Hatt) as (st & -> & Ha & Hu).
  simpl. repeat split; assumption.
Qed.

(** [PrimitiveImpl::NextBatch] keeps the leaf attached, hands no level
    back, and gives no array exactly when no chunk is attached. *)
Lemma PrimitiveImpl_NextBatch_spec n p :
  leaf_attached p ->
  leaf_attached (PrimitiveImpl_NextBatch n p).2
  /\ (unread_levels (PrimitiveImpl_NextBatch n p).2 <= unread_levels p)%nat
  /\ ((PrimitiveImpl_NextBatch n p).1 = Exhausted <-> column_reader_ p = None).
Proof.
  intros Hatt. unfold PrimitiveImpl_NextBatch.
  destruct (column_reader_ p) as [r|] eqn:Hr.
  2: { simpl. repeat split; auto. }
  assert (Hgives : forall res : Result * PrimitiveImpl,
             leaf_attached res.2 /\ (unread_levels res.2 <= unread_levels p)%nat
             /\ gives_array res.1 ->
             leaf_attached res.2 /\ (unread_levels res.2 <= unread_levels p)%nat
             /\ (res.1 = Exhausted <-> Some r = None)).
  { intros [res p'] (Ha & Hu & Hg). simpl in *. repeat split; try assumption.
    - intros ->. destruct Hg.
    - discriminate. }
  destruct (field_type p) as [| | | | | | | | | | | | | | | | | | [] | | | | ];
    first [ apply Hgives, TypedReadBatch_spec; assumption
          | apply Hgives, builder_read_spec; assumption
          | simpl; repeat split; auto; discriminate ].
Qed.

Lemma leaf_reachable_attached p : leaf_reachable p -> leaf_attached p.
Proof.
  induction 1 as [input descr type | n p _ IH].
  - unfold new_PrimitiveImpl, NextRowGroup, Next, leaf_attached, attached. simpl.
    destruct (pending_ input) eqn:Hp; simpl; [intros _; assumption | discriminate].
  - apply PrimitiveImpl_NextBatch_spec. assumption.
Qed.

Lemma ListImpl_assemble_gives t child ldl lrl ms a :
  gives_array (ListImpl_assemble t child ldl lrl ms a).
Proof.
  unfold ListImpl_assemble.
  destruct (GetDefLevels t), (GetDefLevels child), (GetRepLevels child); try exact I.
  destruct (list_null_bits _ _ _). destruct (RepLevelsToOffsetsArray _ _ _ _ _ _); exact I.
Qed.

Lemma StructImpl_assemble_gives t sdl top arrays :
  gives_array (StructImpl_assemble t sdl top arrays).
Proof.
  unfold StructImpl_assemble.
  destruct (GetDefLevels t); [|exact I].
  destruct (struct_null_bits _ _ _). destruct arrays; exact I.
Qed.

(** The loop over the children of a struct: either every child gave an
    array, or the loop stopped at the first child that gave none. *)
Lemma gather_spec next cs :
  match (gather next cs).1 with
  | inr arrays => Forall2 (fun c a => (next c).1 = Batch a) cs arrays
  | inl stop =>
      exists before c after,
        cs = before ++ c :: after
        /\ Forall (fun b => exists a, (next b).1 = Batch a) before
        /\ (next c).1 = stop
        /\ (forall a, stop <> Batch a)
  end.
Proof.
  induction cs as [|c cs IH]; simpl; [constructor|].
  destruct (next c) as [r c'] eqn:Hc.
  destruct r as [a| | |];
    try (simpl; exists [], c, cs; rewrite Hc; repeat split; [constructor | discriminate]).
  destruct (gather next cs) as [[stop|arrays] cs'']; simpl in *.
  - destruct IH as (before & c0 & after & -> & Hb & Hs & Hn).
    exists (c :: before), c0, after. repeat split; try assumption.
    constructor; [rewrite Hc; eauto | assumption].
  - constructor; [rewrite Hc; reflexivity | assumption].
Qed.



(** Claim C10.  [NextBatch(n)] on a leaf of the null type with a column
    chunk attached gives a null array of length [n] and leaves the leaf as
    it was: no level or value is read, however few are left. *)
Theorem null_leaf_next_batch_reads_nothing (n : Z) (p : PrimitiveImpl) (r : ColumnReader) :
  field_type p = NA ->
  column_reader_ p = Some r ->
  NextBatch n (Primitive p) = (Batch (NullArray n), Primitive p)
  /\ array_length (NullArray n) = n.
Proof.
  intros Hty Hr. cbn [NextBatch]. unfold PrimitiveImpl_NextBatch.
  rewrite Hr, Hty. split; reflexivity.
Qed.

Lemma null_leaf_next_batch_reads_nothing_witness :
  field_type (new_PrimitiveImpl (mkIterator 0 [mkColumnReader [(0, 0); (1, 0)]])
                                (mkDescr 1 0 true false 0 (fun _ => true)) NA)
  = NA
  /\ NextBatch 7 (Primitive
                    (new_PrimitiveImpl (mkIterator 0 [mkColumnReader [(0, 0); (1, 0)]])
                                       (mkDescr 1 0 true false 0 (fun _ => true)) NA))
     = (Batch (NullArray 7),
        Primitive
          (new_PrimitiveImpl (mkIterator 0 [mkColumnReader [(0, 0); (1, 0)]])
                             (mkDescr 1 0 true false 0 (fun _ => true)) NA))
  /\ unread_levels
       (new_PrimitiveImpl (mkIterator 0 [mkColumnReader [(0, 0); (1, 0)]])
                          (mkDescr 1 0 true false 0 (fun _ => true)) NA)
     = 2%nat.
Proof.
  split; [reflexivity|]. split; [|reflexivity].
  exact (proj1 (null_leaf_next_batch_reads_nothing
                  7 (new_PrimitiveImpl (mkIterator 0 [mkColumnReader [(0, 0); (1, 0)]])
                                       (mkDescr 1 0 true false 0 (fun _ => true)) NA)
                  (mkColumnReader [(0, 0); (1, 0)]) eq_refl eq_refl)).
Defined.


End LeafFacts.

Section StructLevels.
Import Reader.

Lemma fold_child_def_spec sdl child : forall n i result,
  (i + n <= length child)%nat -> (i + n <= length result)%nat ->
  exists result',
    fold_child_def sdl child n i result = Some result'
    /\ length result' = length result
    /\ forall j, result' !! j
         = if bool_decide (i <= j < i + n)%nat
           then (fun r => Z.max r (Z.min (default 0 (child !! j)) sdl)) <$> result !! j
           else result !! j.
Proof.
  induction n as [|n IH]; intros i result Hc Hr; simpl.
  - exists result. repeat split. intros j. case_bool_decide; [lia | reflexivity].
  - destruct (lookup_lt_is_Some_2 child i ltac:(lia)) as [cd Hcd].
    destruct (lookup_lt_is_Some_2 result i ltac:(lia)) as [r Hri].
    rewrite Hcd, Hri.
    destruct (IH (S i) (<[i := Z.max r (Z.min cd sdl)]> result)) as (res' & -> & Hlen & Hlk).
    { lia. } { rewrite length_insert. lia. }
    exists res'. split; [reflexivity|]. split; [by rewrite Hlen, length_insert|].
    intros j. rewrite Hlk.
    destruct (decide (j = i)) as [->|Hne].
    + rewrite bool_decide_eq_false_2 by lia. rewrite bool_decide_eq_true_2 by lia.
      rewrite list_lookup_insert_eq by lia. rewrite Hri, Hcd. reflexivity.
    + rewrite list_lookup_insert_ne by lia.
      repeat case_bool_decide; try lia; reflexivity.
Qed.

Lemma merge_children sdl (L : nat) : forall streams result,
  length result = L ->
  Forall (fun c => length c = L) streams ->
  exists merged,
    foldl (fun acc child_def_levels =>
             result_levels ← acc;
             fold_child_def sdl child_def_levels L 0 result_levels)
          (Some result) streams = Some merged
    /\ length merged = L
    /\ forall i v, result !! i = Some v ->
         merged !! i = Some (merged_at sdl i v streams).
Proof.
  induction streams as [|c streams IH]; intros result Hlen Hall; simpl.
  - exists result. auto.
  - apply Forall_cons in Hall as [Hc Hall].
    destruct (fold_child_def_spec sdl c L 0 result) as (res' & Hres & Hlen' & Hlk);
      [lia | lia |].
    rewrite Hres.
    destruct (IH res' ltac:(lia) Hall) as (merged & -> & Hm & Hat).
    exists merged. split; [reflexivity|]. split; [assumption|].
    intros i v Hv. apply Hat. rewrite Hlk, Hv.
    apply lookup_lt_Some in Hv. rewrite bool_decide_eq_true_2 by lia. reflexivity.
Qed.

(** Claim C4.  The merged definition levels of a struct reader, computed
    from its children's definition-level streams (of one length, as the
    source checks in debug builds), hold at each position [i] the maximum,
    from the sentinel [-1] on, of [min(child_def[i], struct_def_level)]
    over the children. *)
Theorem struct_def_levels_max_of_min
        children struct_def_level struct_rep_level top_parent_def_level
        first others :
  mapM GetDefLevels children = Some (first :: others) ->
  Forall (fun child_def_levels => length child_def_levels = length first) others ->
  exists merged,
    GetDefLevels (StructOf children struct_def_level struct_rep_level
                           top_parent_def_level) = Some merged
    /\ length merged = length first
    /\ forall i, (i < length first)%nat ->
         merged !! i
         = Some (foldl (fun acc child_def_levels =>
                          Z.max acc (Z.min (default 0 (child_def_levels !! i))
                                           struct_def_level))
                       (-1) (first :: others)).
Proof.
  intros Hstreams Hall. cbn [GetDefLevels]. rewrite Hstreams. simpl.
  destruct (merge_children struct_def_level (length first) (first :: others)
              (replicate (length first) (-1))) as (merged & Hm & Hlen & Hat).
  { apply length_replicate. }
  { constructor; [reflexivity | assumption]. }
  exists merged. split; [exact Hm|]. split; [assumption|].
  intros i Hi. apply (Hat i (-1)). apply lookup_replicate_2. assumption.
Qed.

Lemma struct_def_levels_max_of_min_witness :
  mapM GetDefLevels struct_in_list_children_read = Some ([0; 2; 3] :: [[0; 2; 4]])
  /\ Forall (fun child_def_levels => length child_def_levels = length [0; 2; 3])
            [[0; 2; 4]]
  /\ exists merged,
       GetDefLevels (StructOf struct_in_list_children_read 3 1 2) = Some merged
       /\ merged !! 1%nat = Some 2.
Proof.
  assert (Hstreams : mapM GetDefLevels struct_in_list_children_read
                     = Some ([0; 2; 3] :: [[0; 2; 4]])) by reflexivity.
  assert (Hall : Forall (fun child_def_levels : list Z =>
                           length child_def_levels = length [0; 2; 3])
                        [[0; 2; 4]]) by (repeat constructor).
  destruct (struct_def_levels_max_of_min struct_in_list_children_read 3 1 2
              [0; 2; 3] [[0; 2; 4]] Hstreams Hall) as (merged & Hm & _ & Hat).
  split; [exact Hstreams|]. split; [exact Hall|].
  exists merged. split; [exact Hm|]. exact (Hat 1%nat ltac:(simpl; lia)).
Defined.

End StructLevels.

Section NestedArrays.
Import Reader.

Lemma countb_cons {A} (f : A -> bool) x l :
  countb f (x :: l) = (if f x then 1 else 0) + countb f l.
Proof.
  unfold countb. rewrite filter_cons. destruct (f x) eqn:Hx.
  - rewrite decide_True by reflexivity. simpl. lia.
  - rewrite decide_False by discriminate. lia.
Qed.

Lemma countb_nonneg {A} (f : A -> bool) l : 0 <= countb f l.
Proof. unfold countb. lia. Qed.

Lemma countb_negb_zero bits : countb negb bits = 0 -> Forall (fun b => b = true) bits.
Proof.
  induction bits as [|b bits IH]; [constructor|].
  rewrite countb_cons. pose proof (countb_nonneg negb bits) as Hn.
  destruct b; simpl; intros H; [|lia]. constructor; [reflexivity | apply IH; lia].
Qed.

(** The bits [StructImpl::DefLevelsToNullArray] appends: one per level
    with a slot, set when the level reaches the struct's. *)
Lemma struct_null_bits_spec sdl top D :
  (struct_null_bits sdl top D).1
  = (fun d => bool_decide (sdl <= d)) <$> slot_levels sdl top D
  /\ (struct_null_bits sdl top D).2 = countb negb (struct_null_bits sdl top D).1.
Proof.
  unfold slot_levels. induction D as [|d D [IH1 IH2]]; [split; reflexivity|].
  simpl. destruct (struct_null_bits sdl top D) as [bits nc]. simpl in *.
  rewrite filter_cons.
  destruct (Z.ltb_spec d sdl); [destruct (Z.leb_spec top d)|].
  - rewrite decide_True by lia. rewrite fmap_cons, bool_decide_eq_false_2 by lia.
    simpl. rewrite IH1, countb_cons. simpl. rewrite IH2, IH1. split; [reflexivity | lia].
  - rewrite decide_False by lia. simpl. auto.
  - rewrite decide_True by lia. rewrite fmap_cons, bool_decide_eq_true_2 by lia.
    simpl. rewrite IH1, countb_cons. simpl. rewrite IH2, IH1. split; reflexivity.
Qed.

Lemma valid_bit_of_bits bits j b :
  bits !! j = Some b ->
  valid_bit (null_bitmap_of bits (countb negb bits)) j = Some b.
Proof.
  intros Hj. unfold null_bitmap_of.
  destruct (Z.eqb_spec (countb negb bits) 0) as [Hz|Hz]; [|exact Hj].
  simpl. apply countb_negb_zero in Hz. rewrite Forall_lookup in Hz.
  rewrite (Hz _ _ Hj). reflexivity.
Qed.

Lemma filter_all (P : Z -> Prop) `{!forall x, Decision (P x)} l :
  Forall P l -> filter P l = l.
Proof.
  induction 1 as [|x l Hx _ IH]; [reflexivity|].
  rewrite filter_cons_True by assumption. rewrite IH. reflexivity.
Qed.

Lemma gather_arrays next cs arrays cs' :
  gather next cs = (inr arrays, cs') ->
  Forall2 (fun c a => (next c).1 = Batch a) cs arrays
  /\ cs' = (fun c => (next c).2) <$> cs.
Proof.
  revert arrays cs'. induction cs as [|c cs IH]; intros arrays cs' H; simpl in H.
  - injection H as <- <-. split; [constructor | reflexivity].
  - destruct (next c) as [r c'] eqn:Hc. destruct r; try discriminate.
    destruct (gather next cs) as [[stop|rest] cs'']; [discriminate|].
    injection H as <- <-. destruct (IH rest cs'' eq_refl) as [HF ->].
    split; [constructor; [rewrite Hc; reflexivity | exact HF]|].
    rewrite fmap_cons, Hc. reflexivity.
Qed.

(** Claim C3, as amended.  A struct array that [StructImpl::NextBatch]
    gives holds the arrays its children gave and has the length of the
    first of them.  Its validity has one bit for each merged definition
    level that is at least the struct's level or at least
    [top_parent_def_level], in the order of the levels, set exactly when
    the level is at least the struct's; a level below both has no bit.
    The bitmap is left out when no bit is clear.  When no level is below
    [top_parent_def_level], bit [i] is the one of the merged level at
    [i]. *)
Theorem struct_array_validity
        n children struct_def_level struct_rep_level top_parent_def_level
        len arrays bitmap nulls :
  (NextBatch n (StructOf children struct_def_level struct_rep_level
                         top_parent_def_level)).1
  = Batch (StructArray len arrays bitmap nulls) ->
  Forall2 (fun c a => (NextBatch n c).1 = Batch a) children arrays
  /\ (array_length <$> head arrays) = Some len
  /\ exists merged,
       GetDefLevels (NextBatch n (StructOf children struct_def_level
                                           struct_rep_level
                                           top_parent_def_level)).2
       = Some merged
       /\ (forall j d,
             slot_levels struct_def_level top_parent_def_level merged !! j = Some d ->
             valid_bit bitmap j = Some (bool_decide (struct_def_level <= d)))
       /\ (bitmap = None <-> nulls = 0)
       /\ (Forall (fun d => top_parent_def_level <= d) merged ->
           forall i d, merged !! i = Some d ->
             valid_bit bitmap i = Some (bool_decide (struct_def_level <= d))).
Proof.
  cbn [NextBatch]. intros H.
  destruct (gather (NextBatch n) children) as [[stop|gathered] children'] eqn:Hg;
    simpl in H.
  { pose proof (gather_spec (NextBatch n) children) as Hs. rewrite Hg in Hs.
    simpl in Hs. destruct Hs as (? & ? & ? & _ & _ & _ & Hn). destruct (Hn _ H). }
  destruct (gather_arrays _ _ _ _ Hg) as [HF _].
  unfold StructImpl_assemble in H. cbn [snd].
  destruct (GetDefLevels (StructOf children' _ _ _)) as [merged|] eqn:Hmerged;
    [|discriminate].
  destruct (struct_null_bits_spec struct_def_level top_parent_def_level merged)
    as [Hbits Hnc].
  destruct (struct_null_bits _ _ merged) as [bits nc]. simpl in *.
  destruct gathered as [|first rest]; [discriminate|].
  injection H as <- <- <- <-.
  split; [exact HF|]. split; [reflexivity|].
  exists merged. split; [reflexivity|].
  assert (Hslots : forall j d,
             slot_levels struct_def_level top_parent_def_level merged !! j = Some d ->
             valid_bit (null_bitmap_of bits nc) j
             = Some (bool_decide (struct_def_level <= d))).
  { intros j d Hj. rewrite Hnc. apply valid_bit_of_bits.
    rewrite Hbits, list_lookup_fmap, Hj. reflexivity. }
  split; [exact Hslots|]. split.
  - unfold null_bitmap_of. destruct (Z.eqb_spec nc 0); split; congruence.
  - intros Hall i d Hi. apply Hslots. unfold slot_levels.
    rewrite filter_all; [exact Hi|].
    eapply Forall_impl; [exact Hall|]. intros x Hx. right. exact Hx.
Qed.

Lemma struct_array_validity_witness :
  (NextBatch 3 (StructOf struct_in_list_children 3 1 2)).1
  = Batch (StructArray 1 [PrimitiveArray STRING 1 (Some [true]) 0;
                          PrimitiveArray (FIXED_SIZE_BINARY 4) 3
                                         (Some [false; false; true]) 2]
                       (Some [false; true]) 1)
  /\ (array_length <$> head [PrimitiveArray STRING 1 (Some [true]) 0;
                              PrimitiveArray (FIXED_SIZE_BINARY 4) 3
                                             (Some [false; false; true]) 2])
     = Some 1
  /\ (Some [false; true] = None <-> 1 = 0).
Proof.
  assert (H : (NextBatch 3 (StructOf struct_in_list_children 3 1 2)).1
              = Batch (StructArray 1 [PrimitiveArray STRING 1 (Some [true]) 0;
                                      PrimitiveArray (FIXED_SIZE_BINARY 4) 3
                                                     (Some [false; false; true]) 2]
                                   (Some [false; true]) 1)) by reflexivity.
  destruct (struct_array_validity 3 struct_in_list_children 3 1 2 _ _ _ _ H)
    as (_ & Hlen & merged & _ & _ & Hnone & _).
  split; [exact H|]. split; [exact Hlen | exact Hnone].
Defined.

(** Claim C3 fails as stated: the struct array read from the three
    records has length 1, the length of its first child, while its second
    child has length 3; and its bit 1 is set although the merged
    definition level at position 1 is 2, below the struct's level 3 (the
    level 0 at position 0, below [top_parent_def_level], has no bit). *)
Lemma struct_children_differ_and_bits_shift :
  (NextBatch 3 struct_in_list).1
  = Batch (StructArray 1 [PrimitiveArray STRING 1 (Some [true]) 0;
                          PrimitiveArray (FIXED_SIZE_BINARY 4) 3
                                         (Some [false; false; true]) 2]
                       (Some [false; true]) 1)
  /\ GetDefLevels (NextBatch 3 struct_in_list).2 = Some [0; 2; 3].
Proof. split; reflexivity. Qed.

(** The walk over the values of a list only moves forward. *)
Lemma walk_forward lrl rest : forall idx val,
  (val <= (walk lrl rest idx val).2)%nat.
Proof.
  induction rest as [|r rest IH]; intros idx val; simpl; [lia|].
  destruct (lrl <? r); simpl; [|lia]. specialize (IH (S idx) (S val)). lia.
Qed.

Lemma non_decreasing_cons v v' l :
  v <= v' -> non_decreasing (v' :: l) -> non_decreasing (v :: v' :: l).
Proof.
  intros Hv Hs [|i] x y Hx Hy; simpl in *.
  - injection Hx as <-. injection Hy as <-. exact Hv.
  - exact (Hs i x y Hx Hy).
Qed.

Lemma non_decreasing_lower v v' l :
  v <= v' -> non_decreasing (v' :: l) -> non_decreasing (v :: l).
Proof.
  intros Hv Hs [|i] x y Hx Hy; simpl in *.
  - injection Hx as <-. specialize (Hs 0%nat v' y eq_refl Hy). lia.
  - exact (Hs (S i) x y Hx Hy).
Qed.

(** The offsets appended by the loop do not decrease from the value
    index the loop starts with. *)
Lemma offsets_loop_non_decreasing ldl lrl ms cdef crep D : forall idx val rest,
  offsets_loop ldl lrl ms cdef crep D idx val = Some rest ->
  non_decreasing (Z.of_nat val :: rest).
Proof.
  induction D as [|d D IH]; intros idx val rest H; simpl in H.
  - injection H as <-. intros [|i] x y Hx Hy; discriminate.
  - destruct (_ : option (nat * nat)) as [[idx' val']|] eqn:Hstep in H;
      [|discriminate]. simpl in H.
    destruct (offsets_loop ldl lrl ms cdef crep D idx' val') as [rest'|] eqn:Hrest;
      [|discriminate].
    simpl in H. injection H as <-.
    assert (Hle : (val <= val')%nat).
    { destruct (d =? ldl); [|injection Hstep as <- <-; lia].
      destruct (cdef !! idx) as [cd|]; [|discriminate]. simpl in Hstep.
      destruct (ldl <? cd); [|injection Hstep as <- <-; lia].
      pose proof (walk_forward lrl (drop (S idx) crep) (S idx) (S val)) as Hw.
      injection Hstep as Hstep. rewrite Hstep in Hw. simpl in Hw. lia. }
    specialize (IH idx' val' rest' Hrest).
    destruct (ms <=? d).
    + apply non_decreasing_cons; [lia | exact IH].
    + eapply non_decreasing_lower; [|exact IH]. lia.
Qed.

Lemma list_null_bits_count ldl ms D :
  (list_null_bits ldl ms D).2 = countb negb (list_null_bits ldl ms D).1.
Proof.
  induction D as [|d D IH]; [reflexivity|]. simpl.
  destruct (list_null_bits ldl ms D) as [bits nc]. simpl in *.
  destruct (ldl <=? d); [|destruct (ms <=? d)]; simpl; rewrite ?countb_cons; simpl; lia.
Qed.

Lemma list_null_bits_all_set ldl ms D :
  ldl < ms -> Forall (fun b => b = true) (list_null_bits ldl ms D).1.
Proof.
  intros Hms. induction D as [|d D IH]; [constructor|]. simpl.
  destruct (list_null_bits ldl ms D) as [bits nc]. simpl in *.
  destruct (Z.leb_spec ldl d); [constructor; auto|].
  destruct (Z.leb_spec ms d); [lia | assumption].
Qed.

(** A clear bit belongs to a list without values: the offsets on both
    sides of its slot are the same. *)
Lemma offsets_of_null_lists ldl lrl ms cdef crep D : forall idx val rest j,
  ms <= ldl ->
  offsets_loop ldl lrl ms cdef crep D idx val = Some rest ->
  (list_null_bits ldl ms D).1 !! j = Some false ->
  exists x, (Z.of_nat val :: rest) !! j = Some x
            /\ (Z.of_nat val :: rest) !! S j = Some x.
Proof.
  induction D as [|d D IH]; intros idx val rest j Hms H Hbit; [discriminate|].
  simpl in H, Hbit.
  destruct (_ : option (nat * nat)) as [[idx' val']|] eqn:Hstep in H;
    [|discriminate]. simpl in H.
  destruct (offsets_loop ldl lrl ms cdef crep D idx' val') as [rest'|] eqn:Hrest;
    [|discriminate].
  simpl in H. injection H as <-.
  specialize (IH idx' val' rest').
  destruct (list_null_bits ldl ms D) as [bits nc]. simpl in *.
  destruct (Z.leb_spec ldl d) as [Hd|Hd].
  - rewrite (proj2 (Z.leb_le ms d)) by lia.
    destruct j as [|j]; [discriminate|]. simpl in Hbit.
    destruct (IH j Hms Hrest Hbit) as (x & Hx & Hy). exists x. auto.
  - assert (Hval : val' = val).
    { destruct (Z.eqb_spec d ldl); [lia|]. injection Hstep as _ <-. reflexivity. }
    subst val'.
    destruct (Z.leb_spec ms d) as [Hm|Hm].
    + destruct j as [|j]; simpl in Hbit.
      * exists (Z.of_nat val). auto.
      * destruct (IH j Hms Hrest Hbit) as (x & Hx & Hy). exists x. auto.
    + exact (IH j Hms Hrest Hbit).
Qed.

(** The offsets of every list array [ListImpl::NextBatch] gives start at
    0, do not decrease and are one more than the lists; a clear validity
    bit stands for a list without values; the child array is the one the
    child gave. *)
Theorem list_array_offsets
        n child list_def_level list_rep_level min_space_def_level
        len offsets values bitmap nulls :
  (NextBatch n (ListOf child list_def_level list_rep_level min_space_def_level)).1
  = Batch (ListArray len offsets values bitmap nulls) ->
  (NextBatch n child).1 = Batch values
  /\ offsets !! 0%nat = Some 0
  /\ Z.of_nat (length offsets) = len + 1
  /\ non_decreasing offsets
  /\ (forall i, valid_bit bitmap i = Some false ->
        exists x, offsets !! i = Some x /\ offsets !! S i = Some x).
Proof.
  cbn [NextBatch]. intros H.
  destruct (NextBatch n child) as [r child'].
  destruct r as [child_array| | |]; try discriminate. simpl in H.
  unfold ListImpl_assemble in H.
  destruct (GetDefLevels (ListOf child' _ _ _)) as [D|]; [|discriminate].
  destruct (GetDefLevels child') as [cdef|]; [|discriminate].
  destruct (GetRepLevels child') as [crep|]; [|discriminate].
  pose proof (list_null_bits_count list_def_level min_space_def_level D) as Hnc.
  pose proof (list_null_bits_all_set list_def_level min_space_def_level D) as Hset.
  pose proof (fun idx val rest j =>
                offsets_of_null_lists list_def_level list_rep_level min_space_def_level
                                      cdef crep D idx val rest j) as Hnull.
  destruct (list_null_bits list_def_level min_space_def_level D) as [bits nc].
  destruct (RepLevelsToOffsetsArray _ _ _ D cdef crep) as [offs|] eqn:Hoffs;
    [|discriminate].
  injection H as <- <- <- <- <-.
  unfold RepLevelsToOffsetsArray in Hoffs.
  destruct (offsets_loop _ _ _ cdef crep D 0 0) as [rest|] eqn:Hrest; [|discriminate].
  injection Hoffs as <-. cbn [fst snd] in *.
  split; [reflexivity|]. split; [reflexivity|]. split; [lia|]. split.
  - exact (offsets_loop_non_decreasing _ _ _ _ _ _ 0%nat 0%nat rest Hrest).
  - intros i Hbit. unfold null_bitmap_of in Hbit.
    destruct (Z.eqb_spec nc 0); [discriminate|]. simpl in Hbit.
    destruct (Z.le_gt_cases min_space_def_level list_def_level) as [Hms|Hms].
    + exact (Hnull 0%nat 0%nat rest i Hms Hrest Hbit).
    + specialize (Hset ltac:(lia)). rewrite Forall_lookup in Hset.
      specialize (Hset _ _ Hbit). discriminate.
Qed.

Lemma list_array_offsets_witness :
  (NextBatch 6 (ListOf (leaf INT32 (mkDescr 3 1 true true 2 (fun d => d =? 2))
                             [[(0, 0); (1, 0); (3, 0); (2, 1); (3, 1); (3, 0)]])
                       1 0 0)).1
  = Batch (ListArray 4 [0; 0; 0; 3; 4]
                     (PrimitiveArray INT32 4 (Some [true; false; true; true]) 1)
                     (Some [false; true; true; true]) 1)
  /\ non_decreasing [0; 0; 0; 3; 4].
Proof.
  assert (H : (NextBatch 6 (ListOf (leaf INT32 (mkDescr 3 1 true true 2 (fun d => d =? 2))
                                         [[(0, 0); (1, 0); (3, 0); (2, 1); (3, 1); (3, 0)]])
                                   1 0 0)).1
              = Batch (ListArray 4 [0; 0; 0; 3; 4]
                                 (PrimitiveArray INT32 4 (Some [true; false; true; true]) 1)
                                 (Some [false; true; true; true]) 1)) by reflexivity.
  split; [exact H|].
  exact (proj1 (proj2 (proj2 (proj2 (list_array_offsets _ _ _ _ _ _ _ _ _ _ H))))).
Defined.

(** Claim C2 at the record [[null, {k: "a"}]] of a list of optional
    structs with a required string: the list array has the offsets
    [0; 2] over a struct array of length 1. *)
Theorem list_offsets_past_child_length :
  (NextBatch 2 list_of_optional_struct).1
  = Batch (ListArray 1 [0; 2]
                     (StructArray 1 [PrimitiveArray STRING 1 (Some [true]) 0]
                                  (Some [false; true]) 1)
                     None 0).
Proof. reflexivity. Qed.

End NestedArrays.

Section TreeFacts.
Import Reader.

Lemma Impl_ind' (P : Impl -> Prop) :
  (forall p, P (Primitive p)) ->
  (forall child a b c, P child -> P (ListOf child a b c)) ->
  (forall children a b c, Forall P children -> P (StructOf children a b c)) ->
  forall t, P t.
Proof.
  intros Hp Hl Hs. fix IH 1. intros [p | child a b c | children a b c].
  - apply Hp.
  - apply Hl, IH.
  - apply Hs. revert children. fix IHcs 1. intros [|c0 cs]; constructor.
    + apply IH.
    + apply IHcs.
Qed.

(** A leaf that is ready for its batch is read to its end, and gives an
    array if a chunk is attached. *)
Lemma leaf_drains B p :
  leaf_ready B p ->
  unread_levels (PrimitiveImpl_NextBatch B p).2 = 0%nat
  /\ (column_reader_ p <> None ->
      exists a, (PrimitiveImpl_NextBatch B p).1 = Batch a).
Proof.
  intros (Hatt & Hty & Hun). unfold PrimitiveImpl_NextBatch.
  destruct (column_reader_ p) as [r|] eqn:Hr.
  2: { simpl. split; [|congruence]. unfold unread_levels, leaf_attached in *.
       rewrite Hr in *. simpl. rewrite (Hatt eq_refl). reflexivity. }
  assert (Hfuel : (fuel_of (start_loop B p) <= loop_fuel (column_reader_ p) (input_ p))%nat)
    by (unfold fuel_of; simpl; lia).
  assert (Hatt' : attached (loop_reader (start_loop B p)) (loop_input (start_loop B p)))
    by exact Hatt.
  assert (Hv : Z.of_nat (unread_of (start_loop B p)) <= values_to_read (start_loop B p))
    by exact Hun.
  assert (HB : Z.of_nat (length (levels_seen (start_loop B p)) + unread_of (start_loop B p))
               <= B) by exact Hun.
  assert (Htyped : unread_levels (TypedReadBatch B p).2 = 0%nat
                   /\ (Some r <> None -> exists a, (TypedReadBatch B p).1 = Batch a)).
  { unfold TypedReadBatch.
    destruct (typed_loop_drains (descr_ p) B _ _ Hfuel Hatt' Hv HB) as (st & -> & Hz).
    simpl. split; [exact Hz | eauto]. }
  assert (Hbuilt : forall slot,
             unread_levels (builder_read slot B p).2 = 0%nat
             /\ (Some r <> None -> exists a, (builder_read slot B p).1 = Batch a)).
  { intros slot. unfold builder_read.
    destruct (builder_loop_drains slot (descr_ p) _ _ Hfuel Hatt' Hv) as (st & -> & Hz).
    simpl. split; [exact Hz | eauto]. }
  destruct (field_type p) as [| | | | | | | | | | | | | | | | | | [] | | | | ];
    try discriminate; first [exact Htyped | apply Hbuilt].
Qed.

Lemma leaf_step_refl ps : Forall leaf_attached ps -> Forall2 leaf_step ps ps.
Proof.
  induction 1; constructor; [|assumption]. split; [assumption | lia].
Qed.

Lemma gather_leaves n cs :
  Forall (fun c => Forall leaf_attached (leaves c) ->
                   Forall2 leaf_step (leaves c) (leaves (NextBatch n c).2)) cs ->
  Forall leaf_attached (concat (leaves <$> cs)) ->
  Forall2 leaf_step (concat (leaves <$> cs))
          (concat (leaves <$> (gather (NextBatch n) cs).2)).
Proof.
  induction 1 as [|c cs Hc _ IH]; intros Hatt; simpl in *; [constructor|].
  apply Forall_app in Hatt as [Hatt1 Hatt2].
  specialize (Hc Hatt1). specialize (IH Hatt2).
  destruct (NextBatch n c) as [r c']. simpl in Hc.
  destruct r; simpl;
    try (apply Forall2_app; [assumption | apply leaf_step_refl; assumption]).
  destruct (gather (NextBatch n) cs) as [rest cs'']. simpl in *.
  apply Forall2_app; assumption.
Qed.

(** Reading never hands a level back. *)
Lemma NextBatch_leaves n t :
  Forall leaf_attached (leaves t) ->
  Forall2 leaf_step (leaves t) (leaves (NextBatch n t).2).
Proof.
  induction t as [p | child a b c IH | children a b c IH] using Impl_ind'; intros Hatt.
  - cbn [NextBatch]. cbn [leaves] in Hatt. rewrite Forall_singleton in Hatt.
    destruct (PrimitiveImpl_NextBatch_spec n p Hatt) as (Ha & Hu & _).
    destruct (PrimitiveImpl_NextBatch n p) as [r p']. simpl in *.
    constructor; [split; assumption | constructor].
  - cbn [NextBatch]. specialize (IH Hatt).
    destruct (NextBatch n child) as [r child']. destruct r; exact IH.
  - cbn [NextBatch]. pose proof (gather_leaves n children IH Hatt) as H.
    destruct (gather (NextBatch n) children) as [[stop|arrays] children']; exact H.
Qed.

Lemma NextBatch_stays_drained n t :
  Forall leaf_attached (leaves t) -> drained t -> drained (NextBatch n t).2.
Proof.
  intros Hatt Hd. pose proof (NextBatch_leaves n t Hatt) as H. unfold drained in *.
  induction H as [|p p' ps ps' [_ Hle] _ IH]; [constructor|].
  apply Forall_cons in Hd as [Hp Hd]. apply Forall_cons in Hatt as [_ Hatt].
  constructor; [lia | auto].
Qed.

Lemma gather_drains B cs :
  Forall (drains B) cs ->
  match (gather (NextBatch B) cs).1 with
  | inr _ => Forall drained (gather (NextBatch B) cs).2
  | inl stop => stop = Undefined
  end.
Proof.
  induction 1 as [|c cs [Hg Hd] _ IH]; simpl; [constructor|].
  destruct (NextBatch B c) as [r c']. simpl in *.
  destruct r; simpl; try destruct Hg; try reflexivity.
  destruct (gather (NextBatch B) cs) as [[stop|arrays] cs'']; simpl in *; [assumption|].
  constructor; eauto.
Qed.

(** A reader all of whose leaves are ready and attached to a chunk gives
    an array and is read to its end, unless its levels lead a list or a
    struct outside a buffer. *)
Lemma NextBatch_drains B t :
  Forall (leaf_ready B) (leaves t) -> started t -> drains B t.
Proof.
  unfold started.
  induction t as [p | child a b c IH | children a b c IH] using Impl_ind';
    intros Hready Hstarted; unfold drains in *; cbn [NextBatch].
  - cbn [leaves] in Hready, Hstarted. rewrite Forall_singleton in Hready, Hstarted.
    destruct (leaf_drains B p Hready) as [Hz Harr]. destruct (Harr Hstarted) as [arr Ha].
    destruct (PrimitiveImpl_NextBatch B p) as [r p']. simpl in *. subst r.
    split; [exact I|]. intros _. constructor; [assumption | constructor].
  - destruct (IH Hready Hstarted) as [Hg Hd].
    destruct (NextBatch B child) as [r child']. simpl in *.
    destruct r; try destruct Hg; simpl.
    + split; [apply ListImpl_assemble_gives|]. intros _. apply Hd. eauto.
    + split; [exact I|]. intros [arr [=]].
  - simpl in Hready, Hstarted.
    assert (Hall : Forall (drains B) children).
    { clear -IH Hready Hstarted.
      induction IH as [|c cs Hc _ IHcs]; [constructor|]. simpl in *.
      apply Forall_app in Hready as [? ?]. apply Forall_app in Hstarted as [? ?].
      constructor; [apply Hc; assumption | apply IHcs; assumption]. }
    pose proof (gather_drains B children Hall) as H.
    destruct (gather (NextBatch B) children) as [[stop|arrays] children']; simpl in *.
    + subst stop. split; [exact I|]. intros [arr [=]].
    + split; [apply StructImpl_assemble_gives|]. intros _.
      unfold drained. simpl. apply Forall_concat, Forall_fmap. exact H.
Qed.

End TreeFacts.

Section BatchSize.
Import Reader FileReader.

Lemma foldl_add_Zsum (f : nat -> Z) l : forall a,
  foldl (fun acc j => acc + f j) a l = a + Zsum (f <$> l).
Proof.
  induction l as [|j l IH]; intros a; [simpl; lia|].
  rewrite fmap_cons. simpl. rewrite IH. lia.
Qed.

Lemma column_batch_size_sum reader c :
  column_batch_size reader c
  = Zsum ((fun j => num_values reader j c) <$> seq 0 (num_row_groups reader)).
Proof. unfold column_batch_size. rewrite foldl_add_Zsum. lia. Qed.

Lemma Zmax0_nonneg l : 0 <= Zmax0 l.
Proof. induction l; simpl; lia. Qed.

Lemma Zmax0_ge l x : x ∈ l -> x <= Zmax0 l.
Proof.
  induction 1 as [x l | x y l _ IH]; simpl; lia.
Qed.

Lemma foldl_max_filter (root : Z -> Z) (node : Z) (g : Z -> Z) l : forall a,
  0 <= a ->
  foldl (fun b c => if root c =? node then Z.max b (g c) else b) a l
  = Z.max a (Zmax0 (g <$> filter (fun c => root c = node) l)).
Proof.
  induction l as [|c l IH]; intros a Ha.
  - simpl. lia.
  - cbn [foldl]. rewrite IH, filter_cons by (destruct (_ =? _); lia).
    destruct (Z.eqb_spec (root c) node) as [Heq|Hne].
    + rewrite decide_True by assumption. rewrite fmap_cons. simpl. lia.
    + rewrite decide_False by assumption. reflexivity.
Qed.

(** The batch size of a full-file read is the largest column total. *)
Lemma batch_size_max_of_sums reader node indices row_group_index :
  row_group_index < 0 ->
  batch_size reader node indices row_group_index = max_of_sums reader node indices.
Proof.
  intros Hrg. unfold batch_size, max_of_sums, subtree_columns.
  destruct (Z.ltb_spec row_group_index 0); [|lia].
  rewrite (foldl_max_filter (GetColumnRoot reader) node (column_batch_size reader)) by lia.
  rewrite Z.max_r by apply Zmax0_nonneg.
  f_equal. apply list_fmap_ext. intros _ c _. apply column_batch_size_sum.
Qed.

Lemma new_PrimitiveImpl_chunks it descr type :
  chunks_left (column_reader_ (new_PrimitiveImpl it descr type))
              (input_ (new_PrimitiveImpl it descr type))
  = pending_ it.
Proof.
  unfold new_PrimitiveImpl, NextRowGroup, Next. simpl.
  destruct (pending_ it) eqn:Hp; simpl; [assumption | reflexivity].
Qed.

Lemma new_PrimitiveImpl_type it descr type :
  field_type (new_PrimitiveImpl it descr type) = type.
Proof. unfold new_PrimitiveImpl, NextRowGroup. destruct (Next _). reflexivity. Qed.

Lemma fresh_leaf_unread reader c descr type :
  metadata_consistent reader ->
  Z.of_nat (unread_levels (fresh_leaf reader c descr type))
  = column_batch_size reader c.
Proof.
  intros Hmeta. unfold unread_levels, fresh_leaf.
  rewrite new_PrimitiveImpl_chunks, column_batch_size_sum. simpl.
  unfold metadata_consistent in Hmeta.
  assert (H : forall l, Forall (fun j => (j < num_row_groups reader)%nat) l ->
            Z.of_nat (unread_in ((fun j => Column reader j c) <$> l))
            = Zsum ((fun j => num_values reader j c) <$> l)).
  { induction 1 as [|j l Hj _ IH]; [reflexivity|].
    rewrite !fmap_cons, unread_in_cons. simpl. rewrite Hmeta by assumption. lia. }
  apply H. apply Forall_forall. intros j Hj. apply elem_of_seq in Hj. lia.
Qed.

Lemma fresh_leaf_started reader c descr type :
  (0 < num_row_groups reader)%nat ->
  column_reader_ (fresh_leaf reader c descr type) <> None.
Proof.
  intros HG. unfold fresh_leaf, new_PrimitiveImpl, NextRowGroup, Next. simpl.
  destruct (num_row_groups reader); [lia|]. simpl. discriminate.
Qed.

Lemma to_int_small z : - 2 ^ 31 <= z < 2 ^ 31 -> to_int z = z.
Proof. intros H. unfold to_int. rewrite Z.mod_small; lia. Qed.

(** Claim C1, as amended.  For a read of a top-level field over all the
    row groups, the batch size is the maximum over the requested leaves
    of the field's subtree of the sum across the row groups of the
    column-chunk value count.  When it is in the range of [int], the file's
    metadata counts what the chunks hold, and the leaves are of types the
    read loops read, the single [NextBatch] of that size leaves no level
    of the subtree unread, short of undefined behaviour. *)
Theorem full_file_batch_size_drains reader node indices t :
  metadata_consistent reader ->
  built_for reader node indices t ->
  batch_size reader node indices (-1) < 2 ^ 31 ->
  batch_size reader node indices (-1) = max_of_sums reader node indices
  /\ exists t',
       (ReadSchemaField reader (Built_ t) node indices (-1)).2 = Some t'
       /\ ((ReadSchemaField reader (Built_ t) node indices (-1)).1 <> Undefined ->
           drained t').
Proof.
  intros Hmeta Hbuilt Hint.
  pose proof (batch_size_max_of_sums reader node indices (-1) ltac:(lia)) as Hbs.
  split; [exact Hbs|].
  unfold ReadSchemaField. rewrite to_int_small.
  2: { rewrite Hbs in *. pose proof (Zmax0_nonneg
         ((fun c => Zsum ((fun j => num_values reader j c)
                            <$> seq 0 (num_row_groups reader)))
            <$> subtree_columns reader node indices)).
       unfold max_of_sums in *. lia. }
  set (B := batch_size reader node indices (-1)) in *.
  assert (Hready : Forall (leaf_ready B) (leaves t)).
  { eapply Forall_impl; [exact Hbuilt|].
    intros p (c & descr & type & -> & Hc & Hroot & Hty).
    split; [apply leaf_reachable_attached, reach_new|].
    split; [unfold fresh_leaf; rewrite new_PrimitiveImpl_type; exact Hty|].
    rewrite fresh_leaf_unread by assumption.
    rewrite Hbs, column_batch_size_sum. unfold max_of_sums.
    apply Zmax0_ge.
    apply (list_elem_of_fmap_2
             (fun c => Zsum ((fun j => num_values reader j c)
                               <$> seq 0 (num_row_groups reader)))).
    unfold subtree_columns. apply list_elem_of_filter. auto. }
  destruct (NextBatch B t) as [r t'] eqn:Hnext. simpl. exists t'. split; [reflexivity|].
  intros Hdef.
  destruct (Nat.eq_dec (num_row_groups reader) 0%nat) as [HG|HG].
  - (* no row group: nothing to read *)
    replace t' with (NextBatch B t).2 by (rewrite Hnext; reflexivity).
    apply NextBatch_stays_drained.
    + eapply Forall_impl; [exact Hready|]. intros p Hp. apply Hp.
    + eapply Forall_impl; [exact Hbuilt|].
      intros p (c & descr & type & -> & _).
      unfold unread_levels, fresh_leaf. rewrite new_PrimitiveImpl_chunks.
      simpl. rewrite HG. reflexivity.
  - assert (Hstarted : started t).
    { eapply Forall_impl; [exact Hbuilt|].
      intros p (c & descr & type & -> & _). apply fresh_leaf_started. lia. }
    destruct (NextBatch_drains B t Hready Hstarted) as [Hg Hd].
    rewrite Hnext in Hg, Hd. simpl in *.
    apply Hd. destruct r; try destruct Hg; [eauto | congruence].
Qed.

Lemma full_file_batch_size_drains_witness :
  metadata_consistent crossed
  /\ built_for crossed 0 [0; 1] (crossed_reader INT32)
  /\ batch_size crossed 0 [0; 1] (-1) = 4
  /\ exists t',
       (ReadSchemaField crossed (Built_ (crossed_reader INT32)) 0 [0; 1] (-1)).2
       = Some t'
       /\ drained t'.
Proof.
  assert (Hmeta : metadata_consistent crossed) by (intros j c _; reflexivity).
  assert (Hbuilt : built_for crossed 0 [0; 1] (crossed_reader INT32)).
  { repeat constructor.
    - exists 0, element_descr, INT32. repeat split. apply list_elem_of_here.
    - exists 1, element_descr, INT32. repeat split.
      apply list_elem_of_further, list_elem_of_here. }
  destruct (full_file_batch_size_drains crossed 0 [0; 1] (crossed_reader INT32)
              Hmeta Hbuilt ltac:(reflexivity)) as (_ & t' & Ht' & Hd).
  split; [exact Hmeta|]. split; [exact Hbuilt|]. split; [reflexivity|].
  exists t'. split; [exact Ht'|]. apply Hd. vm_compute. discriminate.
Defined.

(** Claim C1 fails as stated: in the example file the two lists are
    longest in different row groups, and the batch size is 4, the larger
    column total, not 6, the sum of the row groups' maxima.  A leaf of the
    null type, moreover, is left with all its levels by the read. *)
Lemma full_file_batch_size_not_sum_of_maxima :
  batch_size crossed 0 [0; 1] (-1) = 4
  /\ sum_of_maxima crossed 0 [0; 1] = 6
  /\ (ReadSchemaField crossed (Built_ (Primitive (fresh_leaf crossed 1 element_descr NA)))
                      0 [1] (-1)).1 = Batch (NullArray 4)
  /\ (fun t' => unread_levels <$> leaves t')
       <$> (ReadSchemaField crossed
                            (Built_ (Primitive (fresh_leaf crossed 1 element_descr NA)))
                            0 [1] (-1)).2
     = Some [4%nat].
Proof. repeat split. Qed.

End BatchSize.

Section TableReads.
Import Reader FileReader.





End TableReads.

Section WrapFacts.
Import Reader Wrap.

Lemma unwrap_wrap_output j : forall k b a,
  unwrap (j + k) (wrap_output j b a) = unwrap k a.
Proof.
  induction j as [|j IH]; intros k b a; [reflexivity|].
  cbn [wrap_output]. replace (S j + k)%nat with (j + S k)%nat by lia.
  rewrite IH. reflexivity.
Qed.

(** Claim C9.  A call of [WrapIntoListArray] that returns [OK] leaves the
    array behind the out-parameter as it was.  For a column with a
    repetition level the call has by then built [output], the array
    wrapped in one list per level of the field, which it drops. *)
Theorem wrap_into_list_array_keeps_array
        descr schema_status current_field def_levels rep_levels total_levels_read
        array s array' output :
  WrapIntoListArray descr schema_status current_field def_levels rep_levels
                    total_levels_read array = Returned s array' output ->
  ok s = true ->
  array' = array
  /\ (0 < max_repetition_level descr ->
      exists nullable,
        walk_nullable current_field = Some nullable
        /\ forall a, array = Some a ->
             exists wrapped,
               output = Some wrapped
               /\ unwrap (length nullable - 1) wrapped = Some a)
  /\ (max_repetition_level descr <= 0 -> output = None).
Proof.
  unfold WrapIntoListArray. intros H Hok.
  destruct schema_status as [|code msg].
  2: { injection H as <- <- <-. discriminate. }
  destruct (0 <? max_repetition_level descr) eqn:Hrep.
  2: { injection H as <- <- <-. apply Z.ltb_ge in Hrep.
       split; [reflexivity|]. split; [lia | reflexivity]. }
  apply Z.ltb_lt in Hrep.
  destruct (walk_nullable current_field) as [nullable|].
  2: { injection H as <- <- <-. discriminate. }
  destruct (levels_loop _ _ _ _ _ _ _ _ _ _ _) as [[values_offset b]|]; [|discriminate].
  destruct array as [a|].
  - injection H as <- <- <-. split; [reflexivity|]. split; [|lia].
    intros _. exists nullable. split; [reflexivity|].
    intros a' [= <-]. eexists. split; [reflexivity|].
    rewrite <- (Nat.add_0_r (length nullable - 1)) at 1.
    apply unwrap_wrap_output.
  - destruct (length nullable - 1)%nat; [|discriminate].
    injection H as <- <- <-. split; [reflexivity|]. split; [|lia].
    intros _. exists nullable. split; [reflexivity|]. discriminate.
Qed.

Lemma wrap_into_list_array_keeps_array_witness :
  WrapIntoListArray (mkDescr 3 1 true true 2 (fun _ => false)) OK
                    (mkField true [mkField true []])
                    [0; 1; 3; 2; 3; 3] [0; 0; 0; 1; 1; 0] 6
                    (Some (PrimitiveArray INT32 4 None 0))
  = Returned OK (Some (PrimitiveArray INT32 4 None 0))
             (Some (ListArray 4 [0; 0; 0; 3; 4] (PrimitiveArray INT32 4 None 0)
                              (Some [false; true; true; true]) 1))
  /\ Some (PrimitiveArray INT32 4 None 0) = Some (PrimitiveArray INT32 4 None 0).
Proof.
  split; [reflexivity|].
  exact (proj1 (wrap_into_list_array_keeps_array
                  (mkDescr 3 1 true true 2 (fun _ => false)) OK
                  (mkField true [mkField true []])
                  [0; 1; 3; 2; 3; 3] [0; 0; 0; 1; 1; 0] 6
                  (Some (PrimitiveArray INT32 4 None 0)) _ _ _ eq_refl eq_refl)).
Defined.

End WrapFacts.

Section WorkersFacts.
Import ParallelFor Workers.
Variable num_tasks : nat.
Variable func : nat -> Status.
Local Open Scope nat_scope.









Lemma elem_of_insert_other (pool : list pc) i p q x :
  pool !! i = Some q -> x ∈ pool -> x <> q -> x ∈ <[i := p]> pool.
Proof.
  intros Hi Hx Hne. apply list_elem_of_lookup in Hx as [j Hj].
  apply list_elem_of_lookup. exists j.
  rewrite list_lookup_insert_ne; [assumption|]. intros ->. congruence.
Qed.

Lemma elem_of_insert_new (pool : list pc) i p q :
  pool !! i = Some q -> p ∈ <[i := p]> pool.
Proof.
  intros Hi. apply list_elem_of_lookup. exists i.
  apply list_lookup_insert_eq. by apply lookup_lt_Some in Hi.
Qed.

Lemma elem_of_insert_inv (pool : list pc) i p x :
  x ∈ <[i := p]> pool -> x = p \/ x ∈ pool.
Proof.
  intros Hx. apply list_elem_of_lookup in Hx as [j Hj].
  destruct (decide (i = j)) as [->|Hne].
  - destruct (decide (j < length pool)) as [Hlt|Hge].
    + rewrite list_lookup_insert_eq in Hj by assumption. left. congruence.
    + rewrite list_insert_ge in Hj by lia. right. by eapply list_elem_of_lookup_2.
  - rewrite list_lookup_insert_ne in Hj by assumption. right.
    by eapply list_elem_of_lookup_2.
Qed.

Local Arguments Nat.min : simpl never.

Lemma step_handed_out thread_id st trace st' evs :
  handed_out num_tasks func st trace ->
  step num_tasks func thread_id st = Some (st', evs) ->
  handed_out num_tasks func st' (trace ++ evs).
Proof.
  intros [Hclaimed Hfin Hok] Hstep. unfold step in Hstep.
  destruct (thread_pool st !! thread_id) as [p|] eqn:Hp; [|discriminate].
  pose proof (elem_of_insert_other (thread_pool st) thread_id) as Hother.
  pose proof (elem_of_insert_new (thread_pool st) thread_id) as Hnew.
  pose proof (elem_of_insert_inv (thread_pool st) thread_id) as Hinv.
  assert (Hkeep : forall q task_id,
             (forall t, q <> Running t) -> (forall s, p <> Reporting s) ->
             (forall t, p <> Running t) ->
             ok (func task_id) = true \/ Running task_id ∈ thread_pool st
             \/ (exists s, Reporting s ∈ thread_pool st) ->
             ok (func task_id) = true
             \/ Running task_id ∈ <[thread_id := q]> (thread_pool st)
             \/ (exists s, Reporting s ∈ <[thread_id := q]> (thread_pool st))).
  { intros q t Hq Hps Hpr [H|[H|[s H]]]; [by left| |].
    - right. left. eapply Hother; eauto.
    - right. right. exists s. eapply Hother; eauto. }
  destruct p as [| |task_id|s|]; simpl in Hstep.
  - (* the loop test *)
    destruct (error_occurred st) eqn:Hflag; injection Hstep as <- <-;
      rewrite app_nil_r; split; simpl; try (rewrite Hflag; discriminate);
      try assumption.
    + intros _ Hin. apply Hinv in Hin as [|Hin]; [discriminate | auto].
    + intros _ t Ht. apply Hkeep; try discriminate. auto.
  - (* the counter *)
    destruct (Nat.leb_spec num_tasks (task_counter st)) as [Hle|Hlt];
      injection Hstep as <- <-.
    + rewrite app_nil_r. split; simpl.
      * rewrite Hclaimed. f_equal. lia.
      * intros _ _. lia.
      * intros Hflag t Ht. apply Hkeep; try discriminate. auto.
    + split; simpl.
      * rewrite claimed_app, Hclaimed. simpl.
        replace (Nat.min (S (task_counter st)) num_tasks) with (S (task_counter st)) by lia.
        replace (Nat.min (task_counter st) num_tasks) with (task_counter st) by lia.
        rewrite seq_S. reflexivity.
      * intros Hflag Hin. apply Hinv in Hin as [|Hin]; [discriminate|].
        specialize (Hfin Hflag Hin). lia.
      * intros Hflag t Ht. rewrite claimed_app in Ht. apply elem_of_app in Ht as [Ht|Ht].
        -- destruct (Hok Hflag t Ht) as [H|[H|[s H]]]; [by left| |].
           ++ right. left. eapply Hother; eauto; discriminate.
           ++ right. right. exists s. eapply Hother; eauto; discriminate.
        -- simpl in Ht. apply list_elem_of_singleton in Ht as ->.
           right. left. eapply Hnew; eauto.
  - (* the task *)
    destruct (ok (func task_id)) eqn:Hres; injection Hstep as <- <-;
      rewrite app_nil_r; split; simpl; try assumption.
    + intros Hflag Hin. apply Hinv in Hin as [|Hin]; [discriminate | auto].
    + intros Hflag t Ht. destruct (Hok Hflag t Ht) as [H|[H|[s H]]]; [by left| |].
      * destruct (decide (t = task_id)) as [->|Hne]; [by left|].
        right. left. eapply Hother; eauto; congruence.
      * right. right. exists s. eapply Hother; eauto; discriminate.
    + intros Hflag Hin. apply Hinv in Hin as [|Hin]; [discriminate | auto].
    + intros Hflag t Ht. right. right. exists (func task_id). eapply Hnew; eauto.
  - (* the critical section *)
    injection Hstep as <- <-. split; simpl; try discriminate.
    rewrite claimed_app, Hclaimed. simpl. by rewrite app_nil_r.
  - discriminate.
Qed.

Lemma run_handed_out schedule : forall st trace,
  handed_out num_tasks func st trace ->
  handed_out num_tasks func (run num_tasks func schedule st trace).1
             (run num_tasks func schedule st trace).2.
Proof.
  induction schedule as [|i schedule IH]; intros st trace H; simpl; [assumption|].
  destruct (step num_tasks func i st) as [[st' evs]|] eqn:Hstep.
  - apply IH. eapply step_handed_out; eassumption.
  - apply IH. assumption.
Qed.

Lemma init_handed_out nthreads : handed_out num_tasks func (init nthreads) [].
Proof.
  split; simpl.
  - reflexivity.
  - intros _ Hin. apply elem_of_replicate in Hin as [? _]. discriminate.
  - intros _ t Ht. inversion Ht.
Qed.

Lemma joined_finished st p : joined st = true -> p ∈ thread_pool st -> p = Finished.
Proof.
  unfold joined. intros Hj Hin. rewrite forallb_forall in Hj.
  apply list_elem_of_In in Hin. specialize (Hj p Hin). by destruct p.
Qed.

(** Without workers no step is taken. *)
Lemma run_no_workers schedule :
  run num_tasks func schedule (init 0) [] = (init 0, []).
Proof. induction schedule as [|i schedule IH]; [reflexivity|]. simpl. exact IH. Qed.

Lemma parallel_for_result nthreads schedule s trace :
  ParallelFor num_tasks func nthreads schedule = Some (s, trace) ->
  (s = OK <-> nthreads = 0
              \/ forall task_id, task_id < num_tasks -> ok (func task_id) = true)
  /\ (s = OK ->
      claimed trace = seq 0 (if decide (nthreads = 0) then 0 else num_tasks)).
Proof.
  unfold ParallelFor. intros H.
  destruct (decide (nthreads = 0)) as [->|Hn].
  { rewrite run_no_workers in H. simpl in H. injection H as <- <-.
    split; [split; auto | reflexivity]. }
  pose proof (run_invariant num_tasks func nthreads schedule _ _
                (init_invariant func nthreads)) as Hinv.
  pose proof (run_handed_out schedule _ _ (init_handed_out nthreads)) as Hho.
  destruct (run num_tasks func schedule (init nthreads) []) as [st tr].
  destruct (joined st) eqn:Hj; [|discriminate]. injection H as <- <-.
  destruct Hinv as [Hpool _ Hset Hreports _]. destruct Hho as [Hclaimed Hfin Hok].
  simpl in *.
  assert (Hfailed : error_occurred st = true ->
            ok (error st) = false
            /\ exists task_id, task_id < num_tasks /\ ok (func task_id) = false).
  { intros Hflag. destruct (Hset Hflag) as [Hlast _].
    unfold last_report in Hlast. apply last_Some_elem_of in Hlast.
    rewrite Forall_forall in Hreports.
    destruct (Hreports _ Hlast) as (Hbad & t & Ht & Heq).
    split; [assumption|]. exists t. rewrite Hclaimed in Ht. apply elem_of_seq in Ht.
    split; [lia | congruence]. }
  assert (Hall : error_occurred st = false ->
            claimed tr = seq 0 num_tasks
            /\ forall task_id, task_id < num_tasks -> ok (func task_id) = true).
  { intros Hflag.
    assert (Hin : Finished ∈ thread_pool st).
    { destruct (thread_pool st) as [|p pool] eqn:Hp; [simpl in Hpool; lia|].
      rewrite <- Hp in *.
      assert (p ∈ thread_pool st) as Hpin by (rewrite Hp; apply list_elem_of_here).
      rewrite <- (joined_finished st p Hj Hpin). assumption. }
    specialize (Hfin Hflag Hin).
    assert (Hseq : claimed tr = seq 0 num_tasks) by (rewrite Hclaimed; f_equal; lia).
    split; [assumption|]. intros t Ht.
    destruct (Hok Hflag t) as [H|[H|[s' H]]].
    - rewrite Hseq. apply elem_of_seq. lia.
    - assumption.
    - apply (joined_finished st _ Hj) in H. discriminate.
    - apply (joined_finished st _ Hj) in H. discriminate. }
  destruct (error_occurred st) eqn:Hflag.
  - destruct (Hfailed eq_refl) as (Hbad & t & Ht & Hbt). split.
    + split.
      * intros Heq. rewrite Heq in Hbad. discriminate.
      * intros [?|Hgood]; [lia|]. rewrite (Hgood t Ht) in Hbt. discriminate.
    + intros Heq. rewrite Heq in Hbad. discriminate.
  - destruct (Hall eq_refl) as [Hseq Hgood]. split; [split; auto | auto].
Qed.

(** [ParallelFor] returns [OK] exactly when every task succeeds or there
    is no worker; with workers, every task has then been handed out once,
    in the order of the counter, and without workers none. *)
Theorem parallel_for_ok_iff_all_succeed nthreads schedule s trace :
  ParallelFor num_tasks func nthreads schedule = Some (s, trace) ->
  (s = OK <-> nthreads = 0
              \/ forall task_id, task_id < num_tasks -> ok (func task_id) = true)
  /\ (s = OK ->
      claimed trace = seq 0 (if decide (nthreads = 0) then 0 else num_tasks)).
Proof. apply parallel_for_result. Qed.

End WorkersFacts.

Section TableStatus.
Import Reader FileReader.

Lemma ok_OK s : ok s = true <-> s = OK.
Proof. destruct s; simpl; split; congruence. Qed.

Lemma read_columns_ok func : forall n i,
  read_columns func i n = OK <-> forall k, (i <= k < i + n)%nat -> func k = OK.
Proof.
  induction n as [|n IH]; intros i; simpl.
  - split; [intros _ k Hk; lia | reflexivity].
  - destruct (func i) as [|code msg] eqn:Hi.
    + rewrite IH. split; intros H k Hk.
      * destruct (decide (k = i)) as [->|Hne]; [assumption | apply H; lia].
      * apply H. lia.
    + split; [discriminate|]. intros H. rewrite (H i) in Hi by lia. discriminate.
Qed.

Lemma read_columns_first func : forall n i k,
  (i <= k < i + n)%nat ->
  (forall j, (i <= j < k)%nat -> func j = OK) ->
  func k <> OK ->
  read_columns func i n = func k.
Proof.
  induction n as [|n IH]; intros i k Hk Hbefore Hbad; [lia|]. simpl.
  destruct (decide (k = i)) as [->|Hne].
  - destruct (func i); [congruence | reflexivity].
  - rewrite (Hbefore i) by lia. apply IH; [lia | | assumption].
    intros j Hj. apply Hbefore. lia.
Qed.

Lemma Forall_fields (read_field : Z -> Status) (field_indices : list Z) :
  Forall (fun f => read_field f = OK) field_indices
  <-> forall k, (k < length field_indices)%nat ->
        match field_indices !! k with
        | Some f => read_field f
        | None => OK
        end = OK.
Proof.
  rewrite Forall_lookup. split.
  - intros H k Hk. destruct (field_indices !! k) as [f|] eqn:Hf; [eauto | reflexivity].
  - intros H k f Hf. specialize (H k (lookup_lt_Some _ _ _ Hf)). rewrite Hf in H. exact H.
Qed.

(** With at least one thread allowed, [ReadTable] on indices that the
    schema accepts returns [OK] exactly when the read of every requested
    field has succeeded, whether the fields are read one after the other
    or by [ParallelFor]; read one after the other, a failing read ends the
    table read with its status, the first in the order of the fields. *)
Theorem table_read_status
        reader GetSchema read_field num_threads_ schedule indices field_indices s :
  GetSchema indices = OK ->
  ColumnIndicesToFieldIndices reader indices = Some field_indices ->
  1 <= num_threads_ ->
  ReadTable reader GetSchema read_field num_threads_ schedule indices = Some s ->
  (s = OK <-> Forall (fun f => read_field f = OK) field_indices)
  /\ (Z.min num_threads_ (Z.of_nat (length field_indices)) = 1 ->
      forall before f after,
        field_indices = before ++ f :: after ->
        Forall (fun g => read_field g = OK) before ->
        read_field f <> OK ->
        s = read_field f).
Proof.
  intros Hschema Hfields Hthreads. unfold ReadTable, read_fields.
  rewrite Hschema, Hfields.
  destruct (Z.eqb_spec (Z.min num_threads_ (Z.of_nat (length field_indices))) 1)
    as [Hone|Hmany].
  - intros [= <-]. split.
    + rewrite read_columns_ok, Forall_fields. split; intros H k Hk; apply H; lia.
    + intros _ before f after -> Hbefore Hbad.
      rewrite (read_columns_first _ _ 0%nat (length before)).
      * rewrite list_lookup_middle by reflexivity. reflexivity.
      * rewrite length_app. simpl. lia.
      * intros j Hj. rewrite lookup_app_l by lia.
        destruct (before !! j) as [g|] eqn:Hg; [|reflexivity].
        rewrite Forall_lookup in Hbefore. eauto.
      * rewrite list_lookup_middle by reflexivity. assumption.
  - intros H.
    destruct (ParallelFor.ParallelFor _ _ _ _) as [[s' trace]|] eqn:Hpar; [|discriminate].
    injection H as <-. apply parallel_for_result in Hpar as [Hiff _].
    split; [|lia]. rewrite Hiff, Forall_fields. split.
    + intros [Hzero|Hall] k Hk; [lia|]. apply ok_OK, Hall. assumption.
    + intros Hall. right. intros k Hk. apply ok_OK, Hall. assumption.
Qed.

End TableStatus.

Section LeafLevels.
Import Reader LeafReads.

Lemma countb_app {A} (f : A -> bool) l1 l2 :
  countb f (l1 ++ l2) = countb f l1 + countb f l2.
Proof. unfold countb. rewrite filter_app, length_app. lia. Qed.

Lemma countb_all {A} (f : A -> bool) l :
  (forall x, f x = true) -> countb f l = Z.of_nat (length l).
Proof.
  intros Hf. induction l as [|x l IH]; [reflexivity|].
  rewrite countb_cons, Hf, IH. simpl length. lia.
Qed.

Lemma levels_of_next_if_drained r it :
  levels_of (chunks_left (next_if_drained r it).1 (next_if_drained r it).2)
  = levels_of (chunks_left (Some r) it).
Proof.
  unfold next_if_drained, HasNext, Next, levels_of, chunks_left.
  destruct (unread r) as [|l ls] eqn:Hr; simpl.
  - destruct (pending_ it) as [|r2 rest] eqn:Hp; simpl; rewrite ?Hr, ?Hp; reflexivity.
  - rewrite Hr. reflexivity.
Qed.

(** One pass of a loop body hands out the first levels of the chunk. *)
Lemma read_levels (v : Z) r it :
  levels_of (chunks_left (Some r) it)
  = take (Z.to_nat v) (unread r)
    ++ levels_of (chunks_left
                    (next_if_drained (mkColumnReader (drop (Z.to_nat v) (unread r))) it).1
                    (next_if_drained (mkColumnReader (drop (Z.to_nat v) (unread r))) it).2).
Proof.
  rewrite levels_of_next_if_drained. unfold levels_of, chunks_left.
  rewrite !fmap_cons. simpl. rewrite app_assoc, take_drop. reflexivity.
Qed.

(** What the loop of [TypedReadBatch] has done when it ends: the levels
    it read are the first of those that were left, and the slots, the
    counters and the level buffers are those of these levels. *)
Lemma typed_loop_reads descr B fuel : forall st st',
  TypedReadBatch_loop fuel descr B st = LoopExit st' ->
  exists levels,
    levels_left_of st = levels ++ levels_left_of st'
    /\ (loop_reader st' = None \/ values_to_read st' <= 0)
    /\ if max_definition_level descr =? 0 then
         levels_seen st' = levels_seen st
         /\ valid_bits st' = valid_bits st
         /\ null_count_ st' = null_count_ st
         /\ valid_bits_idx_ st' = valid_bits_idx_ st + Z.of_nat (length levels)
         /\ values_to_read st' = values_to_read st - Z.of_nat (length levels)
         /\ Z.of_nat (length levels) <= Z.max 0 (values_to_read st)
       else
         levels_seen st' = levels_seen st ++ levels
         /\ valid_bits st' = valid_bits st ++ omap (spaced_slot descr) levels
         /\ null_count_ st'
            = null_count_ st + countb negb (omap (spaced_slot descr) levels)
         /\ valid_bits_idx_ st'
            = valid_bits_idx_ st + Z.of_nat (length (omap (spaced_slot descr) levels))
         /\ values_to_read st'
            = values_to_read st - Z.of_nat (length (omap (spaced_slot descr) levels))
         /\ (levels = [] \/ Z.of_nat (length (levels_seen st')) <= B).
Proof.
  destruct (max_definition_level descr =? 0) eqn:Hmax.
  - induction fuel as [|fuel IH]; intros st st' H; [discriminate|].
    destruct st as [v seen bits idx nulls r it].
    cbn [TypedReadBatch_loop loop_reader loop_input values_to_read] in H.
    rewrite Hmax in H.
    destruct r as [r|].
    2: { injection H as <-. exists []. simpl. repeat split; auto; lia. }
    destruct (Z.leb_spec v 0) as [Hv|Hv].
    { injection H as <-. exists []. simpl. repeat split; auto; lia. }
    pose proof (read_levels v r it) as Hleft.
    unfold ReadBatch in H.
    cbn [levels_seen valid_bits valid_bits_idx_ null_count_ loop_input] in H.
    destruct (next_if_drained _ it) as [r' it'] eqn:Hnext.
    apply IH in H as (levels & Hl & Hexit & Hs & Hb & Hn & Hi & Hv' & Hle).
    unfold levels_left_of in *. simpl in Hl, Hs, Hb, Hn, Hi, Hv', Hle, Hleft.
    exists (take (Z.to_nat v) (unread r) ++ levels).
    split; [simpl; rewrite Hleft, Hl, app_assoc; reflexivity|].
    split; [exact Hexit|].
    assert (Hcount : countb (is_value descr) (take (Z.to_nat v) (unread r))
                     = Z.of_nat (length (take (Z.to_nat v) (unread r)))).
    { apply countb_all. intros x. unfold is_value. rewrite Hmax. reflexivity. }
    rewrite Hcount in *. rewrite length_app.
    pose proof (length_take_le (unread r) (Z.to_nat v)) as Htake.
    rewrite length_take in *.
    repeat split; simpl; try assumption; lia.
  - induction fuel as [|fuel IH]; intros st st' H; [discriminate|].
    destruct st as [v seen bits idx nulls r it].
    cbn [TypedReadBatch_loop loop_reader loop_input values_to_read] in H.
    rewrite Hmax in H.
    destruct r as [r|].
    2: { injection H as <-. exists []. csimpl. rewrite !app_nil_r.
         repeat split; auto; unfold countb; simpl; lia. }
    destruct (Z.leb_spec v 0) as [Hv|Hv].
    { injection H as <-. exists []. csimpl. rewrite !app_nil_r.
      repeat split; auto; unfold countb; simpl; lia. }
    pose proof (read_levels v r it) as Hleft.
    unfold ReadBatchSpaced in H.
    cbn [levels_seen valid_bits valid_bits_idx_ null_count_ loop_input] in H.
    destruct (Z.ltb_spec B (Z.of_nat (length seen
                                      + length (take (Z.to_nat v) (unread r)))))
      as [Hover|Hfits]; [discriminate|].
    destruct (next_if_drained _ it) as [r' it'] eqn:Hnext.
    apply IH in H as (levels & Hl & Hexit & Hs & Hb & Hn & Hi & Hv' & Hle).
    unfold levels_left_of in *. simpl in Hl, Hs, Hb, Hn, Hi, Hv', Hleft.
    exists (take (Z.to_nat v) (unread r) ++ levels).
    split; [simpl; rewrite Hleft, Hl, app_assoc; reflexivity|].
    split; [exact Hexit|].
    fold (spaced_slot descr) in *.
    rewrite omap_app, countb_app, length_app.
    repeat split; simpl.
    + rewrite Hs, app_assoc. reflexivity.
    + rewrite Hb, app_assoc. reflexivity.
    + lia.
    + lia.
    + lia.
    + right. destruct Hle as [->|Hle]; [|exact Hle].
      rewrite Hs, app_nil_r, length_app. lia.
Qed.

(** The same for the loop of [ReadByteArrayBatch] and [ReadFLBABatch]. *)
Lemma builder_loop_reads slot descr fuel : forall st st',
  builder_loop fuel slot descr st = LoopExit st' ->
  exists levels,
    levels_left_of st = levels ++ levels_left_of st'
    /\ (loop_reader st' = None \/ values_to_read st' <= 0)
    /\ values_to_read st' = values_to_read st - Z.of_nat (length levels)
    /\ Z.of_nat (length levels) <= Z.max 0 (values_to_read st)
    /\ if max_definition_level descr =? 0 then
         levels_seen st' = levels_seen st
         /\ valid_bits st' = valid_bits st ++ replicate (length levels) true
       else
         levels_seen st' = levels_seen st ++ levels
         /\ valid_bits st' = valid_bits st ++ omap (slot descr) levels.
Proof.
  destruct (max_definition_level descr =? 0) eqn:Hmax;
    (induction fuel as [|fuel IH]; intros st st' H; [discriminate|]);
    destruct st as [v seen bits idx nulls r it];
    cbn [builder_loop loop_reader loop_input values_to_read] in H;
    rewrite Hmax in H;
    (destruct r as [r|];
     [|injection H as <-; exists []; csimpl; rewrite !app_nil_r; repeat split; auto; lia]);
    (destruct (Z.leb_spec v 0) as [Hv|Hv];
     [injection H as <-; exists []; csimpl; rewrite !app_nil_r; repeat split; auto; lia|]);
    pose proof (read_levels v r it) as Hleft;
    unfold ReadBatch in H;
    cbn [levels_seen valid_bits valid_bits_idx_ null_count_ loop_input] in H;
    destruct (next_if_drained _ it) as [r' it'] eqn:Hnext;
    apply IH in H as (levels & Hl & Hexit & Hv' & Hle & Hs & Hb);
    unfold levels_left_of in *; simpl in Hl, Hs, Hb, Hleft, Hv', Hle;
    exists (take (Z.to_nat v) (unread r) ++ levels);
    pose proof (length_take (unread r) (Z.to_nat v)) as Htake;
    (split; [simpl; rewrite Hleft, Hl, app_assoc; reflexivity|]);
    (split; [exact Hexit|]); rewrite length_app; simpl;
    (split; [lia|]); (split; [lia|]); split.
  - exact Hs.
  - rewrite Hb, <- app_assoc, <- replicate_add. reflexivity.
  - rewrite Hs, app_assoc. reflexivity.
  - rewrite Hb, omap_app, app_assoc. reflexivity.
Qed.

Lemma slot_of_def type descr l : slot_of type descr l = def_slot type descr l.1.
Proof.
  destruct l as [d r]. unfold def_slot, slot_of, spaced_slot, byte_array_slot, flba_slot,
    is_slot, is_value. destruct type; reflexivity.
Qed.

Lemma omap_slot_of type descr levels :
  omap (slot_of type descr) levels = omap (def_slot type descr) levels.*1.
Proof.
  induction levels as [|l levels IH]; [reflexivity|].
  rewrite fmap_cons. csimpl. rewrite slot_of_def, IH. reflexivity.
Qed.

(** The results of the two kinds of read, taken apart. *)
Lemma TypedReadBatch_inv n p a p' :
  TypedReadBatch n p = (Batch a, p') ->
  exists st,
    TypedReadBatch_loop (loop_fuel (column_reader_ p) (input_ p)) (descr_ p) n
                        (start_loop n p) = LoopExit st
    /\ p' = after_read p st
    /\ a = if 0 <? max_definition_level (descr_ p)
           then PrimitiveArray (field_type p) (valid_bits_idx_ st)
                               (Some (valid_bits st)) (null_count_ st)
           else PrimitiveArray (field_type p) (valid_bits_idx_ st) None 0.
Proof.
  unfold TypedReadBatch. intros H.
  destruct (TypedReadBatch_loop _ _ _ _) as [st| |]; try discriminate.
  injection H as <- <-. eauto.
Qed.

Lemma builder_read_inv slot n p a p' :
  builder_read slot n p = (Batch a, p') ->
  exists st,
    builder_loop (loop_fuel (column_reader_ p) (input_ p)) slot (descr_ p)
                 (start_loop n p) = LoopExit st
    /\ p' = after_read p st
    /\ a = Finish (field_type p) (valid_bits st).
Proof.
  unfold builder_read. intros H.
  destruct (builder_loop _ _ _ _) as [st| |]; try discriminate.
  injection H as <- <-. eauto.
Qed.

(** A read of a leaf, by the path its type takes. *)
Lemma PrimitiveImpl_NextBatch_paths n p :
  readable (field_type p) = true -> column_reader_ p <> None ->
  (slot_of (field_type p) (descr_ p) = spaced_slot (descr_ p)
   /\ PrimitiveImpl_NextBatch n p = TypedReadBatch n p)
  \/ (PrimitiveImpl_NextBatch n p
      = builder_read (slot_of (field_type p)) n p
      /\ (field_type p = STRING \/ field_type p = BINARY
          \/ exists w, field_type p = FIXED_SIZE_BINARY w)).
Proof.
  intros Hty Hr. unfold PrimitiveImpl_NextBatch.
  destruct (column_reader_ p); [|congruence].
  destruct (field_type p) as [| | | | | | | | | | | | | | | | | | [] | | | | ];
    try discriminate; try (left; split; reflexivity); right.
  - split; [reflexivity | auto].
  - split; [reflexivity | auto].
  - split; [reflexivity | eauto].
Qed.

Lemma levels_left_after p st :
  levels_left (after_read p st) = levels_left_of st.
Proof. reflexivity. Qed.

Lemma levels_left_start n p : levels_left_of (start_loop n p) = levels_left p.
Proof. reflexivity. Qed.

Lemma Batch_attached n p a p' :
  PrimitiveImpl_NextBatch n p = (Batch a, p') -> column_reader_ p <> None.
Proof.
  unfold PrimitiveImpl_NextBatch. destruct (column_reader_ p); [discriminate|].
  intros [=].
Qed.

Lemma leaf_read_levels n p a p' :
  PrimitiveImpl_NextBatch n p = (Batch a, p') ->
  readable (field_type p) = true ->
  exists levels,
    levels_left p = levels ++ levels_left p'
    /\ Z.of_nat (length levels) <= Z.max 0 n
    /\ (0 < max_definition_level (descr_ p) ->
        def_levels_buffer_ p' = levels.*1
        /\ (0 < max_repetition_level (descr_ p) -> rep_levels_buffer_ p' = levels.*2)).
Proof.
  intros H Hty. pose proof (Batch_attached _ _ _ _ H) as Hr.
  destruct (PrimitiveImpl_NextBatch_paths n p Hty Hr) as [[_ Hpath]|[Hpath _]];
    rewrite Hpath in H.
  - apply TypedReadBatch_inv in H as (st & Hloop & -> & _).
    apply typed_loop_reads in Hloop as (levels & Hl & _ & Hrest).
    exists levels. rewrite levels_left_after, <- Hl, levels_left_start.
    split; [reflexivity|].
    destruct (Z.eqb_spec (max_definition_level (descr_ p)) 0) as [Hz|Hnz].
    + destruct Hrest as (_ & _ & _ & _ & _ & Hle). simpl in Hle. split; [exact Hle | lia].
    + destruct Hrest as (Hs & _ & _ & _ & _ & Hle). simpl in Hs, Hle. split.
      * destruct Hle as [->|Hle]; [simpl; lia|]. rewrite Hs in Hle. lia.
      * intros Hd. unfold after_read. simpl.
        rewrite (proj2 (Z.ltb_lt _ _) Hd), Hs. split; [reflexivity|].
        intros Hrep. rewrite (proj2 (Z.ltb_lt _ _) Hrep). reflexivity.
  - apply builder_read_inv in H as (st & Hloop & -> & _).
    apply builder_loop_reads in Hloop as (levels & Hl & _ & _ & Hle & Hrest).
    exists levels. rewrite levels_left_after, <- Hl, levels_left_start.
    split; [reflexivity|]. split; [exact Hle|].
    intros Hd. destruct (Z.eqb_spec (max_definition_level (descr_ p)) 0) as [Hz|Hnz]; [lia|].
    destruct Hrest as [Hs _]. simpl in Hs. unfold after_read. simpl.
    rewrite (proj2 (Z.ltb_lt _ _) Hd), Hs. split; [reflexivity|].
    intros Hrep. rewrite (proj2 (Z.ltb_lt _ _) Hrep). reflexivity.
Qed.


Lemma leaf_array_slots n p a p' :
  PrimitiveImpl_NextBatch n p = (Batch a, p') ->
  readable (field_type p) = true ->
  0 < max_definition_level (descr_ p) ->
  a = PrimitiveArray (field_type p)
        (Z.of_nat (length (omap (def_slot (field_type p) (descr_ p))
                                (def_levels_buffer_ p'))))
        (Some (omap (def_slot (field_type p) (descr_ p)) (def_levels_buffer_ p')))
        (countb negb (omap (def_slot (field_type p) (descr_ p))
                           (def_levels_buffer_ p'))).
Proof.
  intros H Hty Hd. pose proof (Batch_attached _ _ _ _ H) as Hr.
  assert (Hnz : (max_definition_level (descr_ p) =? 0) = false) by (apply Z.eqb_neq; lia).
  assert (Hpos : (0 <? max_definition_level (descr_ p)) = true) by (apply Z.ltb_lt; lia).
  destruct (PrimitiveImpl_NextBatch_paths n p Hty Hr) as [[Hslot Hpath]|[Hpath _]];
    rewrite Hpath in H.
  - apply TypedReadBatch_inv in H as (st & Hloop & -> & ->).
    apply typed_loop_reads in Hloop as (levels & _ & _ & Hrest).
    rewrite Hnz in Hrest. destruct Hrest as (Hs & Hb & Hn & Hi & _).
    simpl in Hs, Hb, Hn, Hi. unfold after_read. simpl. rewrite Hpos, Hs.
    rewrite <- omap_slot_of, Hslot, Hb, Hn, Hi. reflexivity.
  - apply builder_read_inv in H as (st & Hloop & -> & ->).
    apply builder_loop_reads in Hloop as (levels & _ & _ & _ & _ & Hrest).
    rewrite Hnz in Hrest. destruct Hrest as [Hs Hb]. simpl in Hs, Hb.
    unfold after_read, Finish. simpl. rewrite Hpos, Hs, <- omap_slot_of, Hb. reflexivity.
Qed.

(** The array of a leaf with definition levels follows from the levels
    the read leaves in the buffer: one slot, in order, for each level the
    read path of the type gives one, valid when the path appends a value;
    the length and the null count are those of the slots. *)
Theorem leaf_array_follows_def_levels n p a p' :
  0 <= n ->
  PrimitiveImpl_NextBatch n p = (Batch a, p') ->
  readable (field_type p) = true ->
  0 < max_definition_level (descr_ p) ->
  a = PrimitiveArray (field_type p)
        (Z.of_nat (length (omap (def_slot (field_type p) (descr_ p))
                                (def_levels_buffer_ p'))))
        (Some (omap (def_slot (field_type p) (descr_ p)) (def_levels_buffer_ p')))
        (countb negb (omap (def_slot (field_type p) (descr_ p))
                           (def_levels_buffer_ p'))).
Proof. intros _. apply leaf_array_slots. Qed.

Lemma length_omap_all {A B} (f : A -> option B) l :
  Forall (fun x => f x <> None) l -> length (omap f l) = length l.
Proof.
  induction 1 as [|x l Hx _ IH]; [reflexivity|]. csimpl.
  destruct (f x); [simpl; congruence | congruence].
Qed.

(** When every level has a slot the loop of [TypedReadBatch] stays inside
    the level buffers. *)
Lemma typed_loop_defined descr B fuel : forall st,
  max_definition_level descr = 0
  \/ (Forall (fun l => spaced_slot descr l <> None) (levels_left_of st)
      /\ Z.of_nat (length (levels_seen st)) + Z.max 0 (values_to_read st) <= B) ->
  TypedReadBatch_loop fuel descr B st <> LoopUndefined.
Proof.
  induction fuel as [|fuel IH]; intros st Hflat; [discriminate|].
  destruct st as [v seen bits idx nulls r it].
  cbn [TypedReadBatch_loop loop_reader loop_input values_to_read].
  destruct r as [r|]; [|discriminate].
  destruct (Z.leb_spec v 0) as [Hv|Hv]; [discriminate|].
  pose proof (read_levels v r it) as Hleft.
  pose proof (length_take (unread r) (Z.to_nat v)) as Htake.
  destruct (Z.eqb_spec (max_definition_level descr) 0) as [Hz|Hnz];
    unfold ReadBatch, ReadBatchSpaced;
    cbn [levels_seen valid_bits valid_bits_idx_ null_count_ loop_input].
  - destruct (next_if_drained _ it) as [r' it']. apply IH. by left.
  - destruct Hflat as [Hflat|[Hall Hroom]]; [lia|].
    unfold levels_left_of in Hall. cbn [loop_reader loop_input] in Hall.
    simpl in Hroom. rewrite Hleft in Hall.
    apply Forall_app in Hall as [Htaken Hrest].
    destruct (Z.ltb_spec B (Z.of_nat (length seen
                                      + length (take (Z.to_nat v) (unread r)))))
      as [Hover|Hfits]; [lia|].
    destruct (next_if_drained _ it) as [r' it']. apply IH. right.
    unfold levels_left_of. simpl in *. split; [exact Hrest|].
    fold (spaced_slot descr). rewrite (length_omap_all _ _ Htaken), length_app. lia.
Qed.

(** The count of a read that gives every level a slot. *)
Lemma read_count (n total taken : Z) (levels rest : list Level) (stopped : Prop) :
  0 <= n ->
  taken = Z.of_nat (length levels) ->
  taken <= Z.max 0 n ->
  (stopped \/ n - taken <= 0) ->
  (stopped -> rest = []) ->
  levels = take (Z.to_nat n) (levels ++ rest)
  /\ rest = drop (Z.to_nat n) (levels ++ rest)
  /\ taken = Z.min n (Z.of_nat (length (levels ++ rest))).
Proof.
  intros Hn -> Hle Hexit Hstop.
  assert (Hcases : rest = [] \/ length levels = Z.to_nat n).
  { destruct Hexit as [H|H]; [left; auto | right; lia]. }
  destruct Hcases as [->|Hlen].
  - rewrite app_nil_r, take_ge, drop_ge by lia. repeat split; try reflexivity. lia.
  - rewrite <- Hlen, take_app_length, drop_app_length, length_app.
    repeat split; try reflexivity. lia.
Qed.

Lemma leaf_read_slots n p :
  leaf_attached p ->
  column_reader_ p <> None ->
  readable (field_type p) = true ->
  0 <= n ->
  max_definition_level (descr_ p) = 0
  \/ (0 < max_definition_level (descr_ p)
      /\ Forall (fun l => slot_of (field_type p) (descr_ p) l <> None) (levels_left p)) ->
  exists a p',
    PrimitiveImpl_NextBatch n p = (Batch a, p')
    /\ array_length a = Z.min n (Z.of_nat (length (levels_left p)))
    /\ levels_left p' = drop (Z.to_nat n) (levels_left p)
    /\ leaf_attached p'.
Proof.
  intros Hatt Hr Hty Hn Hflat.
  assert (Hstopped : forall st, attached (loop_reader st) (loop_input st) ->
            loop_reader st = None -> levels_left_of st = []).
  { intros st Ha Hnone. unfold levels_left_of, chunks_left. rewrite Hnone.
    rewrite (Ha Hnone). reflexivity. }
  destruct (PrimitiveImpl_NextBatch_paths n p Hty Hr) as [[Hslot Hpath]|[Hpath _]];
    rewrite Hpath.
  - (* TypedReadBatch *)
    pose proof (typed_loop_exit (descr_ p) n (loop_fuel (column_reader_ p) (input_ p))
                  (start_loop n p) (Nat.le_refl _) Hatt) as Hexit.
    pose proof (typed_loop_defined (descr_ p) n (loop_fuel (column_reader_ p) (input_ p))
                  (start_loop n p)) as Hdef.
    pose proof (typed_loop_reads (descr_ p) n (loop_fuel (column_reader_ p) (input_ p))
                  (start_loop n p)) as Hreads.
    unfold TypedReadBatch.
    destruct (TypedReadBatch_loop _ _ _ _) as [st| |]; [|exfalso|destruct Hexit].
    2: { apply Hdef; [|reflexivity]. destruct Hflat as [Hz|[Hpos Hall]]; [by left|].
         right. rewrite levels_left_start, <- Hslot. split; [exact Hall | simpl; lia]. }
    destruct Hexit as [Hatt' _].
    destruct (Hreads st eq_refl) as (levels & Hl & Hstop & Hrest).
    rewrite levels_left_start in Hl.
    eexists _, _. split; [reflexivity|]. rewrite levels_left_after.
    destruct (Z.eqb_spec (max_definition_level (descr_ p)) 0) as [Hz|Hnz].
    + destruct Hrest as (_ & _ & _ & Hi & Hv' & Hle). simpl in Hi, Hv', Hle.
      destruct (read_count n (Z.of_nat (length (levels_left p)))
                  (Z.of_nat (length levels)) levels (levels_left_of st)
                  (loop_reader st = None) Hn eq_refl Hle) as (Htake & Hdrop & Hmin).
      { destruct Hstop; [by left | right; lia]. }
      { apply Hstopped, Hatt'. }
      rewrite Hl, <- Hdrop, <- Hmin.
      rewrite (proj2 (Z.ltb_ge _ _)) by lia. simpl. split; [lia|]. split; [reflexivity|].
      exact Hatt'.
    + destruct Hflat as [Hz|[Hpos Hall]]; [lia|].
      destruct Hrest as (Hs & Hb & _ & Hi & Hv' & Hle). simpl in Hs, Hi, Hv', Hle.
      rewrite Hl, Hslot in Hall. apply Forall_app in Hall as [Htaken _].
      rewrite (length_omap_all _ _ Htaken) in Hi, Hv'.
      destruct (read_count n (Z.of_nat (length (levels_left p)))
                  (Z.of_nat (length levels)) levels (levels_left_of st)
                  (loop_reader st = None) Hn eq_refl) as (Htake & Hdrop & Hmin).
      { destruct Hle as [->|Hle]; [simpl; lia|]. rewrite Hs in Hle. lia. }
      { destruct Hstop; [by left | right; lia]. }
      { apply Hstopped, Hatt'. }
      rewrite Hl, <- Hdrop, <- Hmin.
      rewrite (proj2 (Z.ltb_lt _ _)) by lia. simpl. split; [lia|]. split; [reflexivity|].
      exact Hatt'.
  - (* the builders *)
    destruct (builder_loop_exit (slot_of (field_type p)) (descr_ p)
                (loop_fuel (column_reader_ p) (input_ p)) (start_loop n p)
                (Nat.le_refl _) Hatt) as (st & Hloop & Hatt' & _).
    unfold builder_read. rewrite Hloop.
    apply builder_loop_reads in Hloop as (levels & Hl & Hstop & Hv' & Hle & Hrest).
    rewrite levels_left_start in Hl. simpl in Hv', Hle.
    eexists _, _. split; [reflexivity|]. rewrite levels_left_after.
    destruct (read_count n (Z.of_nat (length (levels_left p)))
                (Z.of_nat (length levels)) levels (levels_left_of st)
                (loop_reader st = None) Hn eq_refl Hle) as (Htake & Hdrop & Hmin).
    { destruct Hstop; [by left | right; lia]. }
    { apply Hstopped, Hatt'. }
    rewrite Hl, <- Hdrop, <- Hmin. split; [|split; [reflexivity | exact Hatt']].
    unfold Finish. simpl.
    destruct (Z.eqb_spec (max_definition_level (descr_ p)) 0) as [Hz|Hnz].
    + destruct Hrest as [_ ->]. simpl. rewrite length_replicate. reflexivity.
    + destruct Hflat as [Hz|[Hpos Hall]]; [lia|].
      destruct Hrest as [_ ->]. simpl.
      rewrite Hl in Hall. apply Forall_app in Hall as [Htaken _].
      rewrite (length_omap_all _ _ Htaken). reflexivity.
Qed.

(** A leaf all of whose levels have a slot (as have all levels of a
    column without definition levels) is read in order, [batch_size]
    levels at a call as long as there are as many: the array has one slot
    for each, the leaf is left with the levels behind them, and the
    buffers are never overrun. *)
Theorem leaf_read_of_slots n p :
  leaf_attached p ->
  column_reader_ p <> None ->
  readable (field_type p) = true ->
  0 <= n ->
  max_definition_level (descr_ p) = 0
  \/ (0 < max_definition_level (descr_ p)
      /\ Forall (fun l => slot_of (field_type p) (descr_ p) l <> None) (levels_left p)) ->
  exists a p',
    PrimitiveImpl_NextBatch n p = (Batch a, p')
    /\ array_length a = Z.min n (Z.of_nat (length (levels_left p)))
    /\ levels_left p' = drop (Z.to_nat n) (levels_left p)
    /\ leaf_attached p'.
Proof. exact (leaf_read_slots n p). Qed.

End LeafLevels.

Section ColumnReads.
Import Reader FileReader LeafReads Columns.

Lemma length_levels_of chunks : length (levels_of chunks) = unread_in chunks.
Proof.
  unfold levels_of, unread_in. induction chunks as [|r chunks IH]; [reflexivity|].
  rewrite !fmap_cons. simpl. rewrite length_app, IH. reflexivity.
Qed.

Lemma length_levels_left p : length (levels_left p) = unread_levels p.
Proof. apply length_levels_of. Qed.

Lemma GetColumn_all reader schema i :
  GetColumn reader schema i (-1)
  = fresh_leaf reader i (descr_of schema i) (type_of schema i).
Proof. reflexivity. Qed.

Lemma column_batch_size_nonneg reader i :
  metadata_consistent reader -> 0 <= column_batch_size reader i.
Proof.
  intros Hmeta.
  rewrite <- (fresh_leaf_unread reader i (descr_of (mkSchema (fun _ => mkDescr 0 0 false false 0 (fun _ => false)) (fun _ => NA)) i) NA Hmeta).
  lia.
Qed.

(** [ReadColumn] reads a flat column whole: when the metadata counts what
    the chunks hold, the count is in the range of [int], and every level
    of the column has a slot (as in a column without definition levels),
    the one batch gives an array with a slot for every value of every row
    group and leaves nothing unread.  On a file without row groups it
    gives no array. *)
Theorem read_column_reads_every_row_group reader schema i :
  metadata_consistent reader ->
  readable (type_of schema i) = true ->
  column_batch_size reader i < 2 ^ 31 ->
  max_definition_level (descr_of schema i) = 0
  \/ (0 < max_definition_level (descr_of schema i)
      /\ Forall (fun l => slot_of (type_of schema i) (descr_of schema i) l <> None)
                (levels_left (GetColumn reader schema i (-1)))) ->
  (num_row_groups reader = 0%nat -> (ReadColumn reader schema i).1 = Exhausted)
  /\ ((0 < num_row_groups reader)%nat ->
      exists a p',
        ReadColumn reader schema i = (Batch a, p')
        /\ array_length a = column_batch_size reader i
        /\ levels_left p' = []).
Proof.
  intros Hmeta Hty Hint Hflat. split.
  - intros HG. unfold ReadColumn, GetColumn, PrimitiveImpl_NextBatch, new_PrimitiveImpl,
      NextRowGroup, Next, AllRowGroupsIterator. simpl. rewrite HG. reflexivity.
  - intros HG. unfold ReadColumn. fold (column_batch_size reader i).
    pose proof (column_batch_size_nonneg reader i Hmeta) as Hpos.
    rewrite to_int_small by lia.
    set (p := GetColumn reader schema i (-1)) in *.
    assert (Hp : p = fresh_leaf reader i (descr_of schema i) (type_of schema i))
      by reflexivity.
    assert (Hlen : Z.of_nat (length (levels_left p)) = column_batch_size reader i).
    { rewrite length_levels_left, Hp. apply fresh_leaf_unread. assumption. }
    destruct (leaf_read_slots (column_batch_size reader i) p) as (a & p' & Hread & Ha & Hl & _).
    + rewrite Hp. apply leaf_reachable_attached. constructor.
    + rewrite Hp. apply fresh_leaf_started. assumption.
    + rewrite Hp. unfold fresh_leaf. rewrite new_PrimitiveImpl_type. assumption.
    + assumption.
    + assert (Hd : descr_ p = descr_of schema i).
      { rewrite Hp. unfold fresh_leaf, new_PrimitiveImpl, NextRowGroup.
        destruct (Next _). reflexivity. }
      assert (Ht : field_type p = type_of schema i).
      { rewrite Hp. unfold fresh_leaf. apply new_PrimitiveImpl_type. }
      rewrite Hd, Ht. exact Hflat.
    + exists a, p'. split; [exact Hread|]. split; [lia|].
      rewrite Hl. apply drop_ge. lia.
Qed.

End ColumnReads.

Section ReaderTrees.
Import Reader FileReader LeafReads Columns Nodes.
Variable reader : ParquetFileReader.
Variable schema : SchemaDescriptor.
Variable IsStruct : Node -> bool.
Variable GetTopNonRepeatedParentLevel : Node -> Z -> Z.
Variable indices : list Z.
Variable row_group_index : Z.

Local Notation "'build'" :=
  (GetReaderForNode reader schema IsStruct GetTopNonRepeatedParentLevel
                    indices row_group_index) (only parsing).
Local Notation "'covered'" :=
  (covers reader schema IsStruct indices row_group_index) (only parsing).

Lemma Node_ind' (P : Node -> Prop) :
  (forall repetition column_index, P (PrimitiveNode repetition column_index)) ->
  (forall repetition logical_type fields,
      Forall P fields -> P (GroupNode repetition logical_type fields)) ->
  forall node, P node.
Proof.
  intros Hp Hg. fix IH 1. intros [rep c | rep lt fields].
  - apply Hp.
  - apply Hg. revert fields. fix IHfs 1. intros [|f fs]; constructor.
    + apply IH.
    + apply IHfs.
Qed.

Lemma has_children_leaves t : has_children t = true -> leaves t <> [].
Proof.
  induction t as [p | child a b c IH | children a b c IH] using Impl_ind'; simpl.
  - discriminate.
  - exact IH.
  - destruct children as [|c0 cs]; [discriminate|]. intros H. simpl in H.
    apply andb_true_iff in H as [H0 _]. apply Forall_cons in IH as [IH0 _].
    rewrite fmap_cons. simpl. intros Hnil. apply app_eq_nil in Hnil as [Hnil _].
    exact (IH0 H0 Hnil).
Qed.

Lemma collect_covers d r fields : forall children,
  Forall (fun node => forall d r built, build node d r = Some built -> covered node built)
         fields ->
  collect (fun field => build field d r) fields = Some children ->
  concat (leaves <$> children)
  = (fun c => GetColumn reader schema c row_group_index)
      <$> filter (fun c => c ∈ indices) (concat (reached IsStruct <$> fields))
  /\ forallb has_children children = true.
Proof.
  induction fields as [|f fs IH]; intros children Hall H; simpl in H.
  - injection H as <-. split; reflexivity.
  - apply Forall_cons in Hall as [Hf Hfs].
    destruct (build f d r) as [child|] eqn:Hchild; [|discriminate]. simpl in H.
    destruct (collect _ fs) as [rest|] eqn:Hrest; [|discriminate]. simpl in H.
    injection H as <-. destruct (IH rest Hfs eq_refl) as [Hl Hc].
    destruct (Hf d r child Hchild) as [Hleaves Hhas].
    rewrite fmap_cons. simpl. rewrite filter_app, fmap_app, <- Hl, <- Hleaves.
    destruct child as [c|]; simpl in *.
    + split; [reflexivity|]. rewrite Hhas, Hc. reflexivity.
    + split; [reflexivity | exact Hc].
Qed.

(** The tree of a node and, for the walk below the repeated group of a
    list, the trees of its fields. *)
Lemma build_covers_fields node :
  (forall d r built, build node d r = Some built -> covered node built)
  /\ match node with
     | PrimitiveNode _ _ => True
     | GroupNode _ _ fields =>
         Forall (fun field => forall d r built,
                     build field d r = Some built -> covered field built) fields
     end.
Proof.
  induction node as [rep c | rep lt fields IH] using Node_ind'.
  - split; [|exact I]. intros d r built H.
    simpl in H. unfold covers. simpl. rewrite filter_cons, filter_nil.
    destruct (decide (c ∈ indices)) as [Hin|Hout].
    + rewrite bool_decide_eq_true_2 in H by assumption. injection H as <-.
      split; reflexivity.
    + rewrite bool_decide_eq_false_2 in H by assumption. injection H as <-.
      split; reflexivity.
  - assert (Hfields : Forall (fun field => forall d r built,
                                  build field d r = Some built -> covered field built)
                             fields).
    { eapply Forall_impl; [exact IH|]. intros f [Hf _]. exact Hf. }
    split; [|exact Hfields]. intros d r built H.
    unfold covers. cbn [GetReaderForNode reached] in *.
    destruct (IsStruct (GroupNode rep lt fields)).
    + destruct (collect _ fields) as [children|] eqn:Hc; [|discriminate]. simpl in H.
      injection H as <-.
      destruct (collect_covers _ _ _ _ Hfields Hc) as [Hl Hh].
      rewrite <- Hl.
      destruct children as [|c0 cs]; simpl; [split; reflexivity|].
      split; [reflexivity | exact Hh].
    + destruct fields as [|[rep0 c0 | rep0 lt0 rep_fields] fs]; try discriminate.
      apply Forall_cons in IH as [[IH0 IHelem] _].
      assert (Hwrap : forall child ldl lrl ms node0,
                 covered node0 child ->
                 from_option leaves []
                   (match child with
                    | Some c => Some (ListOf c ldl lrl ms)
                    | None => None
                    end)
                 = (fun c => GetColumn reader schema c row_group_index)
                     <$> filter (fun c => c ∈ indices) (reached IsStruct node0)
                 /\ from_option has_children true
                      (match child with
                       | Some c => Some (ListOf c ldl lrl ms)
                       | None => None
                       end) = true).
      { intros [c|] ldl lrl ms node0 [Hl Hh]; split; assumption. }
      destruct lt.
      1,2,3,5: (destruct (build (GroupNode rep0 lt0 rep_fields) _ _) as [child|] eqn:Hchild;
                [|discriminate]; simpl in H; injection H as <-;
                apply Hwrap, (IH0 _ _ _ Hchild)).
      destruct rep_fields as [|element_node rest]; [discriminate|].
      apply Forall_cons in IHelem as [IHelem _].
      destruct (build element_node _ _) as [child|] eqn:Hchild; [|discriminate].
      simpl in H. injection H as <-. apply Hwrap, (IHelem _ _ _ Hchild).
Qed.

Lemma build_covers node d r built :
  build node d r = Some built ->
  match built with
  | Some reader_impl =>
      leaves reader_impl
      = (fun c => GetColumn reader schema c row_group_index)
          <$> filter (fun c => c ∈ indices) (reached IsStruct node)
      /\ leaves reader_impl <> []
      /\ has_children reader_impl = true
  | None => forall c, c ∈ reached IsStruct node -> c ∉ indices
  end.
Proof.
  intros H. destruct (proj1 (build_covers_fields node) d r built H) as [Hl Hh].
  destruct built as [t|]; simpl in *.
  - split; [exact Hl|]. split; [apply has_children_leaves|]; exact Hh.
  - intros c Hc Hin. symmetry in Hl. apply fmap_nil_inv in Hl.
    assert (Hf : c ∈ filter (fun c => c ∈ indices) (reached IsStruct node))
      by (apply list_elem_of_filter; auto).
    rewrite Hl in Hf. inversion Hf.
Qed.

(** The reader tree [GetReaderForNode] builds for a node has a leaf
    reader, made by [GetColumn], for each requested column that the walk
    below the node comes to, in the order of the walk, and every struct
    reader in it has a child; there is no reader exactly when none of
    those columns is requested. *)
Theorem reader_tree_covers_requested_columns node d r built :
  build node d r = Some built ->
  match built with
  | Some reader_impl =>
      leaves reader_impl
      = (fun c => GetColumn reader schema c row_group_index)
          <$> filter (fun c => c ∈ indices) (reached IsStruct node)
      /\ leaves reader_impl <> []
      /\ has_children reader_impl = true
  | None => forall c, c ∈ reached IsStruct node -> c ∉ indices
  end.
Proof. exact (build_covers node d r built). Qed.




End ReaderTrees.

Section BatchBounds.
Import Reader LeafReads.










End BatchBounds.

Section ReadEdges.
Import Reader LeafReads.



(** A struct reader asks its children in order and stops at the first
    that is exhausted: the struct then gives no array, the children before
    that one have been read (their batches are dropped) and the children
    behind it have not been asked. *)
Theorem struct_read_stops_at_exhausted_child
        n before child after struct_def_level struct_rep_level top_parent_def_level :
  Forall (fun c => exists a, (NextBatch n c).1 = Batch a) before ->
  (NextBatch n child).1 = Exhausted ->
  NextBatch n (StructOf (before ++ child :: after) struct_def_level struct_rep_level
                        top_parent_def_level)
  = (Exhausted,
     StructOf (((fun c => (NextBatch n c).2) <$> before)
               ++ (NextBatch n child).2 :: after)
              struct_def_level struct_rep_level top_parent_def_level).
Proof.
  intros Hbefore Hchild. cbn [NextBatch].
  assert (Hg : gather (NextBatch n) (before ++ child :: after)
               = (inl Exhausted,
                  ((fun c => (NextBatch n c).2) <$> before)
                  ++ (NextBatch n child).2 :: after)).
  { induction Hbefore as [|b before [a Ha] _ IH]; simpl.
    - destruct (NextBatch n child) as [r c']. simpl in Hchild. subst r. reflexivity.
    - simpl in IH. destruct (NextBatch n b) as [r b']. simpl in Ha. subst r.
      rewrite IH. reflexivity. }
  rewrite Hg. reflexivity.
Qed.

End ReadEdges.

Section ListLevels.
Import Reader LevelStreams.

Lemma def_group_spec cmr ldl : forall defs reps def_level,
  length defs = length reps ->
  exists levels,
    def_group cmr ldl def_level defs reps = Some levels
    /\ length levels = S (length (filter (fun r => r < cmr) reps))
    /\ Forall (fun d => d <= ldl) levels.
Proof.
  induction defs as [|d defs IH]; intros [|r reps] def_level Hlen; try discriminate.
  - exists [Z.min def_level ldl]. repeat split. constructor; [lia | constructor].
  - simpl. injection Hlen as Hlen. rewrite filter_cons.
    destruct (Z.leb_spec cmr r) as [Hr|Hr].
    + rewrite decide_False by lia. apply IH. assumption.
    + rewrite decide_True by lia.
      destruct (IH reps (Z.max (-1) d) Hlen) as (levels & -> & Hl & Hall).
      exists (Z.min def_level ldl :: levels). simpl. rewrite Hl.
      repeat split. constructor; [lia | assumption].
Qed.

Lemma rep_group_spec cmr lrl : forall reps level,
  level <= lrl ->
  length (rep_group cmr lrl level reps) = S (length (filter (fun r => r < cmr) reps))
  /\ Forall (fun r => r <= lrl) (rep_group cmr lrl level reps).
Proof.
  induction reps as [|r reps IH]; intros level Hlevel; simpl.
  - split; [reflexivity|]. constructor; [assumption | constructor].
  - rewrite filter_cons. destruct (Z.leb_spec cmr r) as [Hr|Hr].
    + rewrite decide_False by lia. apply IH. lia.
    + rewrite decide_True by lia.
      destruct (IH (Z.min lrl r) ltac:(lia)) as [Hl Hall].
      simpl. rewrite Hl. split; [reflexivity|]. constructor; assumption.
Qed.

(** The two level streams of a list reader, built from those of its
    child (of one length, as the source checks in debug builds), have one
    level for every list the child's repetition levels tell apart, so they
    are of one length, no longer than the child's; no definition level is
    above the list's, no repetition level above the list's. *)
Theorem list_level_streams
        child list_def_level list_rep_level min_space_def_level
        child_def_levels child_rep_levels :
  GetDefLevels child = Some child_def_levels ->
  GetRepLevels child = Some child_rep_levels ->
  length child_def_levels = length child_rep_levels ->
  exists def_levels rep_levels,
    GetDefLevels (ListOf child list_def_level list_rep_level min_space_def_level)
    = Some def_levels
    /\ GetRepLevels (ListOf child list_def_level list_rep_level min_space_def_level)
       = Some rep_levels
    /\ length def_levels = lists_started (max_rep_level child) child_rep_levels
    /\ length rep_levels = lists_started (max_rep_level child) child_rep_levels
    /\ (length def_levels <= length child_def_levels)%nat
    /\ Forall (fun d => d <= list_def_level) def_levels
    /\ Forall (fun r => r <= list_rep_level) rep_levels.
Proof.
  intros Hdef Hrep Hlen. cbn [GetDefLevels GetRepLevels]. rewrite Hdef, Hrep. simpl.
  unfold ListImpl_GetDefLevels, ListImpl_GetRepLevels, lists_started.
  destruct child_def_levels as [|d defs], child_rep_levels as [|r reps];
    try discriminate.
  - exists [], []. repeat split; constructor.
  - simpl in Hlen. injection Hlen as Hlen. simpl tail.
    destruct (def_group_spec (max_rep_level child) list_def_level defs reps
                (Z.max (-1) d) Hlen) as (levels & -> & Hl & Hall).
    destruct (rep_group_spec (max_rep_level child) list_rep_level reps
                (Z.min list_rep_level r) ltac:(lia)) as [Hrl Hrall].
    eexists _, _. split; [reflexivity|]. split; [reflexivity|].
    split; [exact Hl|]. split; [exact Hrl|]. split; [|split; assumption].
    rewrite Hl. simpl. rewrite Hlen. pose proof (length_filter (fun r => r < max_rep_level child) reps). lia.
Qed.

End ListLevels.

Section StructRepLevels.
Import Reader LevelStreams.

Lemma fold_child_rep_spec child : forall n i result,
  (i + n <= length child)%nat -> (i + n <= length result)%nat ->
  exists result',
    fold_child_rep child n i result = Some result'
    /\ length result' = length result
    /\ forall j, result' !! j
         = if bool_decide (i <= j < i + n)%nat
           then (fun r => Z.min r (default 0 (child !! j))) <$> result !! j
           else result !! j.
Proof.
  induction n as [|n IH]; intros i result Hc Hr; simpl.
  - exists result. repeat split. intros j. case_bool_decide; [lia | reflexivity].
  - destruct (lookup_lt_is_Some_2 child i ltac:(lia)) as [cr Hcr].
    destruct (lookup_lt_is_Some_2 result i ltac:(lia)) as [r Hri].
    rewrite Hcr, Hri.
    destruct (IH (S i) (<[i := Z.min r cr]> result)) as (res' & -> & Hlen & Hlk).
    { lia. } { rewrite length_insert. lia. }
    exists res'. split; [reflexivity|]. split; [by rewrite Hlen, length_insert|].
    intros j. rewrite Hlk.
    destruct (decide (j = i)) as [->|Hne].
    + rewrite bool_decide_eq_false_2 by lia. rewrite bool_decide_eq_true_2 by lia.
      rewrite list_lookup_insert_eq by lia. rewrite Hri, Hcr. reflexivity.
    + rewrite list_lookup_insert_ne by lia.
      repeat case_bool_decide; try lia; reflexivity.
Qed.

Lemma merge_children_rep (L : nat) : forall streams result,
  length result = L ->
  Forall (fun c => length c = L) streams ->
  exists merged,
    foldl (fun acc child_rep_levels =>
             result_levels ← acc;
             fold_child_rep child_rep_levels L 0 result_levels)
          (Some result) streams = Some merged
    /\ length merged = L
    /\ forall i v, result !! i = Some v ->
         merged !! i = Some (min_at i v streams).
Proof.
  induction streams as [|c streams IH]; intros result Hlen Hall; simpl.
  - exists result. auto.
  - apply Forall_cons in Hall as [Hc Hall].
    destruct (fold_child_rep_spec c L 0 result) as (res' & Hres & Hlen' & Hlk);
      [lia | lia |].
    rewrite Hres.
    destruct (IH res' ltac:(lia) Hall) as (merged & -> & Hm & Hat).
    exists merged. split; [reflexivity|]. split; [assumption|].
    intros i v Hv. apply Hat. rewrite Hlk, Hv.
    apply lookup_lt_Some in Hv. rewrite bool_decide_eq_true_2 by lia. reflexivity.
Qed.

(** [memset] with a byte between 0 and 127 leaves 257 times the byte in
    every 16-bit entry, which is not below the byte. *)
Lemma memset_int16_small c : 0 <= c <= 127 -> memset_int16 c = 257 * c.
Proof.
  intros Hc. unfold memset_int16, to_int16. rewrite (Z.mod_small c 256) by lia.
  rewrite Z.mod_small by lia. lia.
Qed.

(** The repetition levels of a struct reader, from those of its children
    (of one length, as the source checks in debug builds): position [i]
    holds the least of the children's levels at [i].  The buffer is first
    filled by [memset] with the maximal repetition level of the first
    child as a byte; for a level between 0 and 127 that the first child's
    levels do not exceed, the value so written does not show in the
    result. *)
Theorem struct_rep_levels_min_of_children
        children struct_def_level struct_rep_level top_parent_def_level
        first_child other_children first others :
  children = first_child :: other_children ->
  mapM GetRepLevels children = Some (first :: others) ->
  Forall (fun child_rep_levels => length child_rep_levels = length first) others ->
  0 <= max_rep_level first_child <= 127 ->
  Forall (fun r => r <= max_rep_level first_child) first ->
  exists merged,
    GetRepLevels (StructOf children struct_def_level struct_rep_level
                           top_parent_def_level) = Some merged
    /\ length merged = length first
    /\ forall i r, first !! i = Some r ->
         merged !! i
         = Some (foldl (fun acc child_rep_levels =>
                          Z.min acc (default 0 (child_rep_levels !! i)))
                       r others).
Proof.
  intros -> Hstreams Hall Hmax Hfirst. cbn [GetRepLevels]. rewrite Hstreams. simpl.
  destruct (merge_children_rep (length first) (first :: others)
              (replicate (length first) (memset_int16 (max_rep_level first_child))))
    as (merged & Hm & Hlen & Hat).
  { apply length_replicate. }
  { constructor; [reflexivity | assumption]. }
  exists merged. split; [exact Hm|]. split; [assumption|].
  intros i r Hi. rewrite (Hat i (memset_int16 (max_rep_level first_child))).
  2: { apply lookup_replicate_2. by apply lookup_lt_Some in Hi. }
  f_equal. unfold min_at. simpl. rewrite Hi. simpl.
  rewrite memset_int16_small by assumption.
  rewrite Forall_lookup in Hfirst. specialize (Hfirst i r Hi).
  rewrite Z.min_r by lia. reflexivity.
Qed.

End StructRepLevels.

Section StructStreams.
Import Reader.

Lemma fold_child_def_short sdl child : forall n i result,
  (i <= length child < i + n)%nat -> (i + n <= length result)%nat ->
  fold_child_def sdl child n i result = None.
Proof.
  induction n as [|n IH]; intros i result Hc Hr; [lia|]. simpl.
  destruct (child !! i) as [cd|] eqn:Hcd; [|reflexivity].
  apply lookup_lt_Some in Hcd.
  destruct (result !! i) as [r|]; [|reflexivity].
  apply IH; [lia | rewrite length_insert; lia].
Qed.

Lemma merge_no_result sdl (L : nat) streams :
  foldl (fun acc child_def_levels =>
           result_levels ← acc;
           fold_child_def sdl child_def_levels L 0 result_levels)
        None streams = None.
Proof. induction streams as [|c streams IH]; [reflexivity | exact IH]. Qed.

(** The merge over children whose streams are at least as long as the
    buffer looks at their first entries only. *)
Lemma merge_long_children sdl (L : nat) : forall streams result,
  length result = L ->
  Forall (fun c => (L <= length c)%nat) streams ->
  exists merged,
    foldl (fun acc child_def_levels =>
             result_levels ← acc;
             fold_child_def sdl child_def_levels L 0 result_levels)
          (Some result) streams = Some merged
    /\ length merged = L
    /\ forall i v, result !! i = Some v ->
         merged !! i = Some (merged_at sdl i v streams).
Proof.
  induction streams as [|c streams IH]; intros result Hlen Hall; simpl.
  - exists result. auto.
  - apply Forall_cons in Hall as [Hc Hall].
    destruct (fold_child_def_spec sdl c L 0 result) as (res' & Hres & Hlen' & Hlk);
      [lia | lia |].
    rewrite Hres.
    destruct (IH res' ltac:(lia) Hall) as (merged & -> & Hm & Hat).
    exists merged. split; [reflexivity|]. split; [assumption|].
    intros i v Hv. apply Hat. rewrite Hlk, Hv.
    apply lookup_lt_Some in Hv. rewrite bool_decide_eq_true_2 by lia. reflexivity.
Qed.

Lemma merge_short_child sdl (L : nat) : forall streams result,
  length result = L ->
  Exists (fun c => (length c < L)%nat) streams ->
  foldl (fun acc child_def_levels =>
           result_levels ← acc;
           fold_child_def sdl child_def_levels L 0 result_levels)
        (Some result) streams = None.
Proof.
  induction streams as [|c streams IH]; intros result Hlen Hex; [inversion Hex|].
  simpl. destruct (decide (length c < L)%nat) as [Hshort|Hlong].
  - rewrite fold_child_def_short by lia. apply merge_no_result.
  - apply Exists_cons in Hex as [Hex|Hex]; [lia|].
    destruct (fold_child_def_spec sdl c L 0 result) as (res' & -> & Hlen' & _);
      [lia | lia |].
    apply IH; [lia | assumption].
Qed.

(** The merged definition levels of a struct reader whose children's
    streams are not of one length (which the source checks in debug builds
    only).  The buffer has the length of the first child's stream: a child
    with a longer stream is merged by its first entries, as if it were of
    that length; at a child with a shorter one the merge reads behind the
    end of the stream. *)
Theorem struct_def_levels_of_unequal_children
        children struct_def_level struct_rep_level top_parent_def_level
        first others :
  mapM GetDefLevels children = Some (first :: others) ->
  (Forall (fun child_def_levels => (length first <= length child_def_levels)%nat)
          others ->
   exists merged,
     GetDefLevels (StructOf children struct_def_level struct_rep_level
                            top_parent_def_level) = Some merged
     /\ length merged = length first
     /\ forall i, (i < length first)%nat ->
          merged !! i
          = Some (foldl (fun acc child_def_levels =>
                           Z.max acc (Z.min (default 0 (child_def_levels !! i))
                                            struct_def_level))
                        (-1) (first :: others)))
  /\ (Exists (fun child_def_levels => (length child_def_levels < length first)%nat)
             others ->
      GetDefLevels (StructOf children struct_def_level struct_rep_level
                             top_parent_def_level) = None).
Proof.
  intros Hstreams. cbn [GetDefLevels]. rewrite Hstreams. simpl. split.
  - intros Hall.
    destruct (merge_long_children struct_def_level (length first) (first :: others)
                (replicate (length first) (-1))) as (merged & Hm & Hlen & Hat).
    { apply length_replicate. }
    { constructor; [lia | assumption]. }
    exists merged. split; [exact Hm|]. split; [assumption|].
    intros i Hi. apply (Hat i (-1)). apply lookup_replicate_2. assumption.
  - intros Hex.
    apply (merge_short_child struct_def_level (length first) (first :: others)).
    + apply length_replicate.
    + apply Exists_cons. right. assumption.
Qed.

Lemma struct_def_levels_of_unequal_children_witness :
  mapM GetDefLevels
       (gather (NextBatch 2)
               [leaf INT32 (mkDescr 2 0 true false 0 (fun _ => true)) [[(1, 0); (2, 0)]];
                leaf INT32 (mkDescr 2 0 true false 0 (fun _ => true)) [[(2, 0)]]]).2
  = Some ([1; 2] :: [[2]])
  /\ GetDefLevels
       (StructOf (gather (NextBatch 2)
                         [leaf INT32 (mkDescr 2 0 true false 0 (fun _ => true))
                               [[(1, 0); (2, 0)]];
                          leaf INT32 (mkDescr 2 0 true false 0 (fun _ => true))
                               [[(2, 0)]]]).2
                 1 0 0) = None.
Proof.
  split; [reflexivity|].
  apply (proj2 (struct_def_levels_of_unequal_children
                  (gather (NextBatch 2)
                          [leaf INT32 (mkDescr 2 0 true false 0 (fun _ => true))
                                [[(1, 0); (2, 0)]];
                           leaf INT32 (mkDescr 2 0 true false 0 (fun _ => true))
                                [[(2, 0)]]]).2
                  1 0 0 [1; 2] [[2]] eq_refl)).
  constructor. simpl. lia.
Defined.

End StructStreams.

Section DateFacts.
Import Timestamp Dates.

Lemma date32_to_milliseconds_exact days :
  int32 days -> date32_to_milliseconds days = days * 86400000.
Proof.
  unfold int32, date32_to_milliseconds. intros H. apply to_int64_id. unfold int64. lia.
Qed.

Lemma write_milliseconds_below values : forall out_ptr buf j,
  (j < out_ptr)%nat -> write_milliseconds values out_ptr buf !! j = buf !! j.
Proof.
  induction values as [|v values IH]; intros out_ptr buf j Hj; simpl; [reflexivity|].
  rewrite IH by lia. apply list_lookup_insert_ne. lia.
Qed.

Lemma write_milliseconds_length values : forall out_ptr buf,
  length (write_milliseconds values out_ptr buf) = length buf.
Proof.
  induction values as [|v values IH]; intros; simpl; [reflexivity|].
  rewrite IH. apply length_insert.
Qed.

Lemma write_milliseconds_at values : forall out_ptr buf i v,
  (out_ptr + length values <= length buf)%nat ->
  values !! i = Some v ->
  write_milliseconds values out_ptr buf !! (out_ptr + i)%nat
  = Some (date32_to_milliseconds v).
Proof.
  induction values as [|w values IH]; intros out_ptr buf i v Hlen Hi; [discriminate|].
  simpl in *. destruct i as [|i]; simpl in Hi.
  - injection Hi as ->. rewrite Nat.add_0_r, write_milliseconds_below by lia.
    apply list_lookup_insert_eq. lia.
  - replace (out_ptr + S i)%nat with (S out_ptr + i)%nat by lia.
    apply IH; [rewrite length_insert; lia | assumption].
Qed.

Lemma write_milliseconds_above values : forall out_ptr buf j,
  (out_ptr + length values <= j)%nat ->
  write_milliseconds values out_ptr buf !! j = buf !! j.
Proof.
  induction values as [|v values IH]; intros out_ptr buf j Hj; simpl in *; [reflexivity|].
  rewrite IH by lia. apply list_lookup_insert_ne. lia.
Qed.

(** Reading 32-bit dates into a 64-bit date column converts each value
    read into the next slot of the data buffer as milliseconds, 86400000
    times the days.  The product of a 32-bit value never leaves the range
    of [int64_t], so the slot holds the exact number, the days are the
    slot divided by 86400000, and the order of two dates is the order of
    their slots.  The slots before and behind those written stay as they
    were. *)
Theorem date64_milliseconds_exact (values : list Z) (st : DataBuffer) :
  Forall int32 values ->
  (valid_bits_idx_ st + length values <= length (data_buffer_ st))%nat ->
  valid_bits_idx_ (ReadNonNullableBatch_Date64 values st)
  = (valid_bits_idx_ st + length values)%nat
  /\ (forall i v,
        values !! i = Some v ->
        data_buffer_ (ReadNonNullableBatch_Date64 values st)
          !! (valid_bits_idx_ st + i)%nat = Some (v * 86400000)
        /\ v * 86400000 / 86400000 = v
        /\ int64 (v * 86400000))
  /\ (forall i j v w,
        values !! i = Some v -> values !! j = Some w ->
        (v < w <-> date32_to_milliseconds v < date32_to_milliseconds w))
  /\ (forall j,
        (j < valid_bits_idx_ st \/ valid_bits_idx_ st + length values <= j)%nat ->
        data_buffer_ (ReadNonNullableBatch_Date64 values st) !! j
        = data_buffer_ st !! j).
Proof.
  intros Hall Hlen. rewrite Forall_lookup in Hall.
  split; [reflexivity|]. split; [|split].
  - intros i v Hv. pose proof (Hall i v Hv) as Hint. split; [|split].
    + unfold ReadNonNullableBatch_Date64. simpl.
      rewrite (write_milliseconds_at _ _ _ _ v) by assumption.
      rewrite date32_to_milliseconds_exact by assumption. reflexivity.
    + apply Z.div_mul. lia.
    + unfold int32, int64 in *. lia.
  - intros i j v w Hv Hw.
    rewrite !date32_to_milliseconds_exact by eauto. lia.
  - intros j Hj. unfold ReadNonNullableBatch_Date64. simpl.
    destruct Hj; [apply write_milliseconds_below | apply write_milliseconds_above];
      assumption.
Qed.

End DateFacts.

Section ListArrays.
Import Reader.

(** The bits [ListImpl::DefLevelsToNullArray] appends when the level that
    gives a null list its place is not above the list's: one for each
    level that has a place, set when the level reaches the list's. *)
Lemma list_null_bits_spec ldl ms D :
  ms <= ldl ->
  (list_null_bits ldl ms D).1
  = (fun d => bool_decide (ldl <= d)) <$> filter (fun d => ms <= d) D.
Proof.
  intros Hms. induction D as [|d D IH]; [reflexivity|]. simpl.
  destruct (list_null_bits ldl ms D) as [bits nc]. simpl in *. rewrite filter_cons.
  destruct (Z.leb_spec ldl d); [|destruct (Z.leb_spec ms d)].
  - rewrite decide_True by lia. rewrite fmap_cons, bool_decide_eq_true_2 by lia.
    simpl. rewrite IH. reflexivity.
  - rewrite decide_True by lia. rewrite fmap_cons, bool_decide_eq_false_2 by lia.
    simpl. rewrite IH. reflexivity.
  - rewrite decide_False by lia. exact IH.
Qed.

Lemma offsets_loop_count ldl lrl ms cdef crep D : forall idx val rest,
  offsets_loop ldl lrl ms cdef crep D idx val = Some rest ->
  length rest = length (filter (fun d => ms <= d) D).
Proof.
  induction D as [|d D IH]; intros idx val rest H; simpl in H.
  - injection H as <-. reflexivity.
  - destruct (_ : option (nat * nat)) as [[idx' val']|] eqn:Hstep in H;
      [|discriminate]. simpl in H.
    destruct (offsets_loop ldl lrl ms cdef crep D idx' val') as [rest'|] eqn:Hrest;
      [|discriminate].
    simpl in H. injection H as <-. apply IH in Hrest. rewrite filter_cons.
    destruct (Z.leb_spec ms d).
    + rewrite decide_True by lia. simpl. lia.
    + rewrite decide_False by lia. exact Hrest.
Qed.

Lemma countb_le {A} (f : A -> bool) l : countb f l <= Z.of_nat (length l).
Proof. unfold countb. pose proof (length_filter (fun x => f x = true) l). lia. Qed.

(** The validity of a list array, for a list whose null has its place
    from a level on that is not above the list's own
    ([min_space_def_level <= list_def_level]): the bitmap, when there is
    one, has a bit for each list of the array, in order, which is set
    exactly when the definition level of that list reaches the list's;
    the null count is the number of the clear bits, and the bitmap is
    left out exactly when it is 0. *)
Theorem list_array_validity
        n child list_def_level list_rep_level min_space_def_level
        len offsets values bitmap nulls :
  (NextBatch n (ListOf child list_def_level list_rep_level min_space_def_level)).1
  = Batch (ListArray len offsets values bitmap nulls) ->
  min_space_def_level <= list_def_level ->
  exists def_levels,
    GetDefLevels (NextBatch n (ListOf child list_def_level list_rep_level
                                      min_space_def_level)).2 = Some def_levels
    /\ len = Z.of_nat (length (filter (fun d => min_space_def_level <= d) def_levels))
    /\ (forall j d,
          filter (fun d => min_space_def_level <= d) def_levels !! j = Some d ->
          valid_bit bitmap j = Some (bool_decide (list_def_level <= d)))
    /\ (forall bits, bitmap = Some bits ->
          Z.of_nat (length bits) = len /\ nulls = countb negb bits)
    /\ (bitmap = None <-> nulls = 0)
    /\ 0 <= nulls <= len.
Proof.
  cbn [NextBatch]. intros H Hms.
  destruct (NextBatch n child) as [r child'].
  destruct r as [child_array| | |]; try discriminate. simpl in H. cbn [snd].
  unfold ListImpl_assemble in H.
  destruct (GetDefLevels (ListOf child' _ _ _)) as [D|]; [|discriminate].
  destruct (GetDefLevels child') as [cdef|]; [|discriminate].
  destruct (GetRepLevels child') as [crep|]; [|discriminate].
  pose proof (list_null_bits_count list_def_level min_space_def_level D) as Hnc.
  pose proof (list_null_bits_spec list_def_level min_space_def_level D Hms) as Hbits.
  destruct (list_null_bits list_def_level min_space_def_level D) as [bits nc].
  unfold RepLevelsToOffsetsArray in H.
  destruct (offsets_loop _ _ _ cdef crep D 0 0) as [rest|] eqn:Hrest; [|discriminate].
  apply offsets_loop_count in Hrest.
  simpl in H, Hnc, Hbits. injection H as <- <- <- <- <-.
  assert (Hlen : length bits = length rest) by (rewrite Hbits, length_fmap; auto).
  exists D. split; [reflexivity|]. split; [simpl; lia|]. split; [|split; [|split]].
  - intros j d Hj. rewrite Hnc. apply valid_bit_of_bits.
    rewrite Hbits, list_lookup_fmap, Hj. reflexivity.
  - unfold null_bitmap_of. intros bits' Hb.
    destruct (nc =? 0); [discriminate|]. injection Hb as <-. simpl. split; [lia | exact Hnc].
  - unfold null_bitmap_of. destruct (Z.eqb_spec nc 0); split; congruence.
  - pose proof (countb_nonneg negb bits). pose proof (countb_le negb bits).
    simpl. lia.
Qed.

Lemma walk_spec lrl rest : forall idx val,
  ((walk lrl rest idx val).1 + val = (walk lrl rest idx val).2 + idx)%nat
  /\ (idx <= (walk lrl rest idx val).1 <= idx + length rest)%nat.
Proof.
  induction rest as [|r rest IH]; intros idx val; simpl; [lia|].
  destruct (lrl <? r); simpl; [|lia]. specialize (IH (S idx) (S val)). lia.
Qed.

Lemma offsets_loop_bound ldl lrl ms cdef crep D : forall idx val rest,
  offsets_loop ldl lrl ms cdef crep D idx val = Some rest ->
  (val <= idx)%nat ->
  (val <= Nat.max (length cdef) (length crep))%nat ->
  Forall (fun o => 0 <= o <= Z.of_nat (Nat.max (length cdef) (length crep))) rest.
Proof.
  induction D as [|d D IH]; intros idx val rest H Hle Hmax; simpl in H.
  - injection H as <-. constructor.
  - destruct (_ : option (nat * nat)) as [[idx' val']|] eqn:Hstep in H;
      [|discriminate]. simpl in H.
    destruct (offsets_loop ldl lrl ms cdef crep D idx' val') as [rest'|] eqn:Hrest;
      [|discriminate].
    simpl in H. injection H as <-.
    assert (Hnext : (val' <= idx')%nat
                    /\ (val' <= Nat.max (length cdef) (length crep))%nat).
    { destruct (d =? ldl); [|injection Hstep as <- <-; lia].
      destruct (cdef !! idx) as [cd|] eqn:Hcd; [|discriminate]. simpl in Hstep.
      apply lookup_lt_Some in Hcd.
      destruct (ldl <? cd); [|injection Hstep as <- <-; lia].
      destruct (walk_spec lrl (drop (S idx) crep) (S idx) (S val)) as [Hdiff Hrange].
      injection Hstep as Hstep. rewrite Hstep in Hdiff, Hrange. simpl in Hdiff, Hrange.
      rewrite length_drop in Hrange. lia. }
    destruct Hnext as [Hle' Hmax']. specialize (IH idx' val' rest' Hrest Hle' Hmax').
    destruct (ms <=? d); [constructor; [lia | exact IH] | exact IH].
Qed.

(** The offsets of a list array count levels of the child: every one of
    them lies between 0 and the number of levels the child's level
    streams hold after the read, whatever the length of the child
    array. *)
Theorem list_offsets_within_child_levels
        n child list_def_level list_rep_level min_space_def_level
        len offsets values bitmap nulls child_def_levels child_rep_levels :
  (NextBatch n (ListOf child list_def_level list_rep_level min_space_def_level)).1
  = Batch (ListArray len offsets values bitmap nulls) ->
  GetDefLevels (NextBatch n child).2 = Some child_def_levels ->
  GetRepLevels (NextBatch n child).2 = Some child_rep_levels ->
  Forall (fun o => 0 <= o <= Z.of_nat (Nat.max (length child_def_levels)
                                               (length child_rep_levels)))
         offsets.
Proof.
  cbn [NextBatch]. intros H Hdef Hrep.
  destruct (NextBatch n child) as [r child'].
  destruct r as [child_array| | |]; try discriminate. simpl in H, Hdef, Hrep.
  unfold ListImpl_assemble in H.
  destruct (GetDefLevels (ListOf child' _ _ _)) as [D|]; [|discriminate].
  rewrite Hdef, Hrep in H.
  destruct (list_null_bits list_def_level min_space_def_level D) as [bits nc].
  unfold RepLevelsToOffsetsArray in H.
  destruct (offsets_loop _ _ _ child_def_levels child_rep_levels D 0 0) as [rest|] eqn:Hrest;
    [|discriminate].
  simpl in H. injection H as <- <- <- <- <-.
  constructor; [lia|].
  eapply offsets_loop_bound; [exact Hrest | lia | lia].
Qed.

End ListArrays.

Section ListOffsets.
Import Reader LeafReads LevelStreams.
Variables list_def_level list_rep_level min_space_def_level : Z.
Hypothesis Hspace : min_space_def_level <= list_def_level.

Local Notation "'cmr'" := (list_rep_level + 1) (only parsing).

Lemma continued_above_tail l levels :
  continued_above cmr list_def_level (l :: levels) ->
  continued_above cmr list_def_level levels.
Proof. intros H i x y Hx Hy. exact (H (S i) x y Hx Hy). Qed.

Lemma foldl_Zmax_lower acc defs : acc <= foldl Z.max acc defs.
Proof.
  revert acc. induction defs as [|d defs IH]; intros acc; simpl; [lia|].
  specialize (IH (Z.max acc d)). lia.
Qed.

(** One list of the child's levels, behind its first level: the levels
    that go on with the list, which [ListImpl::GetDefLevels] folds into one
    definition level and the walk of [RepLevelsToOffsetsArray] steps
    over. *)
Lemma one_list : forall (levels : list Level) acc,
  exists run rest D,
    levels = run ++ rest
    /\ Forall (fun l => cmr <= l.2) run
    /\ match rest with [] => True | l :: _ => l.2 < cmr end
    /\ ListImpl_GetDefLevels cmr list_def_level rest.*1 rest.*2 = Some D
    /\ def_group cmr list_def_level acc levels.*1 levels.*2
       = Some (Z.min (foldl Z.max acc run.*1) list_def_level :: D)
    /\ forall idx val,
         walk list_rep_level levels.*2 idx val
         = ((idx + length run)%nat, (val + length run)%nat).
Proof.
  induction levels as [|[d r] levels IH]; intros acc.
  - exists [], [], []. simpl. split_and!; auto.
  - rewrite !fmap_cons. simpl fst. simpl snd. cbn [def_group walk].
    destruct (Z.leb_spec cmr r) as [Hr|Hr].
    + destruct (IH (Z.max acc d)) as (run & rest & D & Hl & Hrun & Hrest & HD & Hg & Hw).
      exists ((d, r) :: run), rest, D.
      rewrite (proj2 (Z.ltb_lt list_rep_level r)) by lia.
      split_and!.
      * simpl. rewrite Hl. reflexivity.
      * constructor; [simpl; lia | assumption].
      * exact Hrest.
      * exact HD.
      * rewrite Hg. reflexivity.
      * intros idx val. rewrite Hw. simpl. f_equal; lia.
    + destruct (IH (Z.max (-1) d)) as (run & rest & D & Hl & Hrun & Hrest & HD & Hg & Hw).
      exists [], ((d, r) :: levels), (Z.min (foldl Z.max (Z.max (-1) d) run.*1) list_def_level :: D).
      rewrite (proj2 (Z.ltb_ge list_rep_level r)) by lia.
      split_and!.
      * reflexivity.
      * constructor.
      * simpl. lia.
      * unfold ListImpl_GetDefLevels. rewrite !fmap_cons. simpl. exact Hg.
      * rewrite Hg. reflexivity.
      * intros idx val. simpl. f_equal; lia.
Qed.

Lemma filter_Forall_id {A} (P : A -> Prop) `{forall x, Decision (P x)} (l : list A) :
  Forall P l -> filter P l = l.
Proof.
  induction 1 as [|x l Hx Hl IH]; [reflexivity|].
  rewrite filter_cons, decide_True by exact Hx. rewrite IH. reflexivity.
Qed.

Lemma last_behind_head {A} (x y : A) l : last (x :: y :: l) = last (y :: l).
Proof. reflexivity. Qed.

Lemma last_keep (val val' : nat) (rest : list Z) (appended : bool) :
  (appended = false -> val' = val) ->
  last (Z.of_nat val :: (if appended then Z.of_nat val' :: rest else rest))
  = last (Z.of_nat val' :: rest).
Proof.
  intros H. destruct appended; [reflexivity|]. rewrite (H eq_refl). reflexivity.
Qed.

(** The offsets run up to the number of the child's levels above the
    list's definition level. *)
Lemma offsets_count (m : nat) : forall (pre suf : list Level) val D,
  (length suf <= m)%nat ->
  continued_above cmr list_def_level suf ->
  ListImpl_GetDefLevels cmr list_def_level suf.*1 suf.*2 = Some D ->
  exists rest,
    offsets_loop list_def_level list_rep_level min_space_def_level
                 (pre ++ suf).*1 (pre ++ suf).*2 D (length pre) val = Some rest
    /\ last (Z.of_nat val :: rest)
       = Some (Z.of_nat (val + length (filter (fun l => list_def_level < l.1) suf))).
Proof.
  unfold Level in *.
  induction m as [|m IH]; intros pre suf val D Hm Hwf HD.
  - destruct suf; [|simpl in Hm; lia]. simpl in HD. injection HD as <-.
    exists []. split; [reflexivity|]. simpl. rewrite Nat.add_0_r. reflexivity.
  - destruct suf as [|[d0 r0] suf']; [simpl in HD; injection HD as <-;
      exists []; split; [reflexivity|]; simpl; rewrite Nat.add_0_r; reflexivity|].
    unfold ListImpl_GetDefLevels in HD. rewrite !fmap_cons in HD. simpl in HD.
    destruct (one_list suf' (Z.max (-1) d0))
      as (run & rest & D' & Hsuf & Hrun & Hrest & HD' & Hg & Hw).
    unfold Level in *. rewrite Hg in HD. injection HD as <-.
    assert (Hlookup : (pre ++ (d0, r0) :: suf').*1 !! length pre = Some d0).
    { rewrite fmap_app, fmap_cons. apply list_lookup_middle.
      rewrite length_fmap. reflexivity. }
    assert (Hdrop : drop (S (length pre)) (pre ++ (d0, r0) :: suf').*2 = suf'.*2).
    { rewrite fmap_app, fmap_cons, cons_middle, app_assoc.
      apply drop_app_length'. rewrite length_app, length_fmap. simpl. unfold Level. lia. }
    cbn [offsets_loop]. rewrite Hlookup, Hdrop, Hw. simpl.
    destruct (Z.ltb_spec list_def_level d0) as [Habove|Hbelow].
    + (* a list with values *)
      pose proof (foldl_Zmax_lower (Z.max (-1) d0) run.*1) as Hmax.
      rewrite Z.min_r by lia. rewrite Z.eqb_refl. simpl.
      assert (Hall : Forall (fun l => list_def_level < l.1) run).
      { clear -Hwf Hrun Hsuf Habove. subst suf'.
        assert (Hgen : forall (prev : Level) (run0 : list Level),
                   list_def_level < prev.1 ->
                   Forall (fun l => cmr <= l.2) run0 ->
                   continued_above cmr list_def_level (prev :: run0 ++ rest) ->
                   Forall (fun l => list_def_level < l.1) run0).
        { intros prev run0. revert prev.
          induction run0 as [|x run0 IHr]; intros prev Hp Hr Hw; [constructor|].
          apply Forall_cons in Hr as [Hx Hr].
          destruct (Hw 0%nat prev x eq_refl eq_refl Hx) as [_ Hx'].
          constructor; [exact Hx'|].
          apply (IHr x Hx' Hr). eapply continued_above_tail. exact Hw. }
        exact (Hgen (d0, r0) run Habove Hrun Hwf). }
      destruct (IH (pre ++ (d0, r0) :: run) rest (S (val + length run)) D')
        as (offs & Hoffs & Hlast).
      { subst suf'. simpl in Hm. rewrite length_app in Hm. lia. }
      { subst suf'. clear -Hwf. intros i x y Hx Hy.
        apply (Hwf (S (length run + i))); unfold Level in *.
        - simpl. rewrite lookup_app_r by lia.
          replace (length run + i - length run)%nat with i by lia. exact Hx.
        - simpl. rewrite lookup_app_r by lia.
          replace (S (length run + i) - length run)%nat with (S i) by lia. exact Hy. }
      { exact HD'. }
      replace (S (length pre + length run)) with (length (pre ++ (d0, r0) :: run))
        by (rewrite length_app; simpl; lia).
      replace (pre ++ (d0, r0) :: suf') with ((pre ++ (d0, r0) :: run) ++ rest)
        by (rewrite <- app_assoc; simpl; rewrite Hsuf; reflexivity).
      rewrite Hoffs. simpl.
      rewrite (proj2 (Z.leb_le min_space_def_level list_def_level)) by lia.
      eexists. split; [reflexivity|].
      rewrite last_behind_head, Hlast. f_equal. f_equal.
      rewrite filter_cons, decide_True by (simpl; lia).
      rewrite Hsuf, filter_app, (filter_Forall_id _ run Hall).
      simpl. rewrite length_app. lia.
    + (* an empty or a null list stands alone *)
      assert (Hrunnil : run = []).
      { destruct run as [|x run']; [reflexivity|]. exfalso.
        apply Forall_cons in Hrun as [Hx _]. subst suf'.
        destruct (Hwf 0%nat (d0, r0) x eq_refl eq_refl Hx) as [Hd0 _]. simpl in Hd0. lia. }
      subst run. simpl in Hsuf. subst rest. simpl in Hw |- *.
      destruct (IH (pre ++ [(d0, r0)]) suf' val D') as (offs & Hoffs & Hlast).
      { simpl in Hm. lia. }
      { eapply continued_above_tail. exact Hwf. }
      { exact HD'. }
      replace (pre ++ (d0, r0) :: suf') with ((pre ++ [(d0, r0)]) ++ suf')
        by (rewrite <- app_assoc; reflexivity).
      replace (S (length pre)) with (length (pre ++ [(d0, r0)]))
        by (rewrite length_app; simpl; lia).
      assert (Hsame : forall (c : bool) (x : option (nat * nat)),
                 (if c then x else x) = x) by (intros []; reflexivity).
      rewrite Hsame. simpl. rewrite Hoffs. simpl.
      eexists. split; [reflexivity|].
      rewrite last_keep by reflexivity. rewrite Hlast. f_equal. f_equal.
      rewrite filter_cons, decide_False by (simpl; lia). reflexivity.
Qed.

Lemma elements_defined_spec levels :
  elements_defined cmr list_def_level levels = true ->
  continued_above cmr list_def_level levels.
Proof.
  induction levels as [|l levels IH]; intros H i x y Hx Hy Hr; [discriminate|].
  destruct levels as [|l' levels]; [discriminate|].
  cbn [elements_defined] in H. apply andb_true_iff in H as [Hhere Hrest].
  destruct i as [|i].
  - injection Hx as <-. injection Hy as <-.
    rewrite (proj2 (Z.leb_le _ _) Hr) in Hhere.
    apply andb_true_iff in Hhere as [H1 H2]. split; apply Z.ltb_lt; assumption.
  - exact (IH Hrest i x y Hx Hy Hr).
Qed.

Lemma list_def_levels_total (levels : list Level) :
  exists D, ListImpl_GetDefLevels cmr list_def_level levels.*1 levels.*2 = Some D.
Proof.
  destruct levels as [|[d r] levels]; [exists []; reflexivity|].
  unfold ListImpl_GetDefLevels. rewrite !fmap_cons. simpl.
  destruct (one_list levels (Z.max (-1) d)) as (run & rest & D & _ & _ & _ & _ & Hg & _).
  eexists. exact Hg.
Qed.

Lemma slots_above (f : Z -> option bool) (levels : list Level) :
  Forall (fun d => f d <> None <-> list_def_level < d) levels.*1 ->
  length (omap f levels.*1)
  = length (filter (fun l : Level => list_def_level < l.1) levels).
Proof.
  induction levels as [|[d r] levels IH]; intros H; [reflexivity|].
  rewrite fmap_cons in H. apply Forall_cons in H as [Hd H]. simpl in Hd.
  rewrite fmap_cons. simpl fst. cbn [omap list_omap]. rewrite filter_cons.
  destruct (f d) as [b|] eqn:Hf in |- *.
  - rewrite decide_True by (simpl; apply (proj1 Hd); rewrite Hf; discriminate).
    simpl. rewrite (IH H). reflexivity.
  - rewrite decide_False by (simpl; intros Hlt; apply (proj2 Hd) in Hlt; congruence).
    exact (IH H).
Qed.

(** A list of values, read from levels as Parquet writes them, with the
    list's null placed from a level on that is not above the list's own
    ([min_space_def_level <= list_def_level]): when the slots of the
    element array are the levels above the list's definition level, the
    read gives a list array, and its last offset is the length of the
    element array. *)
Theorem list_of_values_offsets_end_at_child_length n p a p' :
  0 <= n ->
  PrimitiveImpl_NextBatch n p = (Batch a, p') ->
  readable (field_type p) = true ->
  0 < max_definition_level (descr_ p) ->
  0 <= list_rep_level ->
  max_repetition_level (descr_ p) = list_rep_level + 1 ->
  Forall (fun d => def_slot (field_type p) (descr_ p) d <> None <-> list_def_level < d)
         (def_levels_buffer_ p') ->
  elements_defined (list_rep_level + 1) list_def_level
                   (zip (def_levels_buffer_ p') (rep_levels_buffer_ p')) = true ->
  exists offsets bitmap nulls,
    (NextBatch n (ListOf (Primitive p) list_def_level list_rep_level
                         min_space_def_level)).1
    = Batch (ListArray (Z.of_nat (length offsets) - 1) offsets a bitmap nulls)
    /\ last offsets = Some (array_length a).
Proof.
  intros Hn Hread Hty Hdef Hlrl Hrep Hslots Hwf.
  pose proof (leaf_array_slots n p a p' Hread Hty Hdef) as Ha.
  destruct (leaf_read_levels n p a p' Hread Hty) as (levels & _ & _ & Hbuf).
  destruct (Hbuf Hdef) as [Hd Hr]. specialize (Hr ltac:(lia)).
  rewrite Hd, Hr in Hwf. rewrite zip_fst_snd in Hwf.
  apply elements_defined_spec in Hwf.
  destruct (list_def_levels_total levels) as [D HD].
  destruct (offsets_count (length levels) [] levels 0%nat D (le_n _) Hwf HD)
    as (rest & Hoffs & Hlast).
  simpl in Hoffs, Hlast.
  assert (Hdescr : descr_ p' = descr_ p).
  { clear -Hread Hty. pose proof (Batch_attached _ _ _ _ Hread) as Hat.
    destruct (PrimitiveImpl_NextBatch_paths n p Hty Hat) as [[_ Hpath]|[Hpath _]];
      rewrite Hpath in Hread.
    - apply TypedReadBatch_inv in Hread as (st & _ & -> & _). reflexivity.
    - apply builder_read_inv in Hread as (st & _ & -> & _). reflexivity. }
  cbn [NextBatch]. rewrite Hread. cbn [fst]. unfold ListImpl_assemble.
  cbn [GetDefLevels GetRepLevels max_rep_level mbind option_bind].
  rewrite Hdescr, Hrep, Hd, Hr, HD.
  destruct (list_null_bits list_def_level min_space_def_level D) as [bits nc].
  unfold RepLevelsToOffsetsArray. rewrite Hoffs. simpl.
  exists (0 :: rest), (null_bitmap_of bits nc), nc. split; [reflexivity|].
  change (0 :: rest) with (Z.of_nat 0 :: rest). rewrite Hlast, Ha, Hd.
  cbn [array_length]. rewrite (slots_above _ levels) by (rewrite <- Hd; exact Hslots).
  reflexivity.
Qed.

End ListOffsets.

Section ListOffsetsExamples.
Import Reader LeafReads LevelStreams.

Lemma list_of_values_offsets_end_at_child_length_witness :
  exists offsets bitmap nulls,
    (NextBatch 10 (ListOf (Primitive int_lists) 1 0 0)).1
    = Batch (ListArray (Z.of_nat (length offsets) - 1) offsets
                       (PrimitiveArray INT32 3 (Some [true; true; false]) 1)
                       bitmap nulls)
    /\ last offsets
       = Some (array_length (PrimitiveArray INT32 3 (Some [true; true; false]) 1)).
Proof.
  apply (list_of_values_offsets_end_at_child_length 1 0 0 ltac:(lia) 10 int_lists
           (PrimitiveArray INT32 3 (Some [true; true; false]) 1)
           (PrimitiveImpl_NextBatch 10 int_lists).2).
  - lia.
  - vm_compute. reflexivity.
  - reflexivity.
  - simpl. lia.
  - lia.
  - reflexivity.
  - vm_compute def_levels_buffer_.
    repeat (constructor;
            [vm_compute; split;
             [intros H; first [reflexivity | exfalso; apply H; reflexivity]
             |intros H; first [discriminate H | intros E; discriminate E]]|]).
    constructor.
  - vm_compute. reflexivity.
Defined.

End ListOffsetsExamples.

Section WorkersExamples.
Import ParallelFor Workers.

Lemma parallel_for_ok_iff_all_succeed_witness :
  ParallelFor 2 (fun _ => OK) 2 [0; 0; 0; 0; 0; 0; 0; 0; 1; 1]%nat
  = Some (OK, [Claim 0 0 false; Claim 0 1 false])
  /\ claimed [Claim 0 0 false; Claim 0 1 false] = seq 0 2.
Proof.
  split; [reflexivity|].
  exact (proj2 (parallel_for_ok_iff_all_succeed
                  2 (fun _ => OK) 2 [0; 0; 0; 0; 0; 0; 0; 0; 1; 1]%nat OK
                  [Claim 0 0 false; Claim 0 1 false] eq_refl) eq_refl).
Defined.

End WorkersExamples.

Section TableExamples.
Import Reader FileReader.

Lemma table_read_status_witness :
  ColumnIndicesToFieldIndices
    (mkFile 3 1 (fun c => c) (fun _ _ => 0) (fun _ _ => mkColumnReader []))
    [0; 1; 2] = Some [0; 1; 2]
  /\ ReadTable (mkFile 3 1 (fun c => c) (fun _ _ => 0) (fun _ _ => mkColumnReader []))
               (fun _ => OK)
               (fun f => if f =? 1 then Error IOError "b"
                         else if f =? 2 then Error Invalid "c" else OK)
               1 [] [0; 1; 2]
     = Some (Error IOError "b").
Proof.
  split; [reflexivity|].
  pose proof (table_read_status
                (mkFile 3 1 (fun c => c) (fun _ _ => 0) (fun _ _ => mkColumnReader []))
                (fun _ => OK)
                (fun f => if f =? 1 then Error IOError "b"
                          else if f =? 2 then Error Invalid "c" else OK)
                1 [] [0; 1; 2] [0; 1; 2] (Error IOError "b")
                eq_refl eq_refl ltac:(lia) eq_refl) as [_ Hfirst].
  rewrite (Hfirst eq_refl [0] 1 [2] eq_refl); [reflexivity | | discriminate].
  constructor; [reflexivity | constructor].
Defined.

End TableExamples.

Section LeafExamples.
Import Reader FileReader LeafReads Columns Nodes.


Lemma leaf_array_follows_def_levels_witness :
  def_levels_buffer_ (PrimitiveImpl_NextBatch 3 optional_ints).2 = [1; 0; 1]
  /\ PrimitiveArray INT32 3 (Some [true; false; true]) 1
     = PrimitiveArray INT32
         (Z.of_nat (length (omap (def_slot INT32 (descr_ optional_ints)) [1; 0; 1])))
         (Some (omap (def_slot INT32 (descr_ optional_ints)) [1; 0; 1]))
         (countb negb (omap (def_slot INT32 (descr_ optional_ints)) [1; 0; 1])).
Proof.
  split; [reflexivity|].
  exact (leaf_array_follows_def_levels
           3 optional_ints (PrimitiveArray INT32 3 (Some [true; false; true]) 1)
           (PrimitiveImpl_NextBatch 3 optional_ints).2 ltac:(lia) eq_refl eq_refl
           ltac:(reflexivity)).
Defined.

Lemma leaf_read_of_slots_witness :
  levels_left optional_ints = [(1, 0); (0, 0); (1, 0); (1, 0)]
  /\ exists a p',
       PrimitiveImpl_NextBatch 3 optional_ints = (Batch a, p')
       /\ array_length a = Z.min 3 4
       /\ levels_left p' = [(1, 0)].
Proof.
  split; [reflexivity|].
  destruct (leaf_read_of_slots 3 optional_ints) as (a & p' & Hread & Ha & Hl & _).
  - apply leaf_reachable_attached. constructor.
  - discriminate.
  - reflexivity.
  - lia.
  - right. split; [reflexivity|]. repeat (constructor; [discriminate|]). constructor.
  - exists a, p'. split; [exact Hread|]. split; [exact Ha | exact Hl].
Defined.

Lemma read_column_reads_every_row_group_witness :
  metadata_consistent crossed
  /\ column_batch_size crossed 0 = 4
  /\ exists a p',
       ReadColumn crossed crossed_schema 0 = (Batch a, p')
       /\ array_length a = 4
       /\ levels_left p' = [].
Proof.
  assert (Hmeta : metadata_consistent crossed) by (intros j c _; reflexivity).
  split; [exact Hmeta|]. split; [reflexivity|].
  destruct (read_column_reads_every_row_group crossed crossed_schema 0 Hmeta eq_refl
              ltac:(reflexivity)) as [_ Hread].
  - right. split; [reflexivity|]. repeat (constructor; [discriminate|]). constructor.
  - apply Hread. simpl. lia.
Defined.

Lemma reader_tree_covers_requested_columns_witness :
  GetReaderForNode crossed crossed_schema plain_group (fun _ d => d) [1] (-1)
                   crossed_node 0 0
  = Some (Some (StructOf [ListOf (Primitive (GetColumn crossed crossed_schema 1 (-1)))
                                 0 0 0]
                         0 0 0))
  /\ leaves (StructOf [ListOf (Primitive (GetColumn crossed crossed_schema 1 (-1)))
                              0 0 0]
                      0 0 0)
     = (fun c => GetColumn crossed crossed_schema c (-1))
         <$> filter (fun c => c ∈ [1]) (reached plain_group crossed_node).
Proof.
  split; [reflexivity|].
  exact (proj1 (reader_tree_covers_requested_columns
                  crossed crossed_schema plain_group (fun _ d => d) [1] (-1)
                  crossed_node 0 0 _ eq_refl)).
Defined.



Lemma struct_read_stops_at_exhausted_child_witness :
  (NextBatch 1 (leaf INT32 (mkDescr 0 0 false false 0 (fun _ => false)) [])).1
  = Exhausted
  /\ NextBatch 1 (StructOf ([leaf INT32 (mkDescr 0 0 false false 0 (fun _ => false))
                                  [[(0, 0)]]]
                            ++ leaf INT32 (mkDescr 0 0 false false 0 (fun _ => false)) []
                            :: [])
                           0 0 0)
     = (Exhausted,
        StructOf (((fun c => (NextBatch 1 c).2)
                     <$> [leaf INT32 (mkDescr 0 0 false false 0 (fun _ => false))
                               [[(0, 0)]]])
                  ++ (NextBatch 1 (leaf INT32 (mkDescr 0 0 false false 0
                                                       (fun _ => false)) [])).2
                  :: [])
                 0 0 0).
Proof.
  split; [reflexivity|].
  apply struct_read_stops_at_exhausted_child; [|reflexivity].
  constructor; [|constructor]. eexists. reflexivity.
Defined.

End LeafExamples.

Section LevelExamples.
Import Reader LevelStreams Timestamp Dates.

Lemma list_level_streams_witness :
  GetDefLevels (NextBatch 6 list_of_optional_ints).2 = Some [0; 1; 1; 1]
  /\ GetRepLevels (NextBatch 6 list_of_optional_ints).2 = Some [0; 0; 0; 0]
  /\ lists_started 1 [0; 0; 0; 1; 1; 0] = 4%nat.
Proof.
  destruct (list_level_streams
              (Primitive (PrimitiveImpl_NextBatch
                            6 (new_PrimitiveImpl
                                 (mkIterator 0 [mkColumnReader
                                                  [(0, 0); (1, 0); (3, 0); (2, 1);
                                                   (3, 1); (3, 0)]])
                                 (mkDescr 3 1 true true 2 (fun d => d =? 2)) INT32)).2)
              1 0 0 [0; 1; 3; 2; 3; 3] [0; 0; 0; 1; 1; 0] eq_refl eq_refl eq_refl)
    as (D & R & HD & HR & HDlen & _).
  split; [reflexivity|]. split; [reflexivity|]. reflexivity.
Defined.

Lemma struct_rep_levels_min_of_children_witness :
  mapM GetRepLevels struct_in_list_children_read = Some ([0; 0; 0] :: [[0; 0; 0]])
  /\ exists merged,
       GetRepLevels (StructOf struct_in_list_children_read 3 1 2) = Some merged
       /\ merged !! 1%nat = Some 0.
Proof.
  split; [reflexivity|].
  destruct (struct_rep_levels_min_of_children
              struct_in_list_children_read 3 1 2
              (NextBatch 3 (leaf STRING (mkDescr 3 1 false false 3 (fun _ => false))
                                 [[(0, 0); (2, 0); (3, 0)]])).2
              [(NextBatch 3 (leaf (FIXED_SIZE_BINARY 4)
                                  (mkDescr 4 1 true false 3 (fun _ => false))
                                  [[(0, 0); (2, 0); (4, 0)]])).2]
              [0; 0; 0] [[0; 0; 0]] eq_refl eq_refl)
    as (merged & Hm & _ & Hat).
  - repeat constructor.
  - simpl. lia.
  - repeat (constructor; [simpl; lia|]). constructor.
  - exists merged. split; [exact Hm|]. exact (Hat 1%nat 0 eq_refl).
Defined.

Lemma date64_milliseconds_exact_witness :
  Forall int32 [1; -1]
  /\ data_buffer_ (ReadNonNullableBatch_Date64 [1; -1] (mkDataBuffer [0; 0; 0] 1))
     !! 2%nat = Some (-1 * 86400000).
Proof.
  assert (Hall : Forall int32 [1; -1]) by (repeat constructor; unfold int32; lia).
  split; [exact Hall|].
  destruct (date64_milliseconds_exact [1; -1] (mkDataBuffer [0; 0; 0] 1) Hall
              ltac:(simpl; lia)) as (_ & Hslot & _).
  exact (proj1 (Hslot 1%nat (-1) eq_refl)).
Defined.

Lemma list_array_validity_witness :
  (NextBatch 6 list_of_optional_ints).1
  = Batch (ListArray 4 [0; 0; 0; 3; 4]
                     (PrimitiveArray INT32 4 (Some [true; false; true; true]) 1)
                     (Some [false; true; true; true]) 1)
  /\ exists def_levels,
       GetDefLevels (NextBatch 6 list_of_optional_ints).2 = Some def_levels
       /\ 4 = Z.of_nat (length (filter (fun d => 0 <= d) def_levels))
       /\ 0 <= 1 <= 4.
Proof.
  split; [reflexivity|].
  destruct (list_array_validity
              6 (leaf INT32 (mkDescr 3 1 true true 2 (fun d => d =? 2))
                      [[(0, 0); (1, 0); (3, 0); (2, 1); (3, 1); (3, 0)]])
              1 0 0 _ _ _ _ _ eq_refl ltac:(lia))
    as (D & HD & Hlen & _ & _ & _ & Hnulls).
  exists D. split; [exact HD|]. split; [exact Hlen | exact Hnulls].
Defined.

Lemma list_offsets_within_child_levels_witness :
  (NextBatch 6 list_of_optional_ints).1
  = Batch (ListArray 4 [0; 0; 0; 3; 4]
                     (PrimitiveArray INT32 4 (Some [true; false; true; true]) 1)
                     (Some [false; true; true; true]) 1)
  /\ Forall (fun o => 0 <= o <= Z.of_nat (Nat.max 6 6)) [0; 0; 0; 3; 4].
Proof.
  split; [reflexivity|].
  exact (list_offsets_within_child_levels
           6 (leaf INT32 (mkDescr 3 1 true true 2 (fun d => d =? 2))
                   [[(0, 0); (1, 0); (3, 0); (2, 1); (3, 1); (3, 0)]])
           1 0 0 _ _ _ _ _ [0; 1; 3; 2; 3; 3] [0; 0; 0; 1; 1; 0]
           eq_refl eq_refl eq_refl).
Defined.


End LevelExamples.
